(** * Bounded-concurrency file emission and transfer-size estimation

    A shallow embedding of
    [packages/angular_devkit/build_angular/src/tools/esbuild/utils.ts]:
    the output-file constructors ([createOutputFileFromText],
    [createOutputFileFromData], [convertOutputFile]), the transfer-size
    estimator ([calculateEstimatedTransferSizes]) and the chunked writer
    ([emitFilesToDisk], [writeResultFiles]); further on, the build targets
    ([transformSupportedBrowsersToTargets], [getFeatureSupport]) and the
    build statistics ([logBuildStats]).

    Asynchronous code is modelled by explicit state machines: a state records
    what the JavaScript closure variables hold, and an event is one turn of
    the event loop (a callback being invoked, or a coroutine resuming after
    an [await]).  The order in which pending operations complete is chosen
    by the event list, so a statement quantified over all event lists covers
    every interleaving. *)

From Stdlib Require Import ZArith Lia List.
From Stdlib.Strings Require Import Ascii String Byte.
From Stdlib Require Import DecimalString.
From stdpp Require Import base option list gmap sets strings.

Import ListNotations.
#[local] Open Scope nat_scope.

(** ** The SHA-256 digest of [node:crypto]

    [createHash('sha256')] is the FIPS 180-4 function.  Words are 32-bit
    integers held in [Z], with the wrap-around written out. *)

Module Sha256.
#[local] Open Scope Z_scope.

Definition w32 (x : Z) : Z := x mod 2 ^ 32.
Definition add32 (x y : Z) : Z := w32 (x + y).
Definition not32 (x : Z) : Z := Z.lxor x 0xffffffff.
Definition rotr (n x : Z) : Z :=
  Z.lor (Z.shiftr x n) (w32 (Z.shiftl x (32 - n))).

Definition Ch (x y z : Z) : Z := Z.lxor (Z.land x y) (Z.land (not32 x) z).
Definition Maj (x y z : Z) : Z :=
  Z.lxor (Z.lxor (Z.land x y) (Z.land x z)) (Z.land y z).
Definition Sigma0 (x : Z) : Z := Z.lxor (Z.lxor (rotr 2 x) (rotr 13 x)) (rotr 22 x).
Definition Sigma1 (x : Z) : Z := Z.lxor (Z.lxor (rotr 6 x) (rotr 11 x)) (rotr 25 x).
Definition sigma0 (x : Z) : Z := Z.lxor (Z.lxor (rotr 7 x) (rotr 18 x)) (Z.shiftr x 3).
Definition sigma1 (x : Z) : Z := Z.lxor (Z.lxor (rotr 17 x) (rotr 19 x)) (Z.shiftr x 10).

(** The round constants are the first 32 bits of the fractional parts of the
    cube roots of the first 64 primes, the initial hash value those of the
    square roots of the first 8. *)
Definition is_prime (n : Z) : bool :=
  (2 <=? n) && forallb (fun d => negb (n mod Z.of_nat d =? 0))
                       (seq 2 (Z.to_nat (Z.sqrt n) - 1)).

Definition primes (count : nat) : list Z :=
  firstn count (filter is_prime (map Z.of_nat (seq 2 400))).

Definition cube_root (n : Z) : Z :=
  fold_left
    (fun r bit => let r' := r + 2 ^ Z.of_nat bit in
                  if r' * r' * r' <=? n then r' else r)
    (rev (seq 0 40)) 0.

Definition K : list Z :=
  Eval vm_compute in map (fun p => w32 (cube_root (p * 2 ^ 96))) (primes 64).

Definition H0 : list Z :=
  Eval vm_compute in map (fun p => w32 (Z.sqrt (p * 2 ^ 64))) (primes 8).

(** Padding: one [0x80] byte, zeros up to 56 mod 64, then the bit length as
    a 64-bit big-endian integer. *)
Definition be_bytes (width : nat) (x : Z) : list Z :=
  map (fun i => Z.shiftr x (8 * Z.of_nat (width - 1 - i)) mod 256) (seq 0 width).

Definition pad (msg : list Z) : list Z :=
  let len := Z.of_nat (length msg) in
  let zeros := Z.to_nat ((55 - len) mod 64) in
  msg ++ [0x80] ++ repeat 0 zeros ++ be_bytes 8 (8 * len).

Fixpoint be_words (bs : list Z) : list Z :=
  match bs with
  | b0 :: b1 :: b2 :: b3 :: rest =>
      (Z.shiftl b0 24 + Z.shiftl b1 16 + Z.shiftl b2 8 + b3) :: be_words rest
  | _ => []
  end.

Fixpoint blocks (fuel : nat) (ws : list Z) : list (list Z) :=
  match fuel, ws with
  | S fuel', _ :: _ => firstn 16 ws :: blocks fuel' (skipn 16 ws)
  | _, _ => []
  end.

(** The message schedule of one block: 16 words extended to 64. *)
Definition schedule (block : list Z) : list Z :=
  fold_left
    (fun w i =>
       let at_ k := nth (i - k) w 0 in
       w ++ [add32 (add32 (sigma1 (at_ 2%nat)) (at_ 7%nat))
                   (add32 (sigma0 (at_ 15%nat)) (at_ 16%nat))])
    (seq 16 48) block.

Record regs := Regs { ra : Z; rb : Z; rc : Z; rd : Z; re : Z; rf : Z; rg : Z; rh : Z }.

Definition round (r : regs) (kw : Z * Z) : regs :=
  let '(k, w) := kw in
  let t1 := add32 (add32 (add32 (rh r) (Sigma1 (re r))) (Ch (re r) (rf r) (rg r)))
                  (add32 k w) in
  let t2 := add32 (Sigma0 (ra r)) (Maj (ra r) (rb r) (rc r)) in
  Regs (add32 t1 t2) (ra r) (rb r) (rc r) (add32 (rd r) t1) (re r) (rf r) (rg r).

Definition regs_of (h : list Z) : regs :=
  Regs (nth 0 h 0) (nth 1 h 0) (nth 2 h 0) (nth 3 h 0)
       (nth 4 h 0) (nth 5 h 0) (nth 6 h 0) (nth 7 h 0).

Definition list_of (r : regs) : list Z :=
  [ra r; rb r; rc r; rd r; re r; rf r; rg r; rh r].

Definition compress (h : list Z) (block : list Z) : list Z :=
  let r := fold_left round (combine K (schedule block)) (regs_of h) in
  map (fun p => add32 (fst p) (snd p)) (combine h (list_of r)).

Definition digest (msg : list Z) : list Z :=
  let ws := be_words (pad msg) in
  fold_left compress (blocks (length ws) ws) H0.

Definition hex_digit (d : Z) : ascii :=
  nth (Z.to_nat d)
      (list_ascii_of_string "0123456789abcdef") "0"%char.

Definition hex_word (w : Z) : list ascii :=
  map (fun i => hex_digit (Z.shiftr w (4 * Z.of_nat (7 - i)) mod 16)) (seq 0 8).

(** [createHash('sha256').update(bytes).digest('hex')] *)
Definition sha256_hex (msg : list byte) : string :=
  string_of_list_ascii
    (concat (map hex_word (digest (map (fun b => Z.of_N (Byte.to_N b)) msg)))).

End Sha256.

Example sha256_abc :
  Sha256.sha256_hex (list_byte_of_string "abc")
  = "ba7816bf8f01cfea414140de5dae2223b00361a396177a9cb410ff61f20015ad"%string.
Proof. vm_compute. reflexivity. Qed.

Example sha256_empty :
  Sha256.sha256_hex []
  = "e3b0c44298fc1c149afbf4c8996fb92427ae41e4649b934ca495991b7852b855"%string.
Proof. vm_compute. reflexivity. Qed.

Example sha256_two_blocks :
  Sha256.sha256_hex
    (list_byte_of_string "abcdbcdecdefdefgefghfghighijhijkijkljklmklmnlmnomnopnopq")
  = "248d6a61d20638b8e5c026930c3e6039a33ce45964ff2167f6ecedd419db06c1"%string.
Proof. vm_compute. reflexivity. Qed.

(** ** UTF-8 as [Buffer] implements it

    A JavaScript string is a sequence of UTF-16 code units.
    [Buffer.from(text, 'utf-8')] and [hash.update(text)] encode it, a lone
    surrogate becoming U+FFFD; [buf.toString('utf-8')] decodes, every
    ill-formed byte sequence becoming U+FFFD (the WHATWG decoder, without
    byte-order-mark removal). *)

Module Utf8.
#[local] Open Scope Z_scope.

Definition jsstring := list Z.

Definition Z_of_byte (b : byte) : Z := Z.of_N (Byte.to_N b).
Definition byte_of_Z (z : Z) : byte := default x00 (Byte.of_N (Z.to_N z)).

Definition js_of_string (s : string) : jsstring :=
  map (fun c => Z.of_N (N_of_ascii c)) (list_ascii_of_string s).

Definition is_high (c : Z) : bool := (0xD800 <=? c) && (c <=? 0xDBFF).
Definition is_low (c : Z) : bool := (0xDC00 <=? c) && (c <=? 0xDFFF).

Definition cont (x : Z) : byte := byte_of_Z (Z.lor 0x80 (Z.land x 0x3F)).

Definition encode_cp (cp : Z) : list byte :=
  if cp <? 0x80 then [byte_of_Z cp]
  else if cp <? 0x800 then
    [byte_of_Z (Z.lor 0xC0 (Z.shiftr cp 6)); cont cp]
  else if cp <? 0x10000 then
    [byte_of_Z (Z.lor 0xE0 (Z.shiftr cp 12)); cont (Z.shiftr cp 6); cont cp]
  else
    [byte_of_Z (Z.lor 0xF0 (Z.shiftr cp 18)); cont (Z.shiftr cp 12);
     cont (Z.shiftr cp 6); cont cp].

Fixpoint encode (s : jsstring) : list byte :=
  match s with
  | [] => []
  | c :: rest =>
      if is_high c then
        match rest with
        | d :: rest' =>
            if is_low d
            then encode_cp (0x10000 + Z.shiftl (c - 0xD800) 10 + (d - 0xDC00))
                   ++ encode rest'
            else encode_cp 0xFFFD ++ encode rest
        | [] => encode_cp 0xFFFD
        end
      else if is_low c then encode_cp 0xFFFD ++ encode rest
      else encode_cp c ++ encode rest
  end.

Record dstate := DState
  { code_point : Z; bytes_needed : Z; bytes_seen : Z; lower : Z; upper : Z }.

Definition dinit : dstate := DState 0 0 0 0x80 0xBF.

Definition units_of_cp (cp : Z) : list Z :=
  if cp <? 0x10000 then [cp]
  else [0xD800 + Z.shiftr (cp - 0x10000) 10; 0xDC00 + Z.land (cp - 0x10000) 0x3FF].

(** A byte read while no sequence is open. *)
Definition lead (b : Z) : dstate * list Z :=
  if b <=? 0x7F then (dinit, [b])
  else if (0xC2 <=? b) && (b <=? 0xDF) then
    (DState (Z.land b 0x1F) 1 0 0x80 0xBF, [])
  else if (0xE0 <=? b) && (b <=? 0xEF) then
    (DState (Z.land b 0xF) 2 0
            (if b =? 0xE0 then 0xA0 else 0x80)
            (if b =? 0xED then 0x9F else 0xBF), [])
  else if (0xF0 <=? b) && (b <=? 0xF4) then
    (DState (Z.land b 0x7) 3 0
            (if b =? 0xF0 then 0x90 else 0x80)
            (if b =? 0xF4 then 0x8F else 0xBF), [])
  else (dinit, [0xFFFD]).

Definition step (st : dstate) (b : Z) : dstate * list Z :=
  if bytes_needed st =? 0 then lead b
  else if (b <? lower st) || (upper st <? b) then
    let '(st', out) := lead b in (st', 0xFFFD :: out)
  else
    let cp := Z.lor (Z.shiftl (code_point st) 6) (Z.land b 0x3F) in
    if bytes_seen st + 1 =? bytes_needed st then (dinit, units_of_cp cp)
    else (DState cp (bytes_needed st) (bytes_seen st + 1) 0x80 0xBF, []).

Fixpoint decode_from (st : dstate) (bs : list byte) : jsstring :=
  match bs with
  | [] => if bytes_needed st =? 0 then [] else [0xFFFD]
  | b :: rest =>
      let '(st', out) := step st (Z_of_byte b) in
      out ++ decode_from st' rest
  end.

Definition decode (bs : list byte) : jsstring := decode_from dinit bs.

Definition ascii_bytes (bs : list byte) : Prop :=
  Forall (fun b => Z_of_byte b < 0x80) bs.

End Utf8.

Example utf8_decode_mixed :
  Utf8.decode [x61; xc3; xa9; xe2; x82; xac; xf0; x9f; x98; x80]
  = [0x61; 0xE9; 0x20AC; 0xD83D; 0xDE00]%Z.
Proof. reflexivity. Qed.

Example utf8_encode_mixed :
  Utf8.encode [0x61; 0xE9; 0x20AC; 0xD83D; 0xDE00]%Z
  = [x61; xc3; xa9; xe2; x82; xac; xf0; x9f; x98; x80].
Proof. reflexivity. Qed.

Example utf8_decode_ill_formed :
  Utf8.decode [xff; x61; xe2; x82; x62; xc3] = [0xFFFD; 0x61; 0xFFFD; 0x62; 0xFFFD]%Z.
Proof. reflexivity. Qed.

Example utf8_encode_lone_surrogate :
  Utf8.encode [0xD83D; 0x61]%Z = [xef; xbf; xbd; x61].
Proof. reflexivity. Qed.

(** ** Typed arrays over a store of array buffers

    A [Uint8Array] is a view (offset and length) on an [ArrayBuffer]; two
    views on the same buffer alias.  The store maps buffer identities to
    their bytes. *)

Record Uint8Array := MkUint8Array
  { buffer : nat; byteOffset : nat; byteLength : nat }.

Abbreviation store := (gmap nat (list byte)).

Definition view (h : store) (a : Uint8Array) : list byte :=
  take (byteLength a) (drop (byteOffset a) (default [] (h !! buffer a))).

(** [a[i] = b]: an in-range index writes through to the buffer, an
    out-of-range one is ignored. *)
Definition array_set (h : store) (a : Uint8Array) (i : nat) (b : byte) : store :=
  if decide (i < byteLength a)
  then match h !! buffer a with
       | Some bytes => <[buffer a := <[byteOffset a + i := b]> bytes]> h
       | None => h
       end
  else h.

(** ** Output files *)

(** Modelled from the spec: the enum [BuildOutputFileType] is declared in
    [bundler-context.ts], which is not part of the sources at hand.  The four
    named kinds are those the code and the specification mention; [OtherType]
    stands for any other run-time value, which the [default] branch of
    [writeResultFiles] handles. *)
Inductive BuildOutputFileType :=
  | Browser
  | Media
  | Server
  | Root
  | OtherType (tag : Z).

(** [BuildOutputFileType[type]], the reverse mapping of a numeric enum. *)
Definition type_name (t : BuildOutputFileType) : string :=
  match t with
  | Browser => "Browser"
  | Media => "Media"
  | Server => "Server"
  | Root => "Root"
  | OtherType _ => "undefined"
  end.

(** esbuild's [OutputFile], as far as this file reads it. *)
Record OutputFile := MkOutputFile
  { of_path : string; of_contents : Uint8Array; of_hash : string }.

(** What the [contents] getter hands out: a buffer allocated by the call, or
    an array that already existed. *)
Inductive Contents :=
  | Fresh (bytes : list byte)
  | Existing (a : Uint8Array).

Definition contents_bytes (h : store) (c : Contents) : list byte :=
  match c with
  | Fresh bytes => bytes
  | Existing a => view h a
  end.

Module BuildOutputFile.

(** A [BuildOutputFile] is one of three object literals; each constructor
    holds what the literal's properties and closures capture. *)
Inductive t :=
  | OfText (path : string) (text : Utf8.jsstring) (type : BuildOutputFileType)
  | OfData (path : string) (data : Uint8Array) (type : BuildOutputFileType)
  | OfBundler (contents : Uint8Array) (hash : string) (path : string)
              (type : BuildOutputFileType).

Definition path (f : t) : string :=
  match f with
  | OfText p _ _ | OfData p _ _ | OfBundler _ _ p _ => p
  end.

Definition type (f : t) : BuildOutputFileType :=
  match f with
  | OfText _ _ ty | OfData _ _ ty | OfBundler _ _ _ ty => ty
  end.

Definition text (h : store) (f : t) : Utf8.jsstring :=
  match f with
  | OfText _ txt _ => txt
  | OfData _ data _ => Utf8.decode (view h data)
  | OfBundler c _ _ _ => Utf8.decode (view h c)
  end.

Definition hash (h : store) (f : t) : string :=
  match f with
  | OfText _ _ _ | OfData _ _ _ => Sha256.sha256_hex (Utf8.encode (text h f))
  | OfBundler _ hs _ _ => hs
  end.

Definition contents (f : t) : Contents :=
  match f with
  | OfText _ txt _ => Fresh (Utf8.encode txt)
  | OfData _ data _ => Existing data
  | OfBundler c _ _ _ => Existing c
  end.

End BuildOutputFile.

Abbreviation BuildOutputFile := BuildOutputFile.t.

Definition createOutputFileFromText
    (path : string) (text : Utf8.jsstring) (type : BuildOutputFileType)
  : BuildOutputFile :=
  BuildOutputFile.OfText path text type.

Definition createOutputFileFromData
    (path : string) (data : Uint8Array) (type : BuildOutputFileType)
  : BuildOutputFile :=
  BuildOutputFile.OfData path data type.

Definition convertOutputFile (file : OutputFile) (type : BuildOutputFileType)
  : BuildOutputFile :=
  BuildOutputFile.OfBundler (of_contents file) (of_hash file) (of_path file) type.

(** [file.clone()].  In the second literal [this.contents] is the captured
    [data]; the third passes [this] where an [OutputFile] is expected, and
    only [path], [contents] and [hash] are read from it. *)
Definition clone (f : BuildOutputFile) : BuildOutputFile :=
  match f with
  | BuildOutputFile.OfText p txt ty => createOutputFileFromText p txt ty
  | BuildOutputFile.OfData p data ty => createOutputFileFromData p data ty
  | BuildOutputFile.OfBundler c hs p ty => convertOutputFile (MkOutputFile p c hs) ty
  end.

(** The three ways an artifact comes into being. *)
Inductive constructed : BuildOutputFile -> Prop :=
  | constructed_text p txt ty : constructed (createOutputFileFromText p txt ty)
  | constructed_data p data ty : constructed (createOutputFileFromData p data ty)
  | constructed_convert file ty : constructed (convertOutputFile file ty).

(** The artifact's hash is the SHA-256 of the UTF-8 form of its text. *)
Definition hash_is_sha256 (h : store) (f : BuildOutputFile) : Prop :=
  BuildOutputFile.hash h f
  = Sha256.sha256_hex (Utf8.encode (BuildOutputFile.text h f)).

(** Writing through array [a] leaves the bytes of [c] as they were. *)
Definition unaffected_by_write (h : store) (a : Uint8Array) (c : Contents) : Prop :=
  forall i b, contents_bytes (array_set h a i b) c = contents_bytes h c.

Section OutputFileFacts.

Import BuildOutputFile.

Lemma every_file_constructed (f : BuildOutputFile) : constructed f.
Proof.
  destruct f as [p txt ty|p data ty|c hs p ty].
  - apply constructed_text.
  - apply constructed_data.
  - apply (constructed_convert (MkOutputFile p c hs) ty).
Qed.

Lemma byte_of_Z_of_byte (b : byte) : Utf8.byte_of_Z (Utf8.Z_of_byte b) = b.
Proof.
  unfold Utf8.byte_of_Z, Utf8.Z_of_byte.
  rewrite N2Z.id, Byte.of_to_N. reflexivity.
Qed.

Lemma Z_of_byte_nonneg (b : byte) : (0 <= Utf8.Z_of_byte b)%Z.
Proof. unfold Utf8.Z_of_byte. lia. Qed.

Lemma decode_ascii_cons (b : byte) (bs : list byte) :
  (Utf8.Z_of_byte b < 0x80)%Z ->
  Utf8.decode (b :: bs) = Utf8.Z_of_byte b :: Utf8.decode bs.
Proof.
  intros Hb. unfold Utf8.decode. cbn [Utf8.decode_from].
  unfold Utf8.step. cbn [Utf8.bytes_needed Utf8.dinit Z.eqb].
  unfold Utf8.lead.
  destruct (Z.leb_spec (Utf8.Z_of_byte b) 0x7F) as [_|Hgt]; [reflexivity | lia].
Qed.

Lemma encode_ascii_cons (c : Z) (s : Utf8.jsstring) :
  (0 <= c < 0x80)%Z ->
  Utf8.encode (c :: s) = Utf8.byte_of_Z c :: Utf8.encode s.
Proof.
  intros Hc. cbn [Utf8.encode].
  assert (Utf8.is_high c = false) as -> by (unfold Utf8.is_high; lia).
  assert (Utf8.is_low c = false) as -> by (unfold Utf8.is_low; lia).
  unfold Utf8.encode_cp.
  destruct (Z.ltb_spec c 0x80) as [_|Hge]; [reflexivity | lia].
Qed.

(** Decoding pure-ASCII bytes and encoding the text again gives the bytes back. *)
Lemma encode_decode_ascii (bs : list byte) :
  Utf8.ascii_bytes bs -> Utf8.encode (Utf8.decode bs) = bs.
Proof.
  induction 1 as [|b bs Hb _ IH]; [reflexivity|].
  rewrite decode_ascii_cons by exact Hb.
  rewrite encode_ascii_cons by (pose proof (Z_of_byte_nonneg b); lia).
  rewrite byte_of_Z_of_byte, IH. reflexivity.
Qed.

End OutputFileFacts.

(** *** Hashes *)

Definition bundler_store : store := {[ 0 := [x61] ]}.
Definition bundler_file : OutputFile :=
  MkOutputFile "main.js" (MkUint8Array 0 0 1) "Zm9v".

(** C2, as stated, fails: an artifact made by [convertOutputFile] carries the
    hash string the bundler supplied.  For the one-byte file "a" with bundler
    hash "Zm9v" the artifact's [hash] is "Zm9v", not the SHA-256 of "a". *)
Lemma convert_hash_is_not_sha256 :
  let f := convertOutputFile bundler_file Browser in
  constructed f
  /\ contents_bytes bundler_store (BuildOutputFile.contents f) = [x61]
  /\ BuildOutputFile.hash bundler_store f = "Zm9v"%string
  /\ Sha256.sha256_hex (Utf8.encode (BuildOutputFile.text bundler_store f))
     = "ca978112ca1bbdcafac231b39a23dc4da786eff8147c4e72b9807785afee48bb"%string
  /\ ~ hash_is_sha256 bundler_store f.
Proof.
  cbv zeta. split; [apply constructed_convert|].
  split; [reflexivity|]. split; [reflexivity|].
  assert (Sha256.sha256_hex
            (Utf8.encode
               (BuildOutputFile.text bundler_store
                  (convertOutputFile bundler_file Browser)))
          = "ca978112ca1bbdcafac231b39a23dc4da786eff8147c4e72b9807785afee48bb"%string)
    as Hsha by (vm_compute; reflexivity).
  split; [exact Hsha|].
  unfold hash_is_sha256. rewrite Hsha. cbn. discriminate.
Qed.

(** C2, amended: for artifacts made by [createOutputFileFromText] and
    [createOutputFileFromData], [hash] is the hex SHA-256 digest of the UTF-8
    form of the text; for the former that is the digest of [contents], for
    the latter it is the digest of [contents] when those are pure ASCII.  An
    artifact made by [convertOutputFile] has the hash of the bundler's file,
    unchanged. *)
Theorem hash_of_artifact (h : store) :
  (forall p txt ty,
      let f := createOutputFileFromText p txt ty in
      hash_is_sha256 h f
      /\ BuildOutputFile.hash h f
         = Sha256.sha256_hex (contents_bytes h (BuildOutputFile.contents f)))
  /\ (forall p data ty,
      let f := createOutputFileFromData p data ty in
      hash_is_sha256 h f
      /\ (Utf8.ascii_bytes (contents_bytes h (BuildOutputFile.contents f)) ->
          BuildOutputFile.hash h f
          = Sha256.sha256_hex (contents_bytes h (BuildOutputFile.contents f))))
  /\ (forall file ty,
      BuildOutputFile.hash h (convertOutputFile file ty) = of_hash file).
Proof.
  split; [|split].
  - intros p txt ty f. split; reflexivity.
  - intros p data ty f. split; [reflexivity|].
    cbn. intros Hascii. rewrite encode_decode_ascii by exact Hascii. reflexivity.
  - reflexivity.
Qed.

Lemma hash_of_artifact_witness :
  let f := createOutputFileFromData "main.js" (MkUint8Array 0 0 1) Browser in
  Utf8.ascii_bytes (contents_bytes bundler_store (BuildOutputFile.contents f))
  /\ BuildOutputFile.hash bundler_store f
     = Sha256.sha256_hex (contents_bytes bundler_store (BuildOutputFile.contents f)).
Proof.
  cbv zeta.
  assert (Utf8.ascii_bytes
            (contents_bytes bundler_store
               (BuildOutputFile.contents
                  (createOutputFileFromData "main.js" (MkUint8Array 0 0 1) Browser))))
    as Hascii.
  { repeat constructor. }
  split; [exact Hascii|].
  exact (proj2 (proj1 (proj2 (hash_of_artifact bundler_store))
                  "main.js"%string (MkUint8Array 0 0 1) Browser) Hascii).
Defined.

(** *** Clones *)

(** C3, as stated, fails: the clone of an artifact made from a byte array
    keeps the same array.  After [data[0] = 0x62] on the original's array
    the clone's contents read "b" where they read "a" before. *)
Lemma clone_shares_the_data_buffer :
  let data := MkUint8Array 0 0 1 in
  let original := createOutputFileFromData "main.js" data Browser in
  let copy := clone original in
  BuildOutputFile.contents original = Existing data
  /\ contents_bytes bundler_store (BuildOutputFile.contents copy) = [x61]
  /\ contents_bytes (array_set bundler_store data 0 x62)
                    (BuildOutputFile.contents copy) = [x62]
  /\ ~ unaffected_by_write bundler_store data (BuildOutputFile.contents copy).
Proof.
  cbv zeta. split; [reflexivity|].
  assert (contents_bytes (array_set bundler_store (MkUint8Array 0 0 1) 0 x62)
            (BuildOutputFile.contents
               (clone (createOutputFileFromData "main.js" (MkUint8Array 0 0 1) Browser)))
          = [x62]) as Hafter by (vm_compute; reflexivity).
  split; [reflexivity|]. split; [exact Hafter|].
  intros Hind. specialize (Hind 0 x62). rewrite Hafter in Hind.
  vm_compute in Hind. discriminate.
Qed.

(** C3, amended: for every artifact, [clone()] gives a value with the same
    path, type, hash and contents in every store.  The clone of a text
    artifact is independent of every array, since its contents are a buffer
    allocated anew from the immutable text; the clone of an artifact made
    from a byte array or from a bundler file holds the very array of the
    original, so the two always read the same bytes. *)
Theorem clone_spec (f : BuildOutputFile) :
  BuildOutputFile.path (clone f) = BuildOutputFile.path f
  /\ BuildOutputFile.type (clone f) = BuildOutputFile.type f
  /\ (forall h, BuildOutputFile.hash h (clone f) = BuildOutputFile.hash h f)
  /\ BuildOutputFile.contents (clone f) = BuildOutputFile.contents f
  /\ match f with
     | BuildOutputFile.OfText _ _ _ =>
         forall h a, unaffected_by_write h a (BuildOutputFile.contents (clone f))
     | BuildOutputFile.OfData _ data _ =>
         BuildOutputFile.contents (clone f) = Existing data
     | BuildOutputFile.OfBundler c _ _ _ =>
         BuildOutputFile.contents (clone f) = Existing c
     end.
Proof.
  destruct f as [p txt ty|p data ty|c hs p ty]; cbn;
    repeat split; reflexivity.
Qed.

(** ** [calculateEstimatedTransferSizes]

    The function fills the map [sizes] from a [Promise] executor: files that
    are skipped or small are dealt with in the loop, for every other file
    [brotliCompress] is called with a callback that Node invokes later, once,
    with an error or with the compressed buffer.  An event is one such
    invocation.  The promise modelled is the one made by [new Promise]; the
    function is [async], so what the caller holds is a second promise, which
    is pending when the call returns and settles as the first has. *)

(** [s.endsWith(suffix)] *)
Definition endsWith (s suffix : string) : bool :=
  let n := String.length s in
  let m := String.length suffix in
  (m <=? n) && String.eqb (substring (n - m) m s) suffix.

Module Estimator.

Definition Error := string.

Inductive settlement :=
  | Pending
  | Fulfilled                (* resolved with the [sizes] object itself *)
  | Rejected (error : Error).

Record state := MkState
  { sizes : gmap string nat;
    completeCount : nat;
    promise : settlement;
    (* files whose [brotliCompress] callback is still to be invoked *)
    compressing : gset nat }.

(** A promise settles once: later calls of [resolve] and [reject] do nothing. *)
Definition resolve (s : state) : state :=
  match promise s with
  | Pending => MkState (sizes s) (completeCount s) Fulfilled (compressing s)
  | _ => s
  end.

Definition reject (error : Error) (s : state) : state :=
  match promise s with
  | Pending => MkState (sizes s) (completeCount s) (Rejected error) (compressing s)
  | _ => s
  end.

(** The test that makes the loop [continue] past a file. *)
Definition not_script_or_style (path : string) : bool :=
  negb (endsWith path ".js") && negb (endsWith path ".css").

Definition qualifies (f : OutputFile) : bool := negb (not_script_or_style (of_path f)).

(** One iteration of [for (const outputFile of outputFiles)]. *)
Definition visit (s : state) (i : nat) (outputFile : OutputFile) : state :=
  if not_script_or_style (of_path outputFile) then
    MkState (sizes s) (S (completeCount s)) (promise s) (compressing s)
  else if byteLength (of_contents outputFile) <? 1024 then
    MkState (<[of_path outputFile := byteLength (of_contents outputFile)]> (sizes s))
            (S (completeCount s)) (promise s) (compressing s)
  else
    MkState (sizes s) (completeCount s) (promise s) ({[i]} ∪ compressing s).

Fixpoint loop (s : state) (i : nat) (outputFiles : list OutputFile) : state :=
  match outputFiles with
  | [] => s
  | outputFile :: rest => loop (visit s i outputFile) (S i) rest
  end.

(** The call itself, up to the point where it returns its promise. *)
Definition start (outputFiles : list OutputFile) : state :=
  let s0 := MkState ∅ 0 Pending ∅ in
  if length outputFiles <=? 0 then resolve s0
  else
    let s1 := loop s0 0 outputFiles in
    if length outputFiles <=? completeCount s1 then resolve s1 else s1.

(** The callback given to [brotliCompress] for the file at index [i], invoked
    with [(error, result)]; [inr n] is a result of [n] bytes. *)
Definition callback (outputFiles : list OutputFile) (i : nat)
    (outcome : Error + nat) (s : state) : state :=
  match outcome, outputFiles !! i with
  | inl error, _ => reject error s
  | inr n, Some outputFile =>
      let s' := MkState (<[of_path outputFile := n]> (sizes s))
                        (S (completeCount s)) (promise s) (compressing s) in
      if length outputFiles <=? completeCount s' then resolve s' else s'
  | inr _, None => s
  end.

Inductive event := Done (i : nat) (outcome : Error + nat).

Definition step (outputFiles : list OutputFile) (s : state) (ev : event)
  : option state :=
  match ev with
  | Done i outcome =>
      if decide (i ∈ compressing s) then
        Some (callback outputFiles i outcome
                (MkState (sizes s) (completeCount s) (promise s)
                         (compressing s ∖ {[i]})))
      else None
  end.

Fixpoint run (outputFiles : list OutputFile) (s : state) (evs : list event)
  : option state :=
  match evs with
  | [] => Some s
  | ev :: evs' =>
      match step outputFiles s ev with
      | Some s' => run outputFiles s' evs'
      | None => None
      end
  end.

(** What the caller that awaits the promise observes. *)
Definition returned (s : state) : option (gmap string nat) :=
  match promise s with
  | Fulfilled => Some (sizes s)
  | _ => None
  end.

(** The error of the first callback invoked with an error. *)
Fixpoint first_error (evs : list event) : option Error :=
  match evs with
  | [] => None
  | Done _ (inl error) :: _ => Some error
  | Done _ (inr _) :: evs' => first_error evs'
  end.

(** Every compression succeeds, in index order, with the size [size_of i]. *)
Definition all_succeed (size_of : nat -> nat) (s : state) : list event :=
  map (fun i => Done i (inr (size_of i))) (elements (compressing s)).

Definition qualifying_paths (outputFiles : list OutputFile) : gset string :=
  list_to_set (map of_path (filter (fun f => qualifies f = true) outputFiles)).

End Estimator.

Section EstimatorFacts.

Import Estimator.

Variable outputFiles : list OutputFile.

Definition not_rejected (s : state) : Prop := forall e, promise s <> Rejected e.

(** What holds once the first [k] files have been visited. *)
Record visited (k : nat) (s : state) : Prop := MkVisited
  { v_count : not_rejected s -> completeCount s + size (compressing s) = k;
    v_entry : forall p n, sizes s !! p = Some n ->
      exists i f, outputFiles !! i = Some f /\ of_path f = p /\ qualifies f = true
                  /\ (byteLength (of_contents f) < 1024 -> n = byteLength (of_contents f));
    v_key : forall i f, i < k -> outputFiles !! i = Some f -> qualifies f = true ->
      is_Some (sizes s !! of_path f) \/ i ∈ compressing s \/ ~ not_rejected s;
    v_large : forall i, i ∈ compressing s ->
      i < k /\ exists f, outputFiles !! i = Some f /\ qualifies f = true
                         /\ 1024 <= byteLength (of_contents f) }.

Record estimate_inv (s : state) : Prop := MkInv
  { inv_visited : visited (length outputFiles) s;
    inv_pending : promise s = Pending -> completeCount s < length outputFiles;
    inv_fulfilled : promise s = Fulfilled -> compressing s = ∅ }.

Lemma visit_visited k s f :
  promise s = Pending -> visited k s -> outputFiles !! k = Some f ->
  visited (S k) (visit s k f) /\ promise (visit s k f) = Pending.
Proof.
  intros Hp [Hc He Hk Hl] Hf. unfold visit.
  assert (k ∉ compressing s) as Hfresh by (intros Hin; apply Hl in Hin; lia).
  assert (not_rejected s) as Hnr by (intros e; rewrite Hp; discriminate).
  destruct (not_script_or_style (of_path f)) eqn:Hskip; [|
    destruct (Nat.ltb_spec (byteLength (of_contents f)) 1024) as [Hsmall|Hbig]];
    (split; [split; cbn|exact Hp]).
  - intros _. specialize (Hc Hnr). lia.
  - exact He.
  - intros i g Hi Hg Hq. destruct (decide (i = k)) as [->|Hne].
    + rewrite Hf in Hg. injection Hg as <-. unfold qualifies in Hq.
      rewrite Hskip in Hq. discriminate.
    + apply (Hk i g); [lia|done..].
  - intros i Hin. pose proof (Hl i Hin) as [Hlt Hex]. split; [lia|exact Hex].
  - intros _. specialize (Hc Hnr). lia.
  - intros p n Hlook. apply lookup_insert_Some in Hlook as [[<- <-]|[_ Hlook]].
    + exists k, f. unfold qualifies. rewrite Hskip. done.
    + exact (He p n Hlook).
  - intros i g Hi Hg Hq. destruct (decide (i = k)) as [->|Hne].
    + rewrite Hf in Hg. injection Hg as <-. left.
      rewrite lookup_insert_eq. eauto.
    + destruct (Hk i g) as [Hs|Hr]; [lia|done..| |by right].
      left. apply lookup_insert_is_Some'. by right.
  - intros i Hin. pose proof (Hl i Hin) as [Hlt Hex]. split; [lia|exact Hex].
  - intros _. specialize (Hc Hnr).
    rewrite size_union by set_solver. rewrite size_singleton. lia.
  - exact He.
  - intros i g Hi Hg Hq. destruct (decide (i = k)) as [->|Hne].
    + right; left. set_solver.
    + destruct (Hk i g) as [Hs|[Hr|Hr]]; [lia|done..|by left| |by right; right].
      right; left. set_solver.
  - intros i Hin. apply elem_of_union in Hin as [Hin|Hin].
    + apply elem_of_singleton in Hin as ->. split; [lia|].
      exists f. unfold qualifies. rewrite Hskip. done.
    + pose proof (Hl i Hin) as [Hlt Hex]. split; [lia|exact Hex].
Qed.

Lemma loop_visited rest : forall k s,
  promise s = Pending -> visited k s -> drop k outputFiles = rest ->
  visited (k + length rest) (loop s k rest) /\ promise (loop s k rest) = Pending.
Proof.
  induction rest as [|f rest IH]; intros k s Hp Hv Hdrop; cbn [loop length].
  - rewrite Nat.add_0_r. done.
  - assert (outputFiles !! k = Some f) as Hf.
    { rewrite <- (Nat.add_0_r k), <- lookup_drop, Hdrop. reflexivity. }
    destruct (visit_visited k s f Hp Hv Hf) as [Hv' Hp'].
    replace (k + S (length rest)) with (S k + length rest) by lia.
    apply IH; [exact Hp'|exact Hv'|].
    rewrite (drop_S _ _ _ Hf) in Hdrop. congruence.
Qed.

Lemma visited_resolve k s : visited k s -> visited k (resolve s).
Proof.
  intros [Hc He Hk Hl]. unfold resolve.
  destruct (promise s) eqn:Hp; try (by split).
  split; cbn; try done.
  - intros _. apply Hc. intros e. rewrite Hp. discriminate.
  - intros i f Hi Hf Hq. destruct (Hk i f Hi Hf Hq) as [?|[?|Hr]]; [by left|by right; left|].
    exfalso. apply Hr. intros e. rewrite Hp. discriminate.
Qed.

Lemma inv_resolve s :
  visited (length outputFiles) s -> length outputFiles <= completeCount s ->
  promise s <> Fulfilled -> estimate_inv (resolve s).
Proof.
  intros Hv Hge Hnf. split.
  - by apply visited_resolve.
  - unfold resolve. destruct (promise s) eqn:Hp; cbn; rewrite ?Hp; congruence.
  - unfold resolve. destruct (promise s) eqn:Hp; cbn; rewrite ?Hp; try congruence.
    intros _. apply leibniz_equiv, size_empty_inv.
    pose proof (v_count _ _ Hv) as Hc.
    rewrite <- Hc in Hge; [|intros e; rewrite Hp; discriminate].
    lia.
Qed.
Lemma estimate_start_inv : estimate_inv (start outputFiles).
Proof.
  assert (visited 0 (MkState ∅ 0 Pending ∅)) as Hv0.
  { split; cbn.
    - intros _. rewrite size_empty. reflexivity.
    - intros p n Hl. rewrite lookup_empty in Hl. discriminate.
    - intros i f Hi. lia.
    - intros i Hi. set_solver. }
  unfold start. destruct (Nat.leb_spec (length outputFiles) 0) as [Hlen|Hlen].
  - apply inv_resolve; cbn; [|lia|discriminate].
    replace (length outputFiles) with 0 by lia. exact Hv0.
  - destruct (loop_visited outputFiles 0 (MkState ∅ 0 Pending ∅) eq_refl Hv0 eq_refl)
      as [Hv Hp].
    cbn [Nat.add] in Hv.
    destruct (Nat.leb_spec (length outputFiles)
                (completeCount (loop (MkState ∅ 0 Pending ∅) 0 outputFiles)))
      as [Hdone|Hmore].
    + apply inv_resolve; [exact Hv|exact Hdone|congruence].
    + split; [exact Hv|intros _; exact Hmore|congruence].
Qed.

Lemma estimate_step_inv s ev s' : estimate_inv s -> step outputFiles s ev = Some s' -> estimate_inv s'.
Proof.
  intros [[Hc He Hk Hl] Hpend Hful] Hstep. destruct ev as [i outcome].
  cbn in Hstep. destruct (decide (i ∈ compressing s)) as [Hi|]; [|discriminate].
  injection Hstep as <-.
  assert (promise s <> Fulfilled) as Hnf.
  { intros Hf. rewrite (Hful Hf) in Hi. set_solver. }
  pose proof (Hl i Hi) as [Hlt (f & Hf & Hq & Hbig)].
  destruct outcome as [error|n]; cbn [callback].
  - (* the callback is passed an error *)
    assert (~ not_rejected
              (reject error (MkState (sizes s) (completeCount s) (promise s)
                                     (compressing s ∖ {[i]})))) as Hrej.
    { unfold reject, not_rejected. cbn.
      destruct (promise s) eqn:Hp; cbn; [|done|].
      - intros H. by apply (H error).
      - rewrite ?Hp. intros H. by apply (H error0). }
    split; [split|..].
    + intros Hnr. done.
    + unfold reject; cbn. destruct (promise s); exact He.
    + intros j g Hj Hg Hqg. right; right. exact Hrej.
    + intros j Hj. apply Hl.
      unfold reject in Hj; cbn in Hj. destruct (promise s); cbn in Hj; set_solver.
    + unfold reject; cbn. destruct (promise s) eqn:Hp; cbn; rewrite ?Hp; congruence.
    + unfold reject; cbn. destruct (promise s) eqn:Hp; cbn; rewrite ?Hp; congruence.
  - (* the callback is passed a result of [n] bytes *)
    rewrite Hf.
    set (s1 := MkState (<[of_path f := n]> (sizes s)) (S (completeCount s))
                       (promise s) (compressing s ∖ {[i]})).
    cbn [completeCount].
    assert (visited (length outputFiles) s1) as Hv1.
    { split; cbn.
      - intros Hnr. specialize (Hc Hnr).
        assert (size (compressing s ∖ {[i]}) = size (compressing s) - 1) as ->.
        { rewrite size_difference by set_solver. by rewrite size_singleton. }
        assert (size (compressing s) <> 0); [|lia].
        intros Hz. apply size_empty_inv in Hz. set_solver.
      - intros p m Hlook. apply lookup_insert_Some in Hlook as [[<- <-]|[_ Hlook]].
        + exists i, f. repeat split; [done..|lia].
        + exact (He p m Hlook).
      - intros j g Hj Hg Hqg. destruct (decide (j = i)) as [->|Hne].
        + rewrite Hf in Hg. injection Hg as <-. left. rewrite lookup_insert_eq. eauto.
        + destruct (Hk j g Hj Hg Hqg) as [Hs|[Hin|Hr]].
          * left. apply lookup_insert_is_Some'. by right.
          * right; left. set_solver.
          * right; right. exact Hr.
      - intros j Hj. apply Hl. set_solver. }
    destruct (Nat.leb_spec (length outputFiles) (S (completeCount s))) as [Hdone|Hmore].
    + apply inv_resolve; [exact Hv1|exact Hdone|exact Hnf].
    + split; [exact Hv1|intros _; exact Hmore|].
      cbn. intros Hp. contradiction.
Qed.

Lemma estimate_run_inv evs : forall s s',
  estimate_inv s -> run outputFiles s evs = Some s' -> estimate_inv s'.
Proof.
  induction evs as [|ev evs IH]; intros s s' Hinv Hrun; cbn in Hrun.
  - by injection Hrun as <-.
  - destruct (step outputFiles s ev) as [s1|] eqn:Hstep; [|discriminate].
    exact (IH s1 s' (estimate_step_inv s ev s1 Hinv Hstep) Hrun).
Qed.

Lemma estimate_reachable_inv evs s :
  run outputFiles (start outputFiles) evs = Some s -> estimate_inv s.
Proof. apply estimate_run_inv, estimate_start_inv. Qed.

(** A rejection is final. *)
Lemma estimate_step_rejected s ev s' e :
  promise s = Rejected e -> step outputFiles s ev = Some s' -> promise s' = Rejected e.
Proof.
  intros Hp Hstep. destruct ev as [i outcome]. cbn in Hstep.
  destruct (decide (i ∈ compressing s)); [|discriminate]. injection Hstep as <-.
  destruct outcome as [error|n]; cbn [callback].
  - unfold reject; cbn. by rewrite Hp.
  - destruct (outputFiles !! i); [|exact Hp].
    destruct (_ <=? _); [|exact Hp].
    unfold resolve; cbn. by rewrite Hp.
Qed.

Lemma estimate_run_rejected evs : forall s s' e,
  promise s = Rejected e -> run outputFiles s evs = Some s' -> promise s' = Rejected e.
Proof.
  induction evs as [|ev evs IH]; intros s s' e Hp Hrun; cbn in Hrun.
  - by injection Hrun as <-.
  - destruct (step outputFiles s ev) as [s1|] eqn:Hstep; [|discriminate].
    exact (IH s1 s' e (estimate_step_rejected s ev s1 e Hp Hstep) Hrun).
Qed.

Lemma run_first_error evs : forall s s' e,
  estimate_inv s -> not_rejected s -> run outputFiles s evs = Some s' ->
  first_error evs = Some e -> promise s' = Rejected e.
Proof.
  induction evs as [|[i [error|n]] evs IH]; intros s s' e Hinv Hnr Hrun Hfirst;
    cbn in Hfirst; [discriminate|..].
  - injection Hfirst as ->. cbn [run] in Hrun.
    destruct (step outputFiles s (Done i (inl e))) as [s1|] eqn:Hstep; [|discriminate].
    apply (estimate_run_rejected evs s1 s' e); [|exact Hrun].
    cbn in Hstep. destruct (decide (i ∈ compressing s)) as [Hi|]; [|discriminate].
    injection Hstep as <-. cbn. unfold reject; cbn.
    destruct (promise s) eqn:Hp; cbn.
    + reflexivity.
    + rewrite (inv_fulfilled s Hinv Hp) in Hi. set_solver.
    + exfalso. exact (Hnr _ Hp).
  - cbn [run] in Hrun.
    destruct (step outputFiles s (Done i (inr n))) as [s1|] eqn:Hstep; [|discriminate].
    apply (IH s1 s' e); [exact (estimate_step_inv _ _ _ Hinv Hstep)| |exact Hrun|exact Hfirst].
    cbn in Hstep. destruct (decide (i ∈ compressing s)); [|discriminate].
    injection Hstep as <-. cbn [callback].
    destruct (outputFiles !! i); [|exact Hnr].
    destruct (_ <=? _); [|exact Hnr].
    intros e' He'. unfold resolve in He'; cbn in He'.
    destruct (promise s) eqn:Hp; cbn in He'; rewrite ?Hp in He';
      [discriminate|congruence|exact (Hnr _ Hp)].
Qed.

Lemma start_not_rejected : not_rejected (start outputFiles).
Proof.
  pose proof (loop_visited outputFiles 0 (MkState ∅ 0 Pending ∅) eq_refl) as Hloop.
  intros e. unfold start. destruct (_ <=? 0); [discriminate|].
  assert (promise (loop (MkState ∅ 0 Pending ∅) 0 outputFiles) = Pending) as Hp.
  { apply Hloop; [|reflexivity]. split; cbn; try done; try lia; set_solver. }
  destruct (_ <=? _); [|congruence].
  unfold resolve. rewrite Hp. discriminate.
Qed.

Lemma step_success s i n s' :
  step outputFiles s (Done i (inr n)) = Some s' ->
  compressing s' = compressing s ∖ {[i]} /\ (not_rejected s -> not_rejected s').
Proof.
  cbn. destruct (decide (i ∈ compressing s)); [|discriminate].
  intros [= <-]. cbn [callback].
  destruct (outputFiles !! i); [|done].
  destruct (_ <=? _); [|done].
  unfold resolve, not_rejected; cbn.
  destruct (promise s) eqn:Hp; cbn; rewrite ?Hp; done.
Qed.

Lemma run_successes (size_of : nat -> nat) (l : list nat) : forall s,
  estimate_inv s -> not_rejected s -> NoDup l -> (forall i, i ∈ l -> i ∈ compressing s) ->
  exists s', run outputFiles s (map (fun i => Done i (inr (size_of i))) l) = Some s'
             /\ estimate_inv s' /\ not_rejected s'
             /\ compressing s' = compressing s ∖ list_to_set l.
Proof.
  induction l as [|i l IH]; intros s Hinv Hnr Hnd Hin.
  - exists s. cbn. split_and!; [done..|set_solver].
  - apply NoDup_cons in Hnd as [Hi Hnd].
    destruct (step outputFiles s (Done i (inr (size_of i)))) as [s1|] eqn:Hstep.
    + destruct (step_success _ _ _ _ Hstep) as [Hc1 Hnr1].
      destruct (IH s1) as (s' & Hrun & Hinv' & Hnr' & Hc');
        [exact (estimate_step_inv _ _ _ Hinv Hstep)|by apply Hnr1|exact Hnd| |].
      * intros j Hj. rewrite Hc1. specialize (Hin j). set_solver.
      * exists s'. cbn [map run]. rewrite Hstep.
        split_and!; [done..|]. rewrite Hc', Hc1. set_solver.
    + exfalso. cbn in Hstep.
      destruct (decide (i ∈ compressing s)) as [|Hn]; [discriminate|].
      apply Hn, Hin. set_solver.
Qed.

Lemma settled_when_idle s :
  estimate_inv s -> not_rejected s -> compressing s = ∅ -> promise s = Fulfilled.
Proof.
  intros [[Hc _ _ _] Hpend _] Hnr Hidle.
  specialize (Hc Hnr). rewrite Hidle, size_empty in Hc.
  destruct (promise s) eqn:Hp; [|done|].
  - specialize (Hpend eq_refl). lia.
  - exfalso. exact (Hnr _ Hp).
Qed.

Lemma all_succeed_returns (size_of : nat -> nat) :
  exists s, run outputFiles (start outputFiles)
                (all_succeed size_of (start outputFiles)) = Some s
            /\ returned s = Some (sizes s).
Proof.
  destruct (run_successes size_of (elements (compressing (start outputFiles)))
              (start outputFiles))
    as (s & Hrun & Hinv & Hnr & Hc);
    [exact estimate_start_inv|exact start_not_rejected|apply NoDup_elements| |].
  - intros i Hi. by apply elem_of_elements in Hi.
  - exists s. split; [exact Hrun|].
    unfold returned. rewrite (settled_when_idle s Hinv Hnr); [done|].
    rewrite Hc. set_solver.
Qed.

Lemma returned_keys s m :
  estimate_inv s -> returned s = Some m -> dom m = qualifying_paths outputFiles.
Proof.
  intros Hinv Hret. unfold returned in Hret.
  destruct (promise s) eqn:Hp; try discriminate. injection Hret as <-.
  pose proof (inv_fulfilled s Hinv Hp) as Hidle.
  destruct Hinv as [[_ He Hk _] _ _].
  apply set_eq. intros p. unfold qualifying_paths.
  rewrite elem_of_dom, elem_of_list_to_set, list_elem_of_fmap. split.
  - intros [n Hn]. destruct (He p n Hn) as (i & f & Hf & Hpath & Hq & _).
    exists f. split; [done|]. apply list_elem_of_filter. split; [done|].
    by apply list_elem_of_lookup_2 in Hf.
  - intros (f & -> & Hf). apply list_elem_of_filter in Hf as [Hq Hf].
    apply list_elem_of_lookup_1 in Hf as [i Hf].
    assert (i < length outputFiles) as Hi by (by apply lookup_lt_Some in Hf).
    destruct (Hk i f Hi Hf Hq) as [Hs|[Hin|Hr]]; [done|set_solver|].
    exfalso. apply Hr. intros e. rewrite Hp. discriminate.
Qed.

End EstimatorFacts.

Section EstimatorResults.

Import Estimator.

Lemma qualifies_iff (f : OutputFile) :
  qualifies f = true
  <-> endsWith (of_path f) ".js" = true \/ endsWith (of_path f) ".css" = true.
Proof.
  unfold qualifies, not_script_or_style.
  destruct (endsWith (of_path f) ".js"), (endsWith (of_path f) ".css"); cbn; intuition congruence.
Qed.

Lemma first_error_of_failure (evs : list event) (i : nat) (error : Error) :
  Done i (inl error) ∈ evs -> exists e, first_error evs = Some e.
Proof.
  induction evs as [|[j [e'|n]] evs IH]; intros Hin.
  - by apply not_elem_of_nil in Hin.
  - exists e'. reflexivity.
  - apply elem_of_cons in Hin as [Heq|Hin]; [discriminate|]. cbn. by apply IH.
Qed.

(** A small file's entry is its byte length whenever the files that share
    its path have its length. *)
Lemma small_file_entry (outputFiles : list OutputFile) (f : OutputFile)
    (evs : list event) (s : state) (m : gmap string nat) :
  f ∈ outputFiles -> qualifies f = true -> byteLength (of_contents f) < 1024 ->
  (forall g, g ∈ outputFiles -> of_path g = of_path f ->
             byteLength (of_contents g) = byteLength (of_contents f)) ->
  run outputFiles (start outputFiles) evs = Some s -> returned s = Some m ->
  m !! of_path f = Some (byteLength (of_contents f)).
Proof.
  intros Hf Hq Hsmall Hsame Hrun Hret.
  pose proof (estimate_reachable_inv outputFiles evs s Hrun) as Hinv.
  pose proof (returned_keys outputFiles s m Hinv Hret) as Hdom.
  assert (of_path f ∈ dom m) as Hin.
  { rewrite Hdom. unfold qualifying_paths.
    rewrite elem_of_list_to_set, list_elem_of_fmap. exists f. split; [done|].
    apply list_elem_of_filter. done. }
  apply elem_of_dom in Hin as [n Hn]. rewrite Hn. f_equal.
  unfold returned in Hret. destruct (promise s); try discriminate.
  injection Hret as <-.
  destruct (v_entry _ _ _ (inv_visited _ _ Hinv) _ _ Hn) as (j & g & Hg & Hpath & _ & Hlen).
  apply list_elem_of_lookup_2 in Hg.
  specialize (Hsame g Hg Hpath). rewrite <- Hsame. apply Hlen. lia.
Qed.

End EstimatorResults.

Definition sample_outputs : list OutputFile :=
  [ MkOutputFile "main.js" (MkUint8Array 0 0 2000) "h0";
    MkOutputFile "styles.css" (MkUint8Array 1 0 500) "h1";
    MkOutputFile "index.html" (MkUint8Array 2 0 300) "h2" ].

Definition sample_sizes : gmap string nat :=
  {[ "main.js" := 400; "styles.css" := 500 ]}.

Example estimate_sample :
  Estimator.run sample_outputs (Estimator.start sample_outputs)
                [Estimator.Done 0 (inr 400)]
  = Some (Estimator.MkState sample_sizes 3 Estimator.Fulfilled ∅).
Proof. vm_compute. reflexivity. Qed.

Example estimate_sample_failure :
  Estimator.run sample_outputs (Estimator.start sample_outputs)
                [Estimator.Done 0 (inl "Z_BUF_ERROR")]
  = Some (Estimator.MkState {[ "styles.css" := 500 ]} 2
            (Estimator.Rejected "Z_BUF_ERROR") ∅).
Proof. vm_compute. reflexivity. Qed.

Example estimate_empty :
  Estimator.returned (Estimator.start []) = Some ∅.
Proof. reflexivity. Qed.

(** C6: whatever the order in which the compressions complete, the map that
    [calculateEstimatedTransferSizes] returns has as keys exactly the paths
    of the input files that end in [.js] or [.css]; and when every
    compression succeeds a map is returned. *)
Theorem estimate_key_set (outputFiles : list OutputFile) :
  (forall evs s m,
      Estimator.run outputFiles (Estimator.start outputFiles) evs = Some s ->
      Estimator.returned s = Some m ->
      forall p, p ∈ dom m
                <-> exists f, f ∈ outputFiles /\ of_path f = p
                              /\ (endsWith p ".js" = true \/ endsWith p ".css" = true))
  /\ (forall size_of, exists s m,
         Estimator.run outputFiles (Estimator.start outputFiles)
           (Estimator.all_succeed size_of (Estimator.start outputFiles)) = Some s
         /\ Estimator.returned s = Some m).
Proof.
  split.
  - intros evs s m Hrun Hret p.
    rewrite (returned_keys outputFiles s m (estimate_reachable_inv outputFiles evs s Hrun) Hret).
    unfold Estimator.qualifying_paths.
    rewrite elem_of_list_to_set, list_elem_of_fmap. split.
    + intros (f & -> & Hf). apply list_elem_of_filter in Hf as [Hq Hf].
      exists f. split_and!; [done..|]. by apply qualifies_iff.
    + intros (f & Hf & <- & Hq). exists f. split; [done|].
      apply list_elem_of_filter. split; [|done]. by apply qualifies_iff.
  - intros size_of.
    destruct (all_succeed_returns outputFiles size_of) as (s & Hrun & Hret).
    exists s, (Estimator.sizes s). done.
Qed.

Lemma estimate_key_set_witness :
  Estimator.run sample_outputs (Estimator.start sample_outputs)
                [Estimator.Done 0 (inr 400)]
  = Some (Estimator.MkState sample_sizes 3 Estimator.Fulfilled ∅)
  /\ forall p, p ∈ dom sample_sizes
               <-> exists f, f ∈ sample_outputs /\ of_path f = p
                             /\ (endsWith p ".js" = true \/ endsWith p ".css" = true).
Proof.
  split; [vm_compute; reflexivity|].
  apply (proj1 (estimate_key_set sample_outputs)
           [Estimator.Done 0 (inr 400)]
           (Estimator.MkState sample_sizes 3 Estimator.Fulfilled ∅)).
  - vm_compute; reflexivity.
  - reflexivity.
Defined.

(** Two files with the same path: a script of 2000 bytes and one of 500. *)
Definition same_path_outputs : list OutputFile :=
  [ MkOutputFile "a.js" (MkUint8Array 0 0 2000) "h0";
    MkOutputFile "a.js" (MkUint8Array 1 0 500) "h1" ].

(** C7, as stated, fails: [sizes] is keyed by the path, and the callback of
    a compression runs after the loop.  When a script of 2000 bytes and one
    of 500 bytes have the same path and the former is compressed to 11
    bytes, the estimate returned for the path is 11: the small file's own
    500 has been overwritten. *)
Lemma small_file_estimate_overwritten :
  exists f s m,
    same_path_outputs !! 1 = Some f
    /\ endsWith (of_path f) ".js" = true
    /\ byteLength (of_contents f) = 500
    /\ 1 ∉ Estimator.compressing (Estimator.start same_path_outputs)
    /\ Estimator.run same_path_outputs (Estimator.start same_path_outputs)
         [Estimator.Done 0 (inr 11)] = Some s
    /\ Estimator.returned s = Some m
    /\ m !! of_path f = Some 11
    /\ m !! of_path f <> Some (byteLength (of_contents f)).
Proof.
  exists (MkOutputFile "a.js" (MkUint8Array 1 0 500) "h1").
  eexists _, _. split_and!; try reflexivity.
  - intros Hin.
    destruct (v_large _ _ _ (inv_visited _ _ (estimate_start_inv same_path_outputs)) 1 Hin)
      as (_ & g & Hg & _ & Hbig).
    injection Hg as <-. cbn in Hbig. lia.
  - vm_compute. discriminate.
Qed.

(** C7, amended: for a file whose path ends in [.js] or [.css] and whose
    content is shorter than 1024 bytes, [brotliCompress] is not called; and
    when every file of the input that has the same path has the same byte
    length, as when the paths are distinct, the estimate returned for its
    path is the exact byte length of its content. *)
Theorem small_file_estimate (outputFiles : list OutputFile) (i : nat) (f : OutputFile) :
  outputFiles !! i = Some f ->
  endsWith (of_path f) ".js" = true \/ endsWith (of_path f) ".css" = true ->
  byteLength (of_contents f) < 1024 ->
  (i ∉ Estimator.compressing (Estimator.start outputFiles))
  /\ ((forall g, g ∈ outputFiles -> of_path g = of_path f ->
         byteLength (of_contents g) = byteLength (of_contents f)) ->
      forall evs s m,
        Estimator.run outputFiles (Estimator.start outputFiles) evs = Some s ->
        Estimator.returned s = Some m ->
        m !! of_path f = Some (byteLength (of_contents f))).
Proof.
  intros Hf Hext Hsmall. split.
  - intros Hin.
    destruct (v_large _ _ _ (inv_visited _ _ (estimate_start_inv outputFiles)) i Hin)
      as (_ & g & Hg & _ & Hbig).
    rewrite Hf in Hg. injection Hg as <-. lia.
  - intros Hsame evs s m Hrun Hret.
    apply (small_file_entry outputFiles f evs s m); try done.
    + by apply list_elem_of_lookup_2 in Hf.
    + by apply qualifies_iff.
Qed.

Lemma small_file_estimate_witness :
  sample_sizes !! "styles.css"%string = Some 500.
Proof.
  apply (proj2 (small_file_estimate sample_outputs 1
                  (MkOutputFile "styles.css" (MkUint8Array 1 0 500) "h1") eq_refl
                  (or_intror eq_refl) ltac:(cbn; lia))
           ltac:(intros g Hg Hpath; unfold sample_outputs in Hg;
                 repeat (apply elem_of_cons in Hg as [->|Hg]);
                 [discriminate|reflexivity|discriminate|by apply not_elem_of_nil in Hg])
           [Estimator.Done 0 (inr 400)]
           (Estimator.MkState sample_sizes 3 Estimator.Fulfilled ∅)).
  - vm_compute; reflexivity.
  - reflexivity.
Defined.

(** C8: if the compression of any file fails, the promise of
    [calculateEstimatedTransferSizes] is rejected with the error of the
    first failure and stays so; no map is returned to the caller. *)
Theorem compression_failure_rejects (outputFiles : list OutputFile)
    (evs : list Estimator.event) (s : Estimator.state)
    (i : nat) (error : Estimator.Error) :
  Estimator.run outputFiles (Estimator.start outputFiles) evs = Some s ->
  Estimator.Done i (inl error) ∈ evs ->
  exists e, Estimator.first_error evs = Some e
            /\ Estimator.promise s = Estimator.Rejected e
            /\ Estimator.returned s = None.
Proof.
  intros Hrun Hin.
  destruct (first_error_of_failure evs i error Hin) as [e He].
  exists e. split; [exact He|].
  pose proof (run_first_error outputFiles evs _ s e
                (estimate_start_inv outputFiles) (start_not_rejected outputFiles) Hrun He) as Hp.
  split; [exact Hp|]. unfold Estimator.returned. by rewrite Hp.
Qed.

Lemma compression_failure_rejects_witness :
  exists e, Estimator.first_error [Estimator.Done 0 (inl "Z_BUF_ERROR"%string)] = Some e
            /\ Estimator.promise
                 (Estimator.MkState {[ "styles.css"%string := 500 ]} 2
                    (Estimator.Rejected "Z_BUF_ERROR") ∅)
               = Estimator.Rejected e
            /\ Estimator.returned
                 (Estimator.MkState {[ "styles.css"%string := 500 ]} 2
                    (Estimator.Rejected "Z_BUF_ERROR") ∅) = None.
Proof.
  apply (compression_failure_rejects sample_outputs
           [Estimator.Done 0 (inl "Z_BUF_ERROR"%string)] _ 0 "Z_BUF_ERROR"%string).
  - vm_compute; reflexivity.
  - apply list_elem_of_here.
Defined.

(** ** [emitFilesToDisk]

    The function is a coroutine: it calls [writeFileCallback] for every file
    of a group, one after the other and without giving up control, and then
    awaits [Promise.all(actions)].  A call of the callback runs until its
    first [await] and is resumed, later, with what the awaited operation
    yields.  [Promise.all] is rejected as soon as one of its promises is,
    whatever the state of the others, and is fulfilled when all are.  A
    callback that throws instead of returning a promise ends the [while]
    loop there and then: the exception rejects [emitFilesToDisk]. *)

Definition MAX_CONCURRENT_WRITES : nat := 64.
Arguments MAX_CONCURRENT_WRITES : simpl never.

Module Emit.

Section Machine.

(** [T]: the files; [G]: what the callbacks share (closure variables, the file
    system); [K]: a callback suspended at an [await]; [R]: what an awaited
    operation yields; [E]: errors. *)
Context {T G K R E : Type}.

(** What came of a call of the callback: its promise, pending, fulfilled
    or rejected, or the exception that the call threw. *)
Inductive task :=
  | Suspended (k : K)
  | Finished
  | Failed (e : E)
  | Threw (e : E).

(** [writeFileCallback(file)] up to its first [await], or to the exception
    it throws; an [async] function never throws, it returns a rejected
    promise. *)
Variable start : T -> G -> G * task.
(** The callback resumed with [r]; [None] when the operation it awaits cannot
    yield [r]. *)
Variable resume : K -> R -> G -> option (G * task).

Inductive status :=
  | Running
  | Resolved
  | Rejected (i : nat) (e : E).   (* [i]: the file whose promise was rejected,
                                     or whose call threw *)

Record state := MkState
  { shared : G;
    fileIndex : nat;
    group : nat;               (* [actions] holds the promises of files [group .. fileIndex) *)
    tasks : list task;         (* what came of the call for every file so far *)
    waves : list (list nat);   (* the groups launched so far, as file indices *)
    outcome : status }.

Definition init (g : G) : state := MkState g 0 0 [] [] Running.

Definition is_finished (t : task) : bool :=
  match t with Finished => true | _ => false end.

Definition is_suspended (t : task) : bool :=
  match t with Suspended _ => true | _ => false end.

(** The first rejected promise of a list, with its position. *)
Fixpoint first_failed (ts : list task) : option (nat * E) :=
  match ts with
  | [] => None
  | Failed e :: _ => Some (0, e)
  | _ :: ts' => (prod_map S id) <$> (first_failed ts')
  end.

(** [while (fileIndex < groupMax) actions.push(writeFileCallback(files[fileIndex++]))];
    a call that throws is the last one. *)
Fixpoint launch (g : G) (files : list T) : G * list task :=
  match files with
  | [] => (g, [])
  | file :: rest =>
      let '(g1, t) := start file g in
      match t with
      | Threw _ => (g1, [t])
      | _ =>
          let '(g2, ts) := launch g1 rest in
          (g2, t :: ts)
      end
  end.

(** The exception that ended the loop. *)
Definition thrown (actions : list task) : option E :=
  match last actions with
  | Some (Threw e) => Some e
  | _ => None
  end.

(** An exception thrown after an [await] rejects the callback's promise. *)
Definition settle (t : task) : task :=
  match t with
  | Threw e => Failed e
  | _ => t
  end.

(** The coroutine runs from the head of the [for] loop to the next [await],
    or to its end.  It can do so when it is not settled and every promise
    of [actions] is fulfilled.  [fileIndex] has been incremented once for
    every call made. *)
Definition advance (files : list T) (s : state) : option state :=
  match outcome s with
  | Running =>
      if forallb is_finished (drop (group s) (tasks s)) then
        if fileIndex s <? length files then
          let groupMax := Nat.min (fileIndex s + MAX_CONCURRENT_WRITES) (length files) in
          let '(g, actions) :=
            launch (shared s) (take (groupMax - fileIndex s) (drop (fileIndex s) files)) in
          Some (MkState g (fileIndex s + length actions) (fileIndex s)
                  (tasks s ++ actions)
                  (waves s ++ [seq (fileIndex s) (length actions)])
                  match thrown actions, first_failed actions with
                  | Some e, _ => Rejected (fileIndex s + length actions - 1) e
                  | None, Some (j, e) => Rejected (fileIndex s + j) e
                  | None, None => Running
                  end)
        else Some (MkState (shared s) (fileIndex s) (group s) (tasks s) (waves s) Resolved)
      else None
  | _ => None
  end.

(** The operation awaited by the callback of file [i] yields [r]. *)
Definition complete (i : nat) (r : R) (s : state) : option state :=
  match tasks s !! i with
  | Some (Suspended k) =>
      match resume k r (shared s) with
      | Some (g, t) =>
          Some (MkState g (fileIndex s) (group s) (<[i := settle t]> (tasks s)) (waves s)
                  match outcome s, settle t with
                  | Running, Failed e => Rejected i e
                  | o, _ => o
                  end)
      | None => None
      end
  | _ => None
  end.

Inductive event :=
  | Advance
  | Complete (i : nat) (r : R).

Definition step (files : list T) (s : state) (ev : event) : option state :=
  match ev with
  | Advance => advance files s
  | Complete i r => complete i r s
  end.

Fixpoint run (files : list T) (s : state) (evs : list event) : option state :=
  match evs with
  | [] => Some s
  | ev :: evs' =>
      match step files s ev with
      | Some s' => run files s' evs'
      | None => None
      end
  end.

(** Callbacks that have been called and have not settled. *)
Definition in_flight (s : state) : nat :=
  length (filter (fun t => is_suspended t = true) (tasks s)).

(** The [k]-th group of [n] files. *)
Definition wave (n k : nat) : list nat :=
  seq (MAX_CONCURRENT_WRITES * k) (Nat.min MAX_CONCURRENT_WRITES (n - MAX_CONCURRENT_WRITES * k)).

End Machine.

Arguments wave : simpl never.
Arguments task : clear implicits.
Arguments status : clear implicits.
Arguments state : clear implicits.
Arguments event : clear implicits.

End Emit.

Section EmitFacts.

Context {T G K R E : Type}.
Variable start : T -> G -> G * Emit.task K E.
Variable resume : K -> R -> G -> option (G * Emit.task K E).
Variable files : list T.

#[local] Abbreviation state := (Emit.state G K E).
#[local] Abbreviation task := (Emit.task K E).
#[local] Abbreviation step := (Emit.step start resume files).
#[local] Abbreviation run := (Emit.run start resume files).

Implicit Types (s : state) (t : task) (ts : list task).

(** No call has thrown. *)
Definition threw_free (ts : list task) : Prop :=
  forall i e, ts !! i <> Some (Emit.Threw e).

Lemma threw_free_app ts ts' : threw_free ts -> threw_free ts' -> threw_free (ts ++ ts').
Proof.
  intros H1 H2 i e Hi. apply lookup_app_Some in Hi as [Hi|[_ Hi]]; [by apply H1 in Hi|].
  by apply H2 in Hi.
Qed.

Lemma thrown_free ts : threw_free ts -> Emit.thrown ts = None.
Proof.
  intros Hfree. unfold Emit.thrown. destruct (last ts) as [t|] eqn:Hlast; [|done].
  destruct t as [k| |e|e]; try done.
  rewrite last_lookup in Hlast. by apply Hfree in Hlast.
Qed.

Lemma thrown_last ts e : Emit.thrown (ts ++ [Emit.Threw e]) = Some e.
Proof. unfold Emit.thrown. by rewrite last_snoc. Qed.

Lemma settle_not_threw t e : Emit.settle t <> Emit.Threw e.
Proof. by destruct t. Qed.

(** What the loop makes: a promise for each file of the group, or promises
    for some of them and then the exception that ended it. *)
Lemma launch_shape (fs : list T) : forall g g' ts,
  Emit.launch start g fs = (g', ts) ->
  (threw_free ts /\ length ts = length fs)
  \/ (exists ts0 e, ts = ts0 ++ [Emit.Threw e] /\ threw_free ts0
                    /\ length ts <= length fs).
Proof.
  induction fs as [|f fs IH]; intros g g' ts Hl; cbn in Hl.
  - injection Hl as <- <-. left. split; [|done]. intros i e. by rewrite lookup_nil.
  - destruct (start f g) as [g1 t].
    assert ((exists e, t = Emit.Threw e) \/ forall e, t <> Emit.Threw e) as [[e ->]|Hnot].
    { destruct t; eauto. }
    + injection Hl as <- <-. right. exists [], e. split_and!; [done| |cbn; lia].
      intros i e'. by rewrite lookup_nil.
    + assert (exists g2 ts', Emit.launch start g1 fs = (g2, ts') /\ g' = g2 /\ ts = t :: ts')
        as (g2 & ts' & Hrest & -> & ->).
      { destruct (Emit.launch start g1 fs) as [g2 ts'].
        exists g2, ts'.
        destruct t as [k| |e0|e0]; [..|by destruct (Hnot e0)]; by injection Hl as <- <-. }
      assert (threw_free [t]) as Ht.
      { intros [|i] e; cbn; [|by destruct i]. intros [= ->]. by apply (Hnot e). }
      destruct (IH _ _ _ Hrest) as [[Hfree Hlen]|(ts0 & e & -> & Hfree & Hlen)].
      * left. split; [|cbn; lia]. by apply (threw_free_app [t]).
      * right. exists (t :: ts0), e. split_and!; [done| |cbn in *; lia].
        by apply (threw_free_app [t]).
Qed.

Lemma launch_length (fs : list T) g g' ts :
  Emit.launch start g fs = (g', ts) -> length ts <= length fs.
Proof. intros [[_ ->]|(_ & _ & _ & _ & Hlen)]%launch_shape; [done|exact Hlen]. Qed.

Lemma launch_nonempty (fs : list T) g g' ts :
  Emit.launch start g fs = (g', ts) -> fs <> [] -> ts <> [].
Proof.
  intros [[_ Hlen]|(ts0 & e & -> & _)]%launch_shape Hfs.
  - intros ->. by destruct fs.
  - by destruct ts0.
Qed.

Lemma first_failed_None ts :
  Emit.first_failed ts = None -> forall i e, ts !! i <> Some (Emit.Failed e).
Proof.
  induction ts as [|t ts IH]; intros Hn i e; [by rewrite lookup_nil|].
  destruct t; cbn in Hn; try discriminate;
    (destruct (Emit.first_failed ts); [discriminate|]);
    (destruct i; cbn; [discriminate|by apply IH]).
Qed.

Lemma first_failed_Some ts : forall j e,
  Emit.first_failed ts = Some (j, e) -> ts !! j = Some (Emit.Failed e).
Proof.
  induction ts as [|t ts IH]; intros j e Hs; [discriminate|].
  destruct t; cbn in Hs; try (by injection Hs as <- <-);
    (destruct (Emit.first_failed ts) as [[j' e']|]; [|discriminate]);
    injection Hs as <- <-; cbn; by apply IH.
Qed.

Lemma all_finished ts :
  forallb Emit.is_finished ts = true -> forall i t, ts !! i = Some t -> t = Emit.Finished.
Proof.
  intros Hall i t Hi. rewrite forallb_forall in Hall.
  apply list_elem_of_lookup_2, list_elem_of_In, Hall in Hi. by destruct t.
Qed.

(** The full groups among the first [n] files are the same for every larger
    number of files. *)
Lemma wave_full (n m k : nat) :
  MAX_CONCURRENT_WRITES * S k <= n -> MAX_CONCURRENT_WRITES * S k <= m ->
  Emit.wave n k = Emit.wave m k.
Proof. unfold Emit.wave, MAX_CONCURRENT_WRITES. intros Hn Hm. f_equal. lia. Qed.

Lemma waves_full (n m w : nat) :
  MAX_CONCURRENT_WRITES * w <= n -> MAX_CONCURRENT_WRITES * w <= m ->
  map (Emit.wave n) (seq 0 w) = map (Emit.wave m) (seq 0 w).
Proof.
  intros Hn Hm. apply map_ext_in. intros k Hk%in_seq.
  apply wave_full; unfold MAX_CONCURRENT_WRITES in *; lia.
Qed.

(** What holds of every state the coroutine can be in, for [n] files. *)
Record emit_inv (s : state) : Prop := MkEmitInv
  { inv_len : length (Emit.tasks s) = Emit.fileIndex s;
    inv_le : Emit.fileIndex s <= length files;
    inv_group : Emit.group s <= Emit.fileIndex s
                /\ Emit.fileIndex s <= Emit.group s + MAX_CONCURRENT_WRITES;
    inv_before : forall i, i < Emit.group s -> Emit.tasks s !! i = Some Emit.Finished;
    inv_running : Emit.outcome s = Emit.Running ->
                  forall i e, Emit.tasks s !! i <> Some (Emit.Failed e);
    inv_rejected : forall i e, Emit.outcome s = Emit.Rejected i e ->
                   (Emit.tasks s !! i = Some (Emit.Failed e)
                    \/ Emit.tasks s !! i = Some (Emit.Threw e))
                   /\ Emit.group s <= i;
    inv_resolved : Emit.outcome s = Emit.Resolved ->
                   Emit.fileIndex s = length files
                   /\ forall i, i < length files -> Emit.tasks s !! i = Some Emit.Finished;
    inv_waves : Emit.waves s
                = map (Emit.wave (Emit.fileIndex s)) (seq 0 (length (Emit.waves s)));
    inv_index : threw_free (Emit.tasks s) ->
                Emit.fileIndex s
                = Nat.min (MAX_CONCURRENT_WRITES * length (Emit.waves s)) (length files);
    inv_group_wave : Emit.group s = MAX_CONCURRENT_WRITES * (length (Emit.waves s) - 1);
    inv_nonempty : Emit.waves s <> [] -> Emit.group s < Emit.fileIndex s;
    inv_threw : forall i e, Emit.tasks s !! i = Some (Emit.Threw e) ->
                S i = Emit.fileIndex s /\ Emit.outcome s = Emit.Rejected i e;
    inv_start : Emit.waves s = [] -> Emit.fileIndex s = 0 }.

Lemma emit_init_inv g : emit_inv (Emit.init g).
Proof.
  split; cbn; try done; try lia.
Qed.

Lemma emit_advance_inv s s' :
  emit_inv s -> Emit.advance start files s = Some s' -> emit_inv s'.
Proof.
  intros [Hlen Hle [Hg1 Hg2] Hbefore Hrun Hrej Hres Hwaves Hidx Hgw Hne Hthrew Hstart] Hadv.
  unfold Emit.advance in Hadv.
  destruct (Emit.outcome s) eqn:Hout; try discriminate.
  destruct (forallb _ _) eqn:Hall; [|discriminate].
  pose proof (all_finished _ Hall) as Hfin.
  assert (forall i, i < Emit.fileIndex s -> Emit.tasks s !! i = Some Emit.Finished) as Hdone.
  { intros i Hi. destruct (decide (i < Emit.group s)) as [Hlt|Hge]; [by apply Hbefore|].
    destruct (lookup_lt_is_Some_2 (Emit.tasks s) i) as [t Ht]; [lia|].
    rewrite Ht. f_equal. apply (Hfin (i - Emit.group s) t).
    rewrite lookup_drop. rewrite <- Ht. f_equal. lia. }
  assert (threw_free (Emit.tasks s)) as Hfree.
  { intros i e Hi. by destruct (Hthrew i e Hi) as [_ [=]]. }
  specialize (Hidx Hfree).
  destruct (Nat.ltb_spec (Emit.fileIndex s) (length files)) as [Hmore|Hend].
  - set (groupMax := Nat.min (Emit.fileIndex s + MAX_CONCURRENT_WRITES) (length files)) in *.
    destruct (Emit.launch _ _ _) as [g actions] eqn:Hlaunch.
    injection Hadv as <-.
    assert (length (take (groupMax - Emit.fileIndex s) (drop (Emit.fileIndex s) files))
            = groupMax - Emit.fileIndex s) as Hgroup.
    { rewrite length_take, length_drop. lia. }
    assert (0 < groupMax - Emit.fileIndex s) as Hsome.
    { unfold groupMax, MAX_CONCURRENT_WRITES. lia. }
    assert (0 < length actions) as Hpos.
    { assert (actions <> []) as Hne'; [|destruct actions; [done|cbn; lia]].
      apply (launch_nonempty _ _ _ _ Hlaunch). intros Hnil. rewrite Hnil in Hgroup.
      cbn in Hgroup. lia. }
    apply launch_shape in Hlaunch as Hshape. rewrite Hgroup in Hshape.
    assert (length actions <= groupMax - Emit.fileIndex s) as Hact.
    { destruct Hshape as [[_ ->]|(_ & _ & _ & _ & H)]; [done|exact H]. }
    assert (Emit.fileIndex s = MAX_CONCURRENT_WRITES * length (Emit.waves s)) as Hfi by lia.
    split; cbn.
    + rewrite length_app. lia.
    + lia.
    + unfold MAX_CONCURRENT_WRITES in *. lia.
    + intros i Hi. rewrite lookup_app_l by lia. by apply Hdone.
    + destruct (Emit.thrown actions); [discriminate|].
      destruct (Emit.first_failed actions) as [[j e]|] eqn:Hff; [discriminate|].
      intros _ i e. destruct (decide (i < Emit.fileIndex s)) as [Hlt|Hge].
      * rewrite lookup_app_l by lia. rewrite Hdone by lia. discriminate.
      * rewrite lookup_app_r by lia. by apply first_failed_None.
    + intros i e. destruct Hshape as [[Hfree' _]|(ts0 & e0 & -> & _ & _)].
      * rewrite (thrown_free _ Hfree').
        destruct (Emit.first_failed actions) as [[j e']|] eqn:Hff; [|discriminate].
        intros [= <- <-]. split; [|lia]. left.
        rewrite lookup_app_r by lia. apply first_failed_Some in Hff.
        rewrite <- Hff. f_equal. lia.
      * rewrite thrown_last. intros [= <- <-]. split; [|lia]. right.
        rewrite lookup_app_r by lia. rewrite length_app in *. cbn in *.
        rewrite lookup_app_r by lia.
        replace (Emit.fileIndex s + (length ts0 + 1) - 1 - length (Emit.tasks s)
                 - length ts0) with 0 by lia.
        done.
    + destruct (Emit.thrown actions); [discriminate|].
      destruct (Emit.first_failed actions) as [[j e']|]; discriminate.
    + rewrite length_app. cbn. rewrite Nat.add_1_r, seq_S, map_app. cbn.
      f_equal.
      * rewrite Hwaves at 1. apply waves_full; unfold MAX_CONCURRENT_WRITES in *; lia.
      * f_equal. unfold Emit.wave. unfold MAX_CONCURRENT_WRITES in *.
        rewrite <- Hfi. f_equal. lia.
    + intros Hfree'. rewrite length_app. cbn.
      assert (length actions = groupMax - Emit.fileIndex s) as ->.
      { destruct Hshape as [[_ ->]|(ts0 & e0 & -> & _ & _)]; [done|].
        exfalso. apply (Hfree' (length (Emit.tasks s) + length ts0) e0).
        rewrite lookup_app_r by lia. rewrite lookup_app_r by lia.
        by replace (length (Emit.tasks s) + length ts0 - length (Emit.tasks s)
                    - length ts0) with 0 by lia. }
      unfold groupMax, MAX_CONCURRENT_WRITES in *. lia.
    + rewrite length_app. cbn. unfold MAX_CONCURRENT_WRITES in *. lia.
    + intros _. lia.
    + intros i e Hi. apply lookup_app_Some in Hi as [Hi|[Hge Hi]].
      { apply lookup_lt_Some in Hi as Hlt. rewrite Hdone in Hi by lia. discriminate. }
      destruct Hshape as [[Hfree' _]|(ts0 & e0 & -> & Hfree0 & _)];
        [by apply Hfree' in Hi|].
      apply lookup_app_Some in Hi as [Hi|[Hge' Hi]]; [by apply Hfree0 in Hi|].
      apply list_lookup_singleton_Some in Hi as [Hz [= <-]].
      rewrite thrown_last, length_app in *. cbn in *.
      split; [lia|]. f_equal. lia.
    + intros Hnil. by apply app_nil in Hnil as [_ [=]].
  - injection Hadv as <-. split; cbn; try done.
    + intros _. split; [lia|]. intros i Hi. apply Hdone. lia.
    + intros i e Hi. by apply Hfree in Hi.
Qed.

Lemma emit_complete_inv s i r s' :
  emit_inv s -> Emit.complete resume i r s = Some s' -> emit_inv s'.
Proof.
  intros [Hlen Hle [Hg1 Hg2] Hbefore Hrun Hrej Hres Hwaves Hidx Hgw Hne Hthrew Hstart] Hc.
  unfold Emit.complete in Hc.
  destruct (Emit.tasks s !! i) as [[k| | |]|] eqn:Hi; try discriminate.
  destruct (resume k r (Emit.shared s)) as [[g t0]|]; [|discriminate].
  injection Hc as <-.
  pose proof (settle_not_threw t0) as Hsettled.
  set (t := Emit.settle t0) in *.
  assert (Emit.group s <= i) as Hgi.
  { destruct (decide (Emit.group s <= i)) as [|Hlt]; [done|].
    rewrite Hbefore in Hi by lia. discriminate. }
  assert (i < length (Emit.tasks s)) as Hilt by (by apply lookup_lt_Some in Hi).
  split; cbn; try done.
  - by rewrite length_insert.
  - intros j Hj. rewrite list_lookup_insert_ne by lia. by apply Hbefore.
  - intros Hout j e. destruct (Emit.outcome s) eqn:Ho; try discriminate.
    destruct (decide (j = i)) as [->|Hne'].
    + rewrite list_lookup_insert_eq by done. destruct t; discriminate.
    + rewrite list_lookup_insert_ne by done. by apply Hrun.
  - intros j e Hout. destruct (Emit.outcome s) eqn:Ho.
    + destruct t; try discriminate. injection Hout as <- <-.
      split; [|done]. left. by rewrite list_lookup_insert_eq.
    + destruct t; discriminate.
    + assert (Emit.Rejected i0 e0 = Emit.Rejected j e) as [= <- <-] by (by destruct t).
      destruct (Hrej i0 e0 eq_refl) as [Hf Hge]. split; [|done].
      rewrite list_lookup_insert_ne; [done|]. intros ->. destruct Hf; congruence.
  - intros Hout. destruct (Emit.outcome s) eqn:Ho.
    + destruct t; discriminate.
    + destruct (Hres eq_refl) as [_ Hall]. rewrite Hall in Hi by lia. discriminate.
    + destruct t; discriminate.
  - intros Hfree. apply Hidx. intros j e Hj. apply (Hfree j e).
    rewrite list_lookup_insert_ne; [done|]. intros ->. congruence.
  - intros j e Hj. destruct (decide (j = i)) as [->|Hne'].
    + rewrite list_lookup_insert_eq in Hj by done. injection Hj as Hj.
      by apply Hsettled in Hj.
    + rewrite list_lookup_insert_ne in Hj by done.
      destruct (Hthrew j e Hj) as [Hj1 Hj2]. split; [done|]. by rewrite Hj2.
Qed.

Lemma emit_step_inv s ev s' : emit_inv s -> step s ev = Some s' -> emit_inv s'.
Proof.
  destruct ev as [|i r]; cbn; [apply emit_advance_inv|apply emit_complete_inv].
Qed.

Lemma emit_run_inv evs : forall s s', emit_inv s -> run s evs = Some s' -> emit_inv s'.
Proof.
  induction evs as [|ev evs IH]; intros s s' Hinv Hrun; cbn in Hrun.
  - by injection Hrun as <-.
  - destruct (step s ev) as [s1|] eqn:Hstep; [|discriminate].
    exact (IH s1 s' (emit_step_inv s ev s1 Hinv Hstep) Hrun).
Qed.

Lemma filter_none {A} (P : A -> Prop) `{!forall x, Decision (P x)} (l : list A) :
  (forall x, x ∈ l -> ~ P x) -> filter P l = [].
Proof.
  induction l as [|x l IH]; intros Hall; [reflexivity|].
  rewrite filter_cons_False by (apply Hall; left).
  apply IH. intros y Hy. apply Hall. by right.
Qed.

(** Callbacks in flight all belong to the current group. *)
Lemma in_flight_bound s : emit_inv s -> Emit.in_flight s <= MAX_CONCURRENT_WRITES.
Proof.
  intros Hinv. unfold Emit.in_flight.
  rewrite <- (take_drop (Emit.group s) (Emit.tasks s)), filter_app, length_app.
  rewrite filter_none.
  - cbn. etrans; [apply length_filter|].
    rewrite length_drop, (inv_len s Hinv).
    pose proof (inv_group s Hinv). lia.
  - intros t Ht. apply list_elem_of_lookup_1 in Ht as [i Hi].
    apply lookup_take_Some in Hi as [Hi Hlt].
    rewrite (inv_before s Hinv i Hlt) in Hi. by injection Hi as <-.
Qed.

Lemma emit_reachable_inv g evs s : run (Emit.init g) evs = Some s -> emit_inv s.
Proof. apply emit_run_inv, emit_init_inv. Qed.

(** The groups launched are the first groups of the partition of the files,
    the last of them cut short when a call has thrown. *)
Lemma waves_partition s :
  emit_inv s -> threw_free (Emit.tasks s) ->
  Emit.waves s = map (Emit.wave (length files)) (seq 0 (length (Emit.waves s))).
Proof.
  intros Hinv Hfree. rewrite (inv_waves s Hinv) at 1.
  pose proof (inv_index s Hinv Hfree) as Hidx.
  pose proof (inv_group_wave s Hinv) as Hgw.
  pose proof (inv_group s Hinv) as [Hg1 Hg2].
  pose proof (inv_le s Hinv) as Hle.
  destruct (Emit.waves s) as [|w ws] eqn:Hw; [done|].
  cbn [length] in *. rewrite seq_S, !map_app. cbn [map]. f_equal.
  - apply waves_full; unfold MAX_CONCURRENT_WRITES in *; lia.
  - f_equal. unfold Emit.wave. f_equal. unfold MAX_CONCURRENT_WRITES in *. lia.
Qed.

Lemma waves_launched s :
  emit_inv s -> threw_free (Emit.tasks s) ->
  exists w, Emit.waves s = map (Emit.wave (length files)) (seq 0 w)
            /\ Emit.fileIndex s = Nat.min (MAX_CONCURRENT_WRITES * w) (length files)
            /\ Emit.group s = MAX_CONCURRENT_WRITES * (w - 1)
            /\ (w <> 0 -> Emit.group s < Emit.fileIndex s).
Proof.
  intros Hinv Hfree. exists (length (Emit.waves s)).
  split_and!; [by apply waves_partition|by apply Hinv|apply Hinv|].
  intros Hw. apply (inv_nonempty s Hinv). intros Hnil. by rewrite Hnil in Hw.
Qed.

(** Once a callback has failed, the coroutine is rejected, by a callback of
    the same group. *)
Lemma failed_rejects s i e :
  emit_inv s -> Emit.tasks s !! i = Some (Emit.Failed e) ->
  Emit.group s <= i < Emit.fileIndex s
  /\ exists j e', Emit.outcome s = Emit.Rejected j e'
                  /\ (Emit.tasks s !! j = Some (Emit.Failed e')
                      \/ Emit.tasks s !! j = Some (Emit.Threw e'))
                  /\ Emit.group s <= j < Emit.fileIndex s.
Proof.
  intros Hinv Hi.
  assert (i < Emit.fileIndex s) as Hlt.
  { rewrite <- (inv_len s Hinv). by apply lookup_lt_Some in Hi. }
  assert (Emit.group s <= i) as Hge.
  { destruct (decide (Emit.group s <= i)) as [|Hn]; [done|].
    rewrite (inv_before s Hinv) in Hi by lia. discriminate. }
  split; [lia|].
  destruct (Emit.outcome s) as [| |j e'] eqn:Hout.
  - by destruct (inv_running s Hinv Hout i e).
  - destruct (inv_resolved s Hinv Hout) as [Hn Hall].
    rewrite Hall in Hi by lia. discriminate.
  - destruct (inv_rejected s Hinv j e' Hout) as [Hj Hgj].
    exists j, e'. split_and!; [done..|].
    rewrite <- (inv_len s Hinv). destruct Hj as [Hj|Hj]; by apply lookup_lt_Some in Hj.
Qed.

(** A call that throws is the last one made, and its exception is reported. *)
Lemma threw_rejects s i e :
  emit_inv s -> Emit.tasks s !! i = Some (Emit.Threw e) ->
  Emit.group s <= i /\ S i = Emit.fileIndex s /\ Emit.outcome s = Emit.Rejected i e.
Proof.
  intros Hinv Hi. destruct (inv_threw s Hinv i e Hi) as [Hidx Hout]. split_and!; [|done..].
  destruct (decide (Emit.group s <= i)) as [|Hn]; [done|].
  rewrite (inv_before s Hinv) in Hi by lia. discriminate.
Qed.

End EmitFacts.

(** *** A callback with a single [await]

    The simplest [writeFileCallback]: it awaits one operation, which yields
    nothing or an error. *)

Module OneStep.

Definition start (file : nat) (g : unit) : unit * Emit.task unit string :=
  (g, Emit.Suspended tt).

Definition resume (k : unit) (r : option string) (g : unit)
  : option (unit * Emit.task unit string) :=
  Some (g, match r with None => Emit.Finished | Some e => Emit.Failed e end).

Definition succeed (first count : nat) : list (Emit.event (option string)) :=
  map (fun i => Emit.Complete i None) (seq first count).

(** Every callback succeeds, group after group. *)
Definition all_succeed : list (Emit.event (option string)) :=
  [Emit.Advance] ++ succeed 0 64 ++ [Emit.Advance] ++ succeed 64 64
    ++ [Emit.Advance] ++ succeed 128 2 ++ [Emit.Advance].

(** The first group succeeds; in the second the callback of item 70 (index
    69) is the first to settle, and it fails. *)
Definition item_70_fails_first : list (Emit.event (option string)) :=
  [Emit.Advance] ++ succeed 0 64 ++ [Emit.Advance; Emit.Complete 69 (Some "EIO"%string)].

Abbreviation run := (Emit.run start resume (seq 0 130) (Emit.init tt)).

End OneStep.

Example one_step_all_succeed :
  exists s, OneStep.run OneStep.all_succeed = Some s
            /\ Emit.outcome s = Emit.Resolved
            /\ Emit.waves s = [seq 0 64; seq 64 64; seq 128 2]
            /\ Emit.in_flight s = 0.
Proof. eexists. split; [vm_compute; reflexivity|]. split_and!; reflexivity. Qed.

(** After a rejection the coroutine does not run again: no further group is
    launched. *)
Example one_step_no_advance_after_failure :
  OneStep.run (OneStep.item_70_fails_first ++ [Emit.Advance]) = None
  /\ OneStep.run (OneStep.item_70_fails_first
                    ++ OneStep.succeed 64 5 ++ OneStep.succeed 70 58 ++ [Emit.Advance])
     = None.
Proof. split; vm_compute; reflexivity. Qed.

(** C1, as stated, fails: [Promise.all] rejects as soon as one promise is
    rejected.  When the callback of item 70 is the first of its group to
    settle, the operation is rejected while the 63 other callbacks of the
    second group are still in flight. *)
Lemma failure_reported_before_group_settles :
  exists s, OneStep.run OneStep.item_70_fails_first = Some s
            /\ Emit.outcome s = Emit.Rejected 69 "EIO"%string
            /\ Emit.tasks s !! 70 = Some (Emit.Suspended tt)
            /\ Emit.in_flight s = 63
            /\ ~ (forall i, i < 128 -> i <> 69 -> Emit.tasks s !! i = Some Emit.Finished).
Proof.
  eexists. split; [vm_compute; reflexivity|].
  split_and!; [reflexivity..|].
  intros Hall. specialize (Hall 70). cbn in Hall. 
  assert (70 < 128) as H1 by lia. assert (70 <> 69) as H2 by lia.
  specialize (Hall H1 H2). discriminate.
Qed.

(** A callback that throws for one file, before it has awaited anything,
    and otherwise is as [OneStep.start]. *)
Definition throw_at (bad : nat) (file : nat) (g : unit) : unit * Emit.task unit string :=
  if file =? bad then (g, Emit.Threw "EINVAL"%string) else (g, Emit.Suspended tt).

(** The first group succeeds; in the second the callback throws for item
    70 (index 69). *)
Definition item_70_throws : list (Emit.event (option string)) :=
  [Emit.Advance] ++ OneStep.succeed 0 64 ++ [Emit.Advance].

Example one_step_throw :
  exists s, Emit.run (throw_at 69) OneStep.resume (seq 0 130) (Emit.init tt) item_70_throws
            = Some s
            /\ Emit.outcome s = Emit.Rejected 69 "EINVAL"%string
            /\ Emit.waves s = [seq 0 64; seq 64 6]
            /\ length (Emit.tasks s) = 70
            /\ Emit.in_flight s = 5.
Proof. eexists. split; [vm_compute; reflexivity|]. split_and!; reflexivity. Qed.

(** C1, amended: over 130 items, a run of [emitFilesToDisk] that completes
    has launched exactly three groups, of 64, 64 and 2 items.  If the
    callback of an item of the second group (such as item 70) fails, the
    operation is rejected and the third group is never started; by then all
    64 callbacks of the first group have completed.  When the callback
    fails by a rejected promise, the error reported is that of a callback of
    the second group that has failed or thrown (that of the item itself when
    it is the only one); all 64 callbacks of the group have been called,
    unless one of them threw, and may still be in flight.  When the
    callback throws instead of returning a promise, its exception is the
    error reported, at once, and the items after it are never called. *)
Theorem fan_out_of_130 {T G K R E : Type}
    (start : T -> G -> G * Emit.task K E)
    (resume : K -> R -> G -> option (G * Emit.task K E))
    (files : list T) (g : G) (evs : list (Emit.event R)) (s : Emit.state G K E) :
  length files = 130 ->
  Emit.run start resume files (Emit.init g) evs = Some s ->
  (Emit.outcome s = Emit.Resolved ->
   Emit.waves s = [seq 0 64; seq 64 64; seq 128 2])
  /\ (forall i e,
        64 <= i < 128 -> Emit.tasks s !! i = Some (Emit.Failed e) ->
        (exists j e', Emit.outcome s = Emit.Rejected j e'
                      /\ (Emit.tasks s !! j = Some (Emit.Failed e')
                          \/ Emit.tasks s !! j = Some (Emit.Threw e'))
                      /\ 64 <= j < 128)
        /\ ((forall k e', Emit.tasks s !! k = Some (Emit.Failed e')
                          \/ Emit.tasks s !! k = Some (Emit.Threw e') -> k = i) ->
            Emit.outcome s = Emit.Rejected i e)
        /\ Emit.waves s = [seq 0 64; seq 64 (length (Emit.tasks s) - 64)]
        /\ length (Emit.tasks s) <= 128
        /\ ((forall k e', Emit.tasks s !! k <> Some (Emit.Threw e')) ->
            length (Emit.tasks s) = 128)
        /\ forall k, k < 64 -> Emit.tasks s !! k = Some Emit.Finished)
  /\ (forall i e,
        64 <= i < 128 -> Emit.tasks s !! i = Some (Emit.Threw e) ->
        Emit.outcome s = Emit.Rejected i e
        /\ Emit.waves s = [seq 0 64; seq 64 (i - 63)]
        /\ length (Emit.tasks s) = i + 1
        /\ forall k, k < 64 -> Emit.tasks s !! k = Some Emit.Finished).
Proof.
  intros Hlen Hrun.
  pose proof (emit_reachable_inv start resume files g evs s Hrun) as Hinv.
  pose proof (inv_waves files s Hinv) as Hw.
  pose proof (inv_group_wave files s Hinv) as Hgw.
  pose proof (inv_group files s Hinv) as [Hg1 Hg2].
  pose proof (inv_le files s Hinv) as Hle.
  pose proof (inv_len files s Hinv) as Htasks.
  rewrite Hlen in Hle.
  assert (forall i, 64 <= i < 128 -> Emit.group s <= i < Emit.fileIndex s ->
            Emit.waves s = [seq 0 64; seq 64 (Emit.fileIndex s - 64)]
            /\ Emit.group s = 64 /\ Emit.fileIndex s <= 128) as Hsecond.
  { intros i Hi Hrange. unfold MAX_CONCURRENT_WRITES in *.
    assert (length (Emit.waves s) = 2) as Hlw by lia.
    rewrite Hlw in Hw, Hgw. split_and!; [|lia..].
    rewrite Hw. change (seq 0 2) with [0; 1]. cbn [map].
    unfold Emit.wave, MAX_CONCURRENT_WRITES.
    replace (Nat.min 64 (Emit.fileIndex s - 64 * 0)) with 64 by lia.
    replace (Nat.min 64 (Emit.fileIndex s - 64 * 1)) with (Emit.fileIndex s - 64) by lia.
    reflexivity. }
  split_and!.
  - intros Hres. destruct (inv_resolved files s Hinv Hres) as [Hn Hall].
    assert (threw_free (Emit.tasks s)) as Hfree.
    { intros i e Hi. apply lookup_lt_Some in Hi as Hlt. rewrite Hall in Hi by lia.
      discriminate. }
    destruct (waves_launched files s Hinv Hfree) as (w & Hw' & Hfi & Hgr & Hpos).
    rewrite Hlen in Hw', Hfi. unfold MAX_CONCURRENT_WRITES in *.
    assert (w = 3) as -> by lia. rewrite Hw'. reflexivity.
  - intros i e Hi Hfail.
    destruct (failed_rejects files s i e Hinv Hfail) as [Hrange (j & e' & Hout & Hj & Hjr)].
    destruct (Hsecond i Hi Hrange) as (Hwaves & Hg & Hf).
    split_and!.
    + exists j, e'. split_and!; [done..|lia|lia].
    + intros Honly. pose proof (Honly j e' Hj) as ->.
      destruct Hj as [Hj|Hj]; congruence.
    + by rewrite Htasks.
    + by rewrite Htasks.
    + intros Hfree. rewrite Htasks.
      pose proof (inv_index files s Hinv Hfree) as Hidx. rewrite Hlen in Hidx.
      unfold MAX_CONCURRENT_WRITES in *. lia.
    + intros k Hk. apply (inv_before files s Hinv). lia.
  - intros i e Hi Hthrew.
    destruct (threw_rejects files s i e Hinv Hthrew) as (Hge & Hidx & Hout).
    destruct (Hsecond i Hi ltac:(lia)) as (Hwaves & Hg & Hf).
    split_and!; [done| |lia|].
    + rewrite Hwaves. do 3 f_equal. lia.
    + intros k Hk. apply (inv_before files s Hinv). lia.
Qed.

Lemma fan_out_of_130_witness :
  (exists s, OneStep.run OneStep.item_70_fails_first = Some s
             /\ Emit.tasks s !! 69 = Some (Emit.Failed "EIO"%string)
             /\ Emit.waves s = [seq 0 64; seq 64 (length (Emit.tasks s) - 64)]
             /\ length (Emit.tasks s) <= 128)
  /\ (exists s, Emit.run (throw_at 69) OneStep.resume (seq 0 130) (Emit.init tt)
                  item_70_throws = Some s
                /\ Emit.tasks s !! 69 = Some (Emit.Threw "EINVAL"%string)
                /\ Emit.outcome s = Emit.Rejected 69 "EINVAL"%string
                /\ length (Emit.tasks s) = 69 + 1).
Proof.
  split.
  - destruct (OneStep.run OneStep.item_70_fails_first) as [s|] eqn:Hrun;
      [|vm_compute in Hrun; discriminate].
    exists s. split; [reflexivity|].
    assert (Emit.tasks s !! 69 = Some (Emit.Failed "EIO"%string)) as Hfail.
    { vm_compute in Hrun. injection Hrun as <-. reflexivity. }
    split; [exact Hfail|].
    destruct (proj1 (proj2 (fan_out_of_130 OneStep.start OneStep.resume (seq 0 130) tt
                              OneStep.item_70_fails_first s eq_refl Hrun))
                69 "EIO"%string ltac:(lia) Hfail) as (_ & _ & Hwaves & Hlen & _).
    split; [exact Hwaves|exact Hlen].
  - destruct (Emit.run (throw_at 69) OneStep.resume (seq 0 130) (Emit.init tt)
                item_70_throws) as [s|] eqn:Hrun;
      [|vm_compute in Hrun; discriminate].
    exists s. split; [reflexivity|].
    assert (Emit.tasks s !! 69 = Some (Emit.Threw "EINVAL"%string)) as Hthrew.
    { vm_compute in Hrun. injection Hrun as <-. reflexivity. }
    split; [exact Hthrew|].
    destruct (proj2 (proj2 (fan_out_of_130 (throw_at 69) OneStep.resume (seq 0 130) tt
                              item_70_throws s eq_refl Hrun))
                69 "EINVAL"%string ltac:(lia) Hthrew) as (Hout & _ & Hlen & _).
    split; [exact Hout|exact Hlen].
Defined.

(** ** [node:path], POSIX flavour

    [path.join] and [path.dirname] as Node implements them.  The facts about
    [writeResultFiles] below hold for any two such functions; this model
    serves the concrete runs. *)

Module Path.

Definition is_slash (c : ascii) : bool := Ascii.eqb c "/".

Fixpoint split (current : list ascii) (chars : list ascii) : list (list ascii) :=
  match chars with
  | [] => [rev current]
  | c :: rest =>
      if is_slash c then rev current :: split [] rest else split (c :: current) rest
  end.

Definition is_dot (segment : list ascii) : bool :=
  match segment with ["."%char] => true | _ => false end.

Definition is_dotdot (segment : list ascii) : bool :=
  match segment with ["."%char; "."%char] => true | _ => false end.

(** [normalizeString]: drops empty and [.] segments and resolves [..];
    [stack] holds the segments kept so far, last first. *)
Fixpoint resolve (allowAboveRoot : bool) (stack : list (list ascii))
    (segments : list (list ascii)) : list (list ascii) :=
  match segments with
  | [] => rev stack
  | segment :: rest =>
      match segment with
      | [] => resolve allowAboveRoot stack rest
      | _ =>
          if is_dot segment then resolve allowAboveRoot stack rest
          else if is_dotdot segment then
            match stack with
            | top :: stack' =>
                if is_dotdot top
                then resolve allowAboveRoot
                       (if allowAboveRoot then segment :: stack else stack) rest
                else resolve allowAboveRoot stack' rest
            | [] =>
                resolve allowAboveRoot (if allowAboveRoot then [segment] else []) rest
            end
          else resolve allowAboveRoot (segment :: stack) rest
      end
  end.

Fixpoint unsplit (segments : list (list ascii)) : list ascii :=
  match segments with
  | [] => []
  | [segment] => segment
  | segment :: rest => segment ++ "/"%char :: unsplit rest
  end.

Definition normalize_chars (path : list ascii) : list ascii :=
  match path with
  | [] => ["."%char]
  | first :: _ =>
      let isAbsolute := is_slash first in
      let trailingSeparator := is_slash (List.last path " "%char) in
      let body := unsplit (resolve (negb isAbsolute) [] (split [] path)) in
      match body with
      | [] => if isAbsolute then ["/"%char]
              else if trailingSeparator then ["."%char; "/"%char] else ["."%char]
      | _ =>
          let body := if trailingSeparator then body ++ ["/"%char] else body in
          if isAbsolute then "/"%char :: body else body
      end
  end.

Definition normalize (path : string) : string :=
  string_of_list_ascii (normalize_chars (list_ascii_of_string path)).

(** [path.join(a, b)] *)
Definition join (a b : string) : string :=
  match a, b with
  | EmptyString, EmptyString => "."
  | EmptyString, _ => normalize b
  | _, EmptyString => normalize a
  | _, _ => normalize (a +:+ "/" +:+ b)
  end.

(** The backwards scan of [dirname]: [chars] are the characters at indices
    [i], [i - 1], ... and the scan stops before index 0. *)
Fixpoint dirname_end (chars : list ascii) (i : nat) (matchedSlash : bool)
  : option nat :=
  match chars, i with
  | c :: rest, S i' =>
      if is_slash c
      then if matchedSlash then dirname_end rest i' true else Some i
      else dirname_end rest i' false
  | _, _ => None
  end.

(** [path.dirname(path)] *)
Definition dirname (path : string) : string :=
  match list_ascii_of_string path with
  | [] => "."
  | (first :: _) as chars =>
      let hasRoot := is_slash first in
      match dirname_end (rev chars) (length chars - 1) true with
      | None => if hasRoot then "/" else "."
      | Some last =>
          if hasRoot && (last =? 1) then "//"
          else string_of_list_ascii (take last chars)
      end
  end.

End Path.

Example path_join_samples :
  Path.join "browser" "main.js" = "browser/main.js"%string
  /\ Path.join EmptyString "index.html" = "index.html"%string
  /\ Path.join "dist" "." = "dist"%string
  /\ Path.join "dist/" "/browser//a/../b.js" = "dist/browser/b.js"%string
  /\ Path.join "browser" "../server/x.js" = "server/x.js"%string
  /\ Path.join EmptyString EmptyString = "."%string.
Proof. split_and!; reflexivity. Qed.

Example path_dirname_samples :
  Path.dirname "browser/main.js" = "browser"%string
  /\ Path.dirname "index.html" = "."%string
  /\ Path.dirname "browser/media/logo.png" = "browser/media"%string
  /\ Path.dirname "/a" = "/"%string
  /\ Path.dirname "a/b/" = "a"%string
  /\ Path.dirname EmptyString = "."%string.
Proof. split_and!; reflexivity. Qed.

(** The segments of a path, and the paths that [path.join] leaves as they
    are: relative, without an empty segment, [.] or [..]. *)
Definition segments (path : string) : list (list ascii) :=
  Path.split [] (list_ascii_of_string path).

Definition plain_segment (segment : list ascii) : bool :=
  match segment with
  | [] => false
  | _ => negb (Path.is_dot segment) && negb (Path.is_dotdot segment)
  end.

Definition plain (path : string) : bool := forallb plain_segment (segments path).

(** A plain path of one segment: a directory or file name. *)
Definition plain_name (path : string) : bool :=
  plain path && (length (segments path) =? 1).

(** A plain path, or a slash followed by one. *)
Definition rooted (path : string) : bool :=
  plain path || match path with String "/" rest => plain rest | _ => false end.

(** [path] lies somewhere below the directory [dir]; [path] is an entry of
    the directory [dir] itself. *)
Definition under (dir path : string) : Prop :=
  exists rest, path = dir +:+ "/" +:+ rest.

Definition directly_in (dir path : string) : Prop :=
  exists name, length (segments name) = 1 /\ path = dir +:+ "/" +:+ name.

Section StringFacts.

Lemma append_cons (c : ascii) (a b : string) : String c a +:+ b = String c (a +:+ b).
Proof. reflexivity. Qed.

Lemma append_nil_l (s : string) : EmptyString +:+ s = s.
Proof. reflexivity. Qed.


Lemma append_assoc (a b c : string) : (a +:+ b) +:+ c = a +:+ (b +:+ c).
Proof. induction a as [|d a IH]; [done|]. by rewrite !append_cons, IH. Qed.


Lemma append_inv_head (a x y : string) : a +:+ x = a +:+ y -> x = y.
Proof. induction a as [|c a IH]; [done|]. rewrite !append_cons. intros [= H]. by apply IH. Qed.

Lemma list_ascii_of_string_app (a b : string) :
  list_ascii_of_string (a +:+ b) = list_ascii_of_string a ++ list_ascii_of_string b.
Proof. induction a as [|c a IH]; [done|]. rewrite append_cons. cbn. by rewrite <- IH. Qed.

End StringFacts.

Section PathFacts.

Lemma split_app_slash (current a b : list ascii) :
  Path.split current (a ++ "/"%char :: b) = Path.split current a ++ Path.split [] b.
Proof.
  revert current. induction a as [|c a IH]; intros current; [done|].
  cbn. destruct (Path.is_slash c); [by rewrite IH|apply IH].
Qed.

Lemma path_split_nonempty (current chars : list ascii) : Path.split current chars <> [].
Proof.
  revert current. induction chars as [|c chars IH]; intros current; [done|].
  cbn. destruct (Path.is_slash c); [done|apply IH].
Qed.

Lemma unsplit_cons (segment : list ascii) (rest : list (list ascii)) :
  rest <> [] -> Path.unsplit (segment :: rest) = segment ++ "/"%char :: Path.unsplit rest.
Proof. by destruct rest. Qed.

Lemma unsplit_split (current chars : list ascii) :
  Path.unsplit (Path.split current chars) = rev current ++ chars.
Proof.
  revert current. induction chars as [|c chars IH]; intros current.
  - cbn. by rewrite app_nil_r.
  - cbn [Path.split]. destruct (Path.is_slash c) eqn:Hc.
    + apply Ascii.eqb_eq in Hc as ->.
      rewrite unsplit_cons by apply path_split_nonempty. by rewrite IH.
    + rewrite IH. cbn. by rewrite <- app_assoc.
Qed.

Lemma resolve_plain (allowAboveRoot : bool) (stack segs : list (list ascii)) :
  forallb plain_segment segs = true ->
  Path.resolve allowAboveRoot stack segs = rev stack ++ segs.
Proof.
  revert stack. induction segs as [|seg segs IH]; intros stack Hall.
  - cbn. by rewrite app_nil_r.
  - cbn in Hall. apply andb_true_iff in Hall as [Hseg Hall].
    destruct seg as [|c seg]; [done|]. unfold plain_segment in Hseg.
    apply andb_true_iff in Hseg as [Hdot Hdotdot].
    apply negb_true_iff in Hdot, Hdotdot.
    cbn [Path.resolve]. rewrite Hdot, Hdotdot, IH by done.
    cbn. by rewrite <- app_assoc.
Qed.

Lemma split_head (c : ascii) (chars : list ascii) :
  Path.is_slash c = true -> Path.split [] (c :: chars) = [] :: Path.split [] chars.
Proof. intros Hc. cbn. by rewrite Hc. Qed.

Lemma split_last_slash (chars : list ascii) :
  chars <> [] -> Path.is_slash (List.last chars " "%char) = true ->
  exists front, Path.split [] chars = front ++ [[]].
Proof.
  intros Hne Hlast. destruct (exists_last Hne) as (front & c & ->).
  rewrite last_last in Hlast. apply Ascii.eqb_eq in Hlast as ->.
  exists (Path.split [] front). apply split_app_slash.
Qed.

Lemma plain_chars_ends (chars : list ascii) :
  forallb plain_segment (Path.split [] chars) = true ->
  exists first rest, chars = first :: rest /\ Path.is_slash first = false
                     /\ Path.is_slash (List.last chars " "%char) = false.
Proof.
  intros Hplain. destruct chars as [|first rest]; [done|].
  exists first, rest. split; [done|]. split.
  - destruct (Path.is_slash first) eqn:Hc; [|done].
    by rewrite split_head in Hplain.
  - destruct (Path.is_slash (List.last (first :: rest) " "%char)) eqn:Hc; [|done].
    destruct (split_last_slash (first :: rest)) as [front Hfront]; [done..|].
    rewrite Hfront, forallb_app in Hplain. cbn in Hplain.
    by rewrite andb_false_r in Hplain.
Qed.

Lemma normalize_chars_plain (chars : list ascii) :
  forallb plain_segment (Path.split [] chars) = true ->
  Path.normalize_chars chars = chars.
Proof.
  intros Hplain. destruct (plain_chars_ends chars Hplain) as (first & rest & -> & Hfirst & Hlast).
  unfold Path.normalize_chars. rewrite Hfirst, Hlast. cbn [negb].
  rewrite resolve_plain by done. cbn [rev app]. by rewrite unsplit_split.
Qed.

Lemma normalize_chars_rooted (chars : list ascii) :
  forallb plain_segment (Path.split [] chars) = true ->
  Path.normalize_chars ("/"%char :: chars) = "/"%char :: chars.
Proof.
  intros Hplain. destruct (plain_chars_ends chars Hplain) as (first & rest & -> & Hfirst & Hlast).
  unfold Path.normalize_chars.
  change (Path.is_slash "/") with true. cbn [negb].
  rewrite split_head by done. cbn [Path.resolve].
  rewrite resolve_plain by done. cbn [rev app]. rewrite unsplit_split. cbn [rev app].
  change (List.last ("/"%char :: first :: rest) " "%char)
    with (List.last (first :: rest) " "%char).
  by rewrite Hlast.
Qed.

Lemma segments_slash (a b : string) :
  segments (a +:+ "/" +:+ b) = segments a ++ segments b.
Proof.
  unfold segments. rewrite list_ascii_of_string_app. apply split_app_slash.
Qed.

Lemma plain_slash (a b : string) : plain (a +:+ "/" +:+ b) = plain a && plain b.
Proof. unfold plain. by rewrite segments_slash, forallb_app. Qed.

Lemma plain_not_empty (a : string) : plain a = true -> a <> EmptyString.
Proof. by intros Ha ->. Qed.

Lemma normalize_plain (path : string) : plain path = true -> Path.normalize path = path.
Proof.
  intros Hplain. unfold Path.normalize. rewrite normalize_chars_plain by done.
  apply string_of_list_ascii_of_string.
Qed.

Lemma join_plain (a b : string) :
  plain a = true -> plain b = true -> Path.join a b = a +:+ "/" +:+ b.
Proof.
  intros Ha Hb. unfold Path.join.
  destruct a as [|c a]; [done|]. destruct b as [|d b]; [done|].
  apply normalize_plain. by rewrite plain_slash, Ha, Hb.
Qed.

Lemma join_rooted (a b : string) :
  rooted a = true -> plain b = true -> Path.join a b = a +:+ "/" +:+ b.
Proof.
  intros Ha Hb. unfold rooted in Ha. apply orb_true_iff in Ha as [Ha|Ha];
    [by apply join_plain|].
  destruct a as [|c a]; [done|]. destruct b as [|d b]; [done|].
  destruct (Ascii.eqb c "/") eqn:Hc; [apply Ascii.eqb_eq in Hc as ->|].
  2: { exfalso. revert Ha Hc. clear. destruct c as [[] [] [] [] [] [] [] []]; by cbn. }
  unfold Path.join, Path.normalize.
  change (list_ascii_of_string (String "/" a +:+ "/" +:+ String d b))
    with ("/"%char :: list_ascii_of_string (a +:+ "/" +:+ String d b)).
  rewrite normalize_chars_rooted.
  - cbn [string_of_list_ascii]. by rewrite string_of_list_ascii_of_string.
  - change (plain (a +:+ "/" +:+ String d b) = true). by rewrite plain_slash, Ha, Hb.
Qed.

Lemma segments_one (a : string) :
  length (segments a) = 1 -> segments a = [list_ascii_of_string a].
Proof.
  intros Hlen. pose proof (unsplit_split [] (list_ascii_of_string a)) as Hun.
  fold (segments a) in Hun. destruct (segments a) as [|seg [|]]; [done| |done].
  cbn in Hun. by rewrite Hun.
Qed.

Lemma segments_nonempty (a : string) : segments a <> [].
Proof. apply path_split_nonempty. Qed.

(** Where [path.join(base, path.join(browser, destination))] lies. *)
Lemma browser_destination (base browser destination : string) :
  rooted base = true -> plain_name browser = true -> plain destination = true ->
  let dest := Path.join base (Path.join browser destination) in
  dest = base +:+ "/" +:+ browser +:+ "/" +:+ destination
  /\ under (Path.join base browser) dest
  /\ ~ directly_in base dest.
Proof.
  intros Hbase [Hbrowser Hone%Nat.eqb_eq]%andb_true_iff Hdest.
  cbn zeta. rewrite (join_plain browser destination) by done.
  rewrite (join_rooted base) by (by rewrite ?plain_slash, ?Hbrowser, ?Hdest).
  rewrite !(join_rooted base) by done.
  split_and!; [done|exists destination; by rewrite !append_assoc|].
  intros (name & Hname & Hrest). apply append_inv_head in Hrest.
  apply (f_equal segments) in Hrest.
  change ("/" +:+ browser +:+ "/" +:+ destination)
    with (EmptyString +:+ "/" +:+ (browser +:+ "/" +:+ destination)) in Hrest.
  change ("/" +:+ name) with (EmptyString +:+ "/" +:+ name) in Hrest.
  rewrite !segments_slash in Hrest. apply (f_equal length) in Hrest.
  rewrite !length_app, Hname, Hone in Hrest.
  pose proof (segments_nonempty destination). destruct (segments destination); [done|].
  cbn in Hrest. lia.
Qed.

Lemma browser_destination_apart (base browser other destination : string) :
  rooted base = true -> plain_name browser = true -> plain_name other = true ->
  other <> browser -> plain destination = true ->
  ~ under (Path.join base other) (Path.join base (Path.join browser destination)).
Proof.
  intros Hbase [Hbrowser Hone%Nat.eqb_eq]%andb_true_iff
    [Hother Hone'%Nat.eqb_eq]%andb_true_iff Hne Hdest.
  rewrite (join_plain browser destination) by done.
  rewrite (join_rooted base (browser +:+ "/" +:+ destination))
    by (by rewrite ?plain_slash, ?Hbrowser, ?Hdest).
  rewrite (join_rooted base other) by done.
  intros [rest Hrest]. rewrite !append_assoc in Hrest. apply append_inv_head in Hrest.
  apply (f_equal segments) in Hrest.
  change ("/" +:+ browser +:+ "/" +:+ destination)
    with (EmptyString +:+ "/" +:+ (browser +:+ "/" +:+ destination)) in Hrest.
  change ("/" +:+ other +:+ "/" +:+ rest)
    with (EmptyString +:+ "/" +:+ (other +:+ "/" +:+ rest)) in Hrest.
  rewrite !segments_slash, (segments_one browser), (segments_one other) in Hrest by done.
  cbn in Hrest. injection Hrest as Heq _. apply Hne.
  by rewrite <- (string_of_list_ascii_of_string other), <- Heq,
    string_of_list_ascii_of_string.
Qed.

End PathFacts.

(** ** [writeResultFiles] *)

(** Modelled from the spec: [NormalizedOutputOptions] is declared in
    [builders/application/options.ts], which is not part of the sources at
    hand; these are the four fields [writeResultFiles] destructures, the
    DestinationLayout of the specification. *)
Record NormalizedOutputOptions := MkOptions
  { base : string; browser : string; media : string; server : string }.

(** Modelled from the spec: [BuildOutputAsset] is declared in
    [bundler-execution-result.ts], which is not part of the sources at hand;
    these are the two fields [writeResultFiles] destructures, the
    AssetCopyRecord of the specification. *)
Record BuildOutputAsset := MkAsset { source : string; destination : string }.

Definition double_quote : string := String (ascii_of_nat 34) EmptyString.

Module Writer.

Definition Error := string.

(** The calls made to [node:fs/promises]. *)
Inductive FsOp :=
  | Mkdir (path : string)                      (* [fs.mkdir(path, { recursive: true })] *)
  | WriteFile (path : string) (data : Contents)
  | CopyFile (src dest : string).              (* with [COPYFILE_FICLONE] *)

Definition is_mkdir (op : FsOp) : Prop :=
  match op with Mkdir _ => True | _ => False end.

#[global] Instance is_mkdir_dec (op : FsOp) : Decision (is_mkdir op).
Proof. destruct op; cbn; apply _. Defined.

(** What the callbacks share: the set [directoryExists] and the file system,
    of which the calls received are recorded. *)
Record world := MkWorld { directoryExists : gset string; calls : list FsOp }.

Definition mkdir_calls (w : world) : nat := length (filter is_mkdir (calls w)).

(** Where a callback can be suspended. *)
Inductive cont :=
  | AwaitMkdir (basePath : string) (next : FsOp)
      (* in [ensureDirectoryExists], at [await fs.mkdir]; [next] is the call
         the callback makes once the directory is there *)
  | AwaitEnsured (next : FsOp)
      (* at [await ensureDirectoryExists(destPath)], which has returned *)
  | AwaitWritten.
      (* at [await fs.writeFile] or [await fs.copyFile] *)

Inductive result := Ok | Err (e : Error).

Abbreviation task := (Emit.task cont Error).

Section Callbacks.

Variable join : string -> string -> string.
Variable dirname : string -> string.
Variable options : NormalizedOutputOptions.

(** [ensureDirectoryExists(destPath)] up to its [await]: [Some basePath] when
    it is suspended in [fs.mkdir], [None] when it has returned. *)
Definition ensureDirectoryExists (destPath : string) (w : world)
  : world * option string :=
  let basePath := dirname destPath in
  if decide (basePath ∈ directoryExists w) then (w, None)
  else (MkWorld (directoryExists w)
                (calls w ++ [Mkdir (join (base options) basePath)]),
        Some basePath).

(** [await ensureDirectoryExists(destPath)] followed by the call [next]. *)
Definition ensure_then (destPath : string) (next : FsOp) (w : world) : world * task :=
  let '(w', pending) := ensureDirectoryExists destPath w in
  (w', Emit.Suspended
         match pending with
         | Some basePath => AwaitMkdir basePath next
         | None => AwaitEnsured next
         end).

(** The [switch (file.type)]. *)
Definition outputDir (type : BuildOutputFileType) : option string :=
  match type with
  | Browser | Media => Some (browser options)
  | Server => Some (server options)
  | Root => Some EmptyString
  | OtherType _ => None
  end.

Definition unhandled (file : BuildOutputFile) : Error :=
  "Unhandled write for file " +:+ double_quote +:+ BuildOutputFile.path file
    +:+ double_quote +:+ " with type " +:+ double_quote
    +:+ type_name (BuildOutputFile.type file) +:+ double_quote +:+ ".".

(** The callback of the first [emitFilesToDisk], up to its first [await]. *)
Definition writeOutputFile (file : BuildOutputFile) (w : world) : world * task :=
  match outputDir (BuildOutputFile.type file) with
  | None => (w, Emit.Failed (unhandled file))
  | Some outputDir =>
      let destPath := join outputDir (BuildOutputFile.path file) in
      ensure_then destPath
        (WriteFile (join (base options) destPath) (BuildOutputFile.contents file)) w
  end.

(** The callback of the second [emitFilesToDisk], up to its first [await]. *)
Definition copyAssetFile (asset : BuildOutputAsset) (w : world) : world * task :=
  let destPath := join (browser options) (destination asset) in
  ensure_then destPath (CopyFile (source asset) (join (base options) destPath)) w.

(** Either callback resumed.  After a successful [fs.mkdir] the directory is
    recorded and the file is written or copied; an error of the awaited call
    is thrown by the [await] and rejects the callback's promise. *)
Definition resume (k : cont) (r : result) (w : world) : option (world * task) :=
  match k, r with
  | AwaitMkdir basePath next, Ok =>
      Some (MkWorld ({[basePath]} ∪ directoryExists w) (calls w ++ [next]),
            Emit.Suspended AwaitWritten)
  | AwaitMkdir _ _, Err e => Some (w, Emit.Failed e)
  | AwaitEnsured next, Ok =>
      Some (MkWorld (directoryExists w) (calls w ++ [next]), Emit.Suspended AwaitWritten)
  | AwaitEnsured _, Err _ => None
  | AwaitWritten, Ok => Some (w, Emit.Finished)
  | AwaitWritten, Err e => Some (w, Emit.Failed e)
  end.

(** *** The two uses of [emitFilesToDisk], one after the other *)

Variable outputFiles : list BuildOutputFile.
Variable assetFiles : option (list BuildOutputAsset).

Abbreviation emit_state := (Emit.state world cont Error).

Record state := MkState
  { outputs : emit_state;            (* [emitFilesToDisk(outputFiles, ...)] *)
    assets : option emit_state;      (* [emitFilesToDisk(assetFiles, ...)], once called *)
    returned : bool }.               (* [writeResultFiles] has returned *)

Definition init : state :=
  MkState (Emit.init (MkWorld ∅ [])) None false.

Inductive event :=
  | Outputs (ev : Emit.event result)   (* a turn of the first [emitFilesToDisk] *)
  | Continue                           (* [writeResultFiles] resumes after its first [await] *)
  | Assets (ev : Emit.event result).   (* a turn of the second [emitFilesToDisk] *)

(** [assetFiles?.length], as a condition. *)
Definition assets_to_copy : option (list BuildOutputAsset) :=
  match assetFiles with
  | Some ((_ :: _) as l) => Some l
  | _ => None
  end.

Definition step (s : state) (ev : event) : option state :=
  match ev with
  | Outputs ev =>
      s' ← Emit.step writeOutputFile resume outputFiles (outputs s) ev;
      Some (MkState s' (assets s) (returned s))
  | Continue =>
      match Emit.outcome (outputs s), assets s, returned s with
      | Emit.Resolved, None, false =>
          match assets_to_copy with
          | Some _ =>
              Some (MkState (outputs s) (Some (Emit.init (Emit.shared (outputs s)))) false)
          | None => Some (MkState (outputs s) None true)
          end
      | _, _, _ => None
      end
  | Assets ev =>
      match assets s, assets_to_copy with
      | Some a, Some l =>
          a' ← Emit.step copyAssetFile resume l a ev;
          Some (MkState (outputs s) (Some a') (returned s))
      | _, _ => None
      end
  end.

Fixpoint run (s : state) (evs : list event) : option state :=
  match evs with
  | [] => Some s
  | ev :: evs' =>
      match step s ev with
      | Some s' => run s' evs'
      | None => None
      end
  end.

(** How the promise of [writeResultFiles] stands. *)
Inductive settlement := Pending | Fulfilled | Rejected (e : Error).

Definition promise (s : state) : settlement :=
  match Emit.outcome (outputs s) with
  | Emit.Running => Pending
  | Emit.Rejected _ e => Rejected e
  | Emit.Resolved =>
      if returned s then Fulfilled
      else match assets s with
           | None => Pending
           | Some a =>
               match Emit.outcome a with
               | Emit.Running => Pending
               | Emit.Resolved => Fulfilled
               | Emit.Rejected _ e => Rejected e
               end
           end
  end.

Definition current_world (s : state) : world :=
  match assets s with
  | Some a => Emit.shared a
  | None => Emit.shared (outputs s)
  end.

(** A callback with a file-system call pending. *)
Definition has_call_pending (t : task) : Prop :=
  match t with
  | Emit.Suspended (AwaitMkdir _ _) | Emit.Suspended AwaitWritten => True
  | _ => False
  end.

#[global] Instance has_call_pending_dec (t : task) : Decision (has_call_pending t).
Proof. destruct t as [[| |]| | |]; cbn; apply _. Defined.

Definition all_tasks (s : state) : list task :=
  Emit.tasks (outputs s) ++ from_option Emit.tasks [] (assets s).

(** The file-system calls in flight. *)
Definition calls_in_flight (s : state) : nat :=
  length (filter has_call_pending (all_tasks s)).

Definition all_waves (s : state) : list (list nat) :=
  Emit.waves (outputs s) ++ from_option Emit.waves [] (assets s).

End Callbacks.

End Writer.

(** *** Invariants of what the callbacks share *)

Section EmitLift.

Context {T G K R E : Type}.
Variable start : T -> G -> G * Emit.task K E.
Variable resume : K -> R -> G -> option (G * Emit.task K E).
Variable files : list T.

(** A property of the shared state, the files handled so far and their
    promises, kept by every call and every resumption of the callback. *)
Variable P : G -> list T -> list (Emit.task K E) -> Prop.

Hypothesis P_start : forall g fs ts f g' t,
  P g fs ts -> length fs = length ts -> start f g = (g', t) ->
  P g' (fs ++ [f]) (ts ++ [t]).

Hypothesis P_resume : forall g fs ts i f k r g' t,
  P g fs ts -> fs !! i = Some f -> ts !! i = Some (Emit.Suspended k) ->
  resume k r g = Some (g', t) ->
  P g' fs (<[i := Emit.settle t]> ts).

Lemma launch_keeps (group : list T) : forall g fs ts g' actions,
  P g fs ts -> length fs = length ts ->
  Emit.launch start g group = (g', actions) ->
  P g' (fs ++ take (length actions) group) (ts ++ actions).
Proof.
  induction group as [|f group IH]; intros g fs ts g' actions HP Hlen Hl; cbn in Hl.
  - injection Hl as <- <-. by rewrite !app_nil_r.
  - destruct (start f g) as [g1 t] eqn:Hs.
    pose proof (P_start g fs ts f g1 t HP Hlen Hs) as HP1.
    assert ((g', actions) = (g1, [t])
            \/ exists g2 ts', Emit.launch start g1 group = (g2, ts')
                              /\ g' = g2 /\ actions = t :: ts') as [[= -> ->]|Hrest].
    { destruct t; [right|right|right|by left];
        destruct (Emit.launch start g1 group) as [g2 ts']; exists g2, ts';
        by injection Hl as <- <-. }
    + cbn. by rewrite take_0.
    + destruct Hrest as (g2 & ts' & Hrest & -> & ->). cbn [length take].
      rewrite (cons_middle f fs), (cons_middle t ts ts'), !app_assoc.
      apply (IH g1); [exact HP1| |exact Hrest].
      rewrite !length_app. cbn. lia.
Qed.

Definition kept (s : Emit.state G K E) : Prop :=
  P (Emit.shared s) (take (Emit.fileIndex s) files) (Emit.tasks s).

Lemma step_keeps s ev s' :
  emit_inv files s -> kept s -> Emit.step start resume files s ev = Some s' -> kept s'.
Proof.
  intros Hinv HP Hstep. unfold kept in *. destruct ev as [|i r]; cbn in Hstep.
  - unfold Emit.advance in Hstep.
    destruct (Emit.outcome s); try discriminate.
    destruct (forallb _ _); [|discriminate].
    destruct (Nat.ltb_spec (Emit.fileIndex s) (length files)) as [Hmore|Hend].
    + destruct (Emit.launch _ _ _) as [g actions] eqn:Hl. injection Hstep as <-. cbn.
      assert (length (take (Emit.fileIndex s) files) = length (Emit.tasks s)) as Hlen.
      { rewrite length_take, (inv_len files s Hinv). lia. }
      pose proof (launch_keeps _ _ _ _ _ _ HP Hlen Hl) as Hk.
      apply launch_length in Hl. rewrite length_take, length_drop in Hl.
      rewrite take_take, Nat.min_l, take_take_drop in Hk by lia.
      exact Hk.
    + injection Hstep as <-. exact HP.
  - unfold Emit.complete in Hstep.
    destruct (Emit.tasks s !! i) as [[k| | |]|] eqn:Hi; try discriminate.
    destruct (resume k r (Emit.shared s)) as [[g t]|] eqn:Hr; [|discriminate].
    injection Hstep as <-. cbn.
    assert (i < Emit.fileIndex s) as Hlt.
    { rewrite <- (inv_len files s Hinv). by apply lookup_lt_Some in Hi. }
    destruct (lookup_lt_is_Some_2 (take (Emit.fileIndex s) files) i) as [f Hf].
    { rewrite length_take. pose proof (inv_le files s Hinv). lia. }
    exact (P_resume _ _ _ i f k r g t HP Hf Hi Hr).
Qed.

Lemma run_keeps evs : forall s s',
  emit_inv files s -> kept s ->
  Emit.run start resume files s evs = Some s' -> kept s'.
Proof.
  induction evs as [|ev evs IH]; intros s s' Hinv HP Hrun; cbn in Hrun.
  - by injection Hrun as <-.
  - destruct (Emit.step start resume files s ev) as [s1|] eqn:Hstep; [|discriminate].
    apply (IH s1 s'); [|by apply (step_keeps s ev)|exact Hrun].
    exact (emit_step_inv start resume files s ev s1 Hinv Hstep).
Qed.

End EmitLift.

Section EmitMonotone.

Context {T G K R E : Type}.
Variable start : T -> G -> G * Emit.task K E.
Variable resume : K -> R -> G -> option (G * Emit.task K E).
Variable files : list T.

(** A preorder on shared states along which every callback moves. *)
Variable before : G -> G -> Prop.
Context `{!PreOrder before}.

Hypothesis before_start : forall f g g' t, start f g = (g', t) -> before g g'.
Hypothesis before_resume : forall k r g g' t, resume k r g = Some (g', t) -> before g g'.

Lemma launch_monotone (group : list T) : forall g g' actions,
  Emit.launch start g group = (g', actions) -> before g g'.
Proof.
  induction group as [|f group IH]; intros g g' actions Hl; cbn in Hl.
  - by injection Hl as <- <-.
  - destruct (start f g) as [g1 t] eqn:Hs.
    pose proof (before_start _ _ _ _ Hs) as Hb.
    destruct (Emit.launch start g1 group) as [g2 ts'] eqn:Hrest.
    destruct t; injection Hl as <- <-; try exact Hb;
      (etrans; [exact Hb|exact (IH _ _ _ Hrest)]).
Qed.

Lemma step_monotone s ev s' :
  Emit.step start resume files s ev = Some s' -> before (Emit.shared s) (Emit.shared s').
Proof.
  destruct ev as [|i r]; cbn.
  - unfold Emit.advance. destruct (Emit.outcome s); try discriminate.
    destruct (forallb _ _); [|discriminate]. destruct (_ <? _).
    + destruct (Emit.launch _ _ _) as [g actions] eqn:Hl. intros [= <-]. cbn.
      exact (launch_monotone _ _ _ _ Hl).
    + by intros [= <-].
  - unfold Emit.complete. destruct (Emit.tasks s !! i) as [[k| | |]|]; try discriminate.
    destruct (resume k r (Emit.shared s)) as [[g t]|] eqn:Hr; [|discriminate].
    intros [= <-]. cbn. exact (before_resume _ _ _ _ _ Hr).
Qed.

Lemma run_monotone evs : forall s s',
  Emit.run start resume files s evs = Some s' -> before (Emit.shared s) (Emit.shared s').
Proof.
  induction evs as [|ev evs IH]; intros s s' Hrun; cbn in Hrun.
  - by injection Hrun as <-.
  - destruct (Emit.step start resume files s ev) as [s1|] eqn:Hstep; [|discriminate].
    etrans; [exact (step_monotone _ _ _ Hstep)|exact (IH _ _ Hrun)].
Qed.

End EmitMonotone.

(** *** Counting the directories created

    The files are handled in groups, and [directoryExists] is the same for
    all the files of a group: the directories of the groups before. *)

(** The groups that [emitFilesToDisk] makes of its files. *)
Definition groups_of {A} (l : list A) : list (list A) :=
  map (fun k => take MAX_CONCURRENT_WRITES (drop (MAX_CONCURRENT_WRITES * k) l))
      (seq 0 ((length l + 63) / MAX_CONCURRENT_WRITES)).

(** The calls of [fs.mkdir] made for groups of directories, one group after
    the other, when the directories of [recorded] are in [directoryExists]
    at the start: one for every member of a group that is not recorded
    when the group begins. *)
Fixpoint creations (recorded : gset string) (groups : list (list string)) : nat :=
  match groups with
  | [] => 0
  | group :: rest =>
      length (filter (.∉ recorded) group)
      + creations (recorded ∪ list_to_set group) rest
  end.

(** No group holds twice a directory that is not recorded when it begins. *)
Fixpoint clash_free (recorded : gset string) (groups : list (list string)) : Prop :=
  match groups with
  | [] => True
  | group :: rest =>
      NoDup (filter (.∉ recorded) group)
      /\ clash_free (recorded ∪ list_to_set group) rest
  end.

Section CreationFacts.

Lemma size_list_to_set_le (l : list string) :
  size (list_to_set l : gset string) <= length l.
Proof.
  induction l as [|x l IH]; [done|]. cbn.
  destruct (decide (x ∈ (list_to_set l : gset string))) as [Hin|Hnin].
  - replace ({[x]} ∪ list_to_set l) with (list_to_set l : gset string) by set_solver. lia.
  - rewrite size_union, size_singleton by set_solver. lia.
Qed.

Lemma size_list_to_set_eq (l : list string) :
  size (list_to_set l : gset string) = length l <-> NoDup l.
Proof.
  split; [|apply size_list_to_set].
  induction l as [|x l IH]; [constructor|]. cbn. intros Hsize.
  pose proof (size_list_to_set_le l) as Hle.
  destruct (decide (x ∈ (list_to_set l : gset string))) as [Hin|Hnin].
  - replace ({[x]} ∪ list_to_set l) with (list_to_set l : gset string) in Hsize
      by set_solver. lia.
  - rewrite size_union, size_singleton in Hsize by set_solver.
    constructor; [by rewrite <- (elem_of_list_to_set (C := gset string))|apply IH; lia].
Qed.

Lemma remove_dups_size (l : list string) :
  length (remove_dups l) = size (list_to_set l : gset string).
Proof.
  rewrite <- (size_list_to_set (C := gset string)) by apply NoDup_remove_dups.
  f_equal. apply set_eq. intros x.
  by rewrite !elem_of_list_to_set, elem_of_remove_dups.
Qed.

Lemma list_to_set_filter_notin (recorded : gset string) (l : list string) :
  (list_to_set (filter (.∉ recorded) l) : gset string) = list_to_set l ∖ recorded.
Proof.
  apply set_eq. intros x.
  rewrite elem_of_list_to_set, list_elem_of_filter, elem_of_difference, elem_of_list_to_set.
  tauto.
Qed.

Lemma creations_app (recorded : gset string) (gs gs' : list (list string)) :
  creations recorded (gs ++ gs')
  = creations recorded gs + creations (recorded ∪ list_to_set (concat gs)) gs'.
Proof.
  revert recorded. induction gs as [|g gs IH]; intros recorded; cbn.
  - by rewrite (right_id_L ∅ (∪)).
  - rewrite IH, list_to_set_app_L, (assoc_L (∪)). lia.
Qed.

Lemma creations_distinct (recorded : gset string) (gs : list (list string)) :
  size ((list_to_set (concat gs) : gset string) ∖ recorded) <= creations recorded gs
  /\ (creations recorded gs = size ((list_to_set (concat gs) : gset string) ∖ recorded)
      <-> clash_free recorded gs).
Proof.
  revert recorded. induction gs as [|g gs IH]; intros recorded; cbn [concat creations clash_free].
  - replace ((list_to_set [] : gset string) ∖ recorded) with (∅ : gset string) by set_solver.
    rewrite size_empty. by split.
  - destruct (IH (recorded ∪ list_to_set g)) as [Hle Hiff].
    pose proof (size_list_to_set_le (filter (.∉ recorded) g)) as Hle1.
    pose proof (size_list_to_set_eq (filter (.∉ recorded) g)) as Hiff1.
    rewrite list_to_set_filter_notin in Hle1, Hiff1.
    assert (size ((list_to_set (g ++ concat gs) : gset string) ∖ recorded)
            = size ((list_to_set g : gset string) ∖ recorded)
              + size ((list_to_set (concat gs) : gset string)
                        ∖ (recorded ∪ list_to_set g))) as ->.
    { rewrite <- size_union by set_solver. f_equal. apply set_eq. intros x.
      rewrite list_to_set_app_L. set_unfold.
      destruct (decide (x ∈ g)); destruct (decide (x ∈ recorded)); naive_solver. }
    split; [lia|]. rewrite <- Hiff, <- Hiff1. lia.
Qed.

(** The calls are as many as the distinct directories exactly when no group
    holds an unrecorded directory twice. *)
Lemma creations_exact (gs : list (list string)) :
  length (remove_dups (concat gs)) <= creations ∅ gs
  /\ (creations ∅ gs = length (remove_dups (concat gs)) <-> clash_free ∅ gs).
Proof.
  rewrite remove_dups_size.
  replace (list_to_set (concat gs) : gset string)
    with ((list_to_set (concat gs) : gset string) ∖ ∅) by set_solver.
  apply creations_distinct.
Qed.

Lemma concat_groups_of {A} (l : list A) : concat (groups_of l) = l.
Proof.
  unfold groups_of.
  assert (forall m, concat (map (fun k => take MAX_CONCURRENT_WRITES
                                     (drop (MAX_CONCURRENT_WRITES * k) l)) (seq 0 m))
                    = take (MAX_CONCURRENT_WRITES * m) l) as ->.
  { induction m as [|m IH]; [by rewrite Nat.mul_0_r, take_0|].
    rewrite seq_S, map_app, concat_app, IH. cbn [map concat]. rewrite app_nil_r.
    rewrite take_take_drop. f_equal. lia. }
  apply take_ge. unfold MAX_CONCURRENT_WRITES.
  pose proof (Nat.div_mod_eq (length l + 63) 64).
  pose proof (Nat.mod_upper_bound (length l + 63) 64). lia.
Qed.

Lemma omap_concat {A B} (f : A -> option B) (gs : list (list A)) :
  concat (map (omap f) gs) = omap f (concat gs).
Proof.
  induction gs as [|g gs IH]; [done|]. cbn. by rewrite omap_app, IH.
Qed.

Lemma omap_Some_map {A B} (f : A -> B) (l : list A) :
  omap (fun x => Some (f x)) l = map f l.
Proof. induction l as [|x l IH]; [done|]. cbn. by rewrite IH. Qed.

Lemma remove_dups_fmap_length {A B} `{EqDecision A, EqDecision B}
    (f : A -> B) (l : list A) :
  (forall x y, x ∈ l -> y ∈ l -> f x = f y -> x = y) ->
  length (remove_dups (map f l)) = length (remove_dups l).
Proof.
  intros Hinj. rewrite <- (length_fmap f (remove_dups l)).
  apply Permutation_length, NoDup_Permutation.
  - apply NoDup_remove_dups.
  - apply NoDup_fmap_2_strong; [|apply NoDup_remove_dups].
    intros x y Hx Hy. rewrite elem_of_remove_dups in Hx, Hy. by apply Hinj.
  - intros y. rewrite elem_of_remove_dups, !list_elem_of_fmap.
    by setoid_rewrite elem_of_remove_dups.
Qed.

End CreationFacts.

Section WriterPhase.

Import Writer.

Variable join : string -> string -> string.
Variable dirname : string -> string.
Variable options : NormalizedOutputOptions.

(** What a callback is about to do for its file: throw, or make sure the
    directory of [destPath] exists and then make one call. *)
Definition plan_output (file : BuildOutputFile) : Error + (string * FsOp) :=
  match outputDir options (BuildOutputFile.type file) with
  | None => inl (unhandled file)
  | Some dir =>
      let destPath := join dir (BuildOutputFile.path file) in
      inr (destPath,
           WriteFile (join (base options) destPath) (BuildOutputFile.contents file))
  end.

Definition plan_asset (asset : BuildOutputAsset) : Error + (string * FsOp) :=
  let destPath := join (browser options) (destination asset) in
  inr (destPath, CopyFile (source asset) (join (base options) destPath)).

Definition planned {T} (plan : T -> Error + (string * FsOp)) (file : T) (w : world)
  : world * task :=
  match plan file with
  | inl e => (w, Emit.Failed e)
  | inr (destPath, next) => ensure_then join dirname options destPath next w
  end.

Lemma writeOutputFile_planned file w :
  writeOutputFile join dirname options file w = planned plan_output file w.
Proof.
  unfold writeOutputFile, planned, plan_output.
  by destruct (outputDir options (BuildOutputFile.type file)).
Qed.

Lemma copyAssetFile_planned asset w :
  copyAssetFile join dirname options asset w = planned plan_asset asset w.
Proof. reflexivity. Qed.

(** The shared state only grows. *)
Definition extends (w w' : world) : Prop :=
  directoryExists w ⊆ directoryExists w' /\ calls w `prefix_of` calls w'.

#[global] Instance extends_preorder : PreOrder extends.
Proof.
  split.
  - intros w. split; reflexivity.
  - intros w1 w2 w3 [Hd1 Hc1] [Hd2 Hc2]. split; etrans; eassumption.
Qed.

Lemma extends_call w w' op : extends w w' -> op ∈ calls w -> op ∈ calls w'.
Proof. intros [_ [k ->]] Hin. apply elem_of_app. by left. Qed.

Context {T : Type}.
Variable plan : T -> Error + (string * FsOp).
Hypothesis plan_not_mkdir : forall f dest next, plan f = inr (dest, next) -> ~ is_mkdir next.

(** The world in which the phase starts. *)
Variable w0 : world.

(** A call is justified by a file handled so far. *)
Definition justified (fs : list T) (op : FsOp) : Prop :=
  exists f dest next, f ∈ fs /\ plan f = inr (dest, next)
    /\ (op = Mkdir (join (base options) (dirname dest)) \/ op = next).

Definition task_ok (w : world) (f : T) (t : task) : Prop :=
  match t with
  | Emit.Suspended (AwaitMkdir basePath next) =>
      exists dest, plan f = inr (dest, next) /\ basePath = dirname dest
                   /\ Mkdir (join (base options) basePath) ∈ calls w
  | Emit.Suspended (AwaitEnsured next) =>
      exists dest, plan f = inr (dest, next) /\ dirname dest ∈ directoryExists w
  | Emit.Suspended AwaitWritten | Emit.Finished =>
      exists dest next, plan f = inr (dest, next) /\ next ∈ calls w
                        /\ dirname dest ∈ directoryExists w
  | Emit.Failed _ => True
  | Emit.Threw _ => False
  end.

Record phase_inv (w : world) (fs : list T) (ts : list task) : Prop := MkPhaseInv
  { pi_sound : forall op, op ∈ calls w -> op ∈ calls w0 \/ justified fs op;
    pi_dirs : forall d, d ∈ directoryExists w -> Mkdir (join (base options) d) ∈ calls w;
    pi_count : mkdir_calls w <= mkdir_calls w0 + length ts;
    pi_tasks : Forall2 (task_ok w) fs ts }.

Lemma task_ok_extends w w' f t : extends w w' -> task_ok w f t -> task_ok w' f t.
Proof.
  intros Hext. pose proof (fun op => extends_call w w' op Hext) as Hcall.
  destruct Hext as [Hd _].
  destruct t as [[bp next|next|]| |e|e]; cbn; [| | | |done..].
  - intros (dest & Hp & -> & Hin). exists dest. split_and!; [done..|]. by apply Hcall.
  - intros (dest & Hp & Hin). exists dest. split; [done|]. by apply Hd.
  - intros (dest & next & Hp & Hin & Hdir). exists dest, next.
    split_and!; [done| |by apply Hd]. by apply Hcall.
  - intros (dest & next & Hp & Hin & Hdir). exists dest, next.
    split_and!; [done| |by apply Hd]. by apply Hcall.
Qed.

Lemma justified_app fs fs' op : justified fs op -> justified (fs ++ fs') op.
Proof.
  intros (f & dest & next & Hf & Hp & Hop). exists f, dest, next.
  split; [|done]. apply elem_of_app. by left.
Qed.

Lemma mkdir_calls_snoc w ds op :
  mkdir_calls (MkWorld ds (calls w ++ [op]))
  = mkdir_calls w + (if decide (is_mkdir op) then 1 else 0).
Proof.
  unfold mkdir_calls. cbn. rewrite filter_app, length_app. f_equal.
  rewrite filter_cons, filter_nil. by destruct (decide (is_mkdir op)).
Qed.

Lemma phase_init :
  (forall d, d ∈ directoryExists w0 -> Mkdir (join (base options) d) ∈ calls w0) ->
  phase_inv w0 [] [].
Proof.
  intros Hd. split; [by left|exact Hd|lia|constructor].
Qed.

Lemma planned_keeps w fs ts f w' t :
  phase_inv w fs ts -> length fs = length ts -> planned plan f w = (w', t) ->
  phase_inv w' (fs ++ [f]) (ts ++ [t]).
Proof.
  intros [Hs Hd Hc Ht] Hlen Hstart. unfold planned in Hstart.
  destruct (plan f) as [e|[dest next]] eqn:Hplan.
  - injection Hstart as <- <-. split.
    + intros op Hop. destruct (Hs op Hop); [by left|right; by apply justified_app].
    + exact Hd.
    + rewrite length_app. cbn. lia.
    + apply Forall2_app; [exact Ht|]. by repeat constructor.
  - unfold ensure_then, ensureDirectoryExists in Hstart.
    destruct (decide (dirname dest ∈ directoryExists w)) as [Hin|Hnin];
      injection Hstart as <- <-.
    + split.
      * intros op Hop. destruct (Hs op Hop); [by left|right; by apply justified_app].
      * exact Hd.
      * rewrite length_app. cbn. lia.
      * apply Forall2_app; [exact Ht|]. repeat constructor. cbn. eauto.
    + set (w' := MkWorld (directoryExists w)
                   (calls w ++ [Mkdir (join (base options) (dirname dest))])).
      assert (extends w w') as Hext by (split; [done|by eexists]).
      split.
      * intros op Hop. cbn in Hop. apply elem_of_app in Hop as [Hop|Hop].
        -- destruct (Hs op Hop); [by left|right; by apply justified_app].
        -- apply list_elem_of_singleton in Hop as ->. right.
           exists f, dest, next. split_and!; [|done|by left].
           apply elem_of_app. right. by apply list_elem_of_singleton.
      * intros d Hdin. apply (extends_call w w' _ Hext). by apply Hd.
      * unfold w'. rewrite mkdir_calls_snoc, length_app. cbn.
        destruct (decide _); lia.
      * apply Forall2_app.
        -- eapply Forall2_impl; [exact Ht|]. intros f' t'. by apply task_ok_extends.
        -- repeat constructor. cbn. exists dest. split_and!; [done..|].
           apply elem_of_app. right. by apply list_elem_of_singleton.
Qed.

Lemma resume_keeps w fs ts i f k r w' t :
  phase_inv w fs ts -> fs !! i = Some f -> ts !! i = Some (Emit.Suspended k) ->
  resume k r w = Some (w', t) ->
  phase_inv w' fs (<[i := t]> ts).
Proof.
  intros [Hs Hd Hc Ht] Hf Hi Hres.
  pose proof (Forall2_lookup_lr _ _ _ _ _ _ Ht Hf Hi) as Hok.
  assert (forall w1 t1, extends w w1 -> task_ok w1 f t1 ->
                        Forall2 (task_ok w1) fs (<[i := t1]> ts)) as Hins.
  { intros w1 t1 Hext Ht1. rewrite <- (list_insert_id fs i f Hf).
    apply Forall2_insert; [|exact Ht1].
    eapply Forall2_impl; [exact Ht|]. intros f' t'. by apply task_ok_extends. }
  destruct k as [bp next|next|], r as [|e]; cbn in Hres, Hok;
    try discriminate; injection Hres as <- <-.
  - (* the directory has been made *)
    destruct Hok as (dest & Hp & -> & Hmk).
    set (w' := MkWorld ({[dirname dest]} ∪ directoryExists w) (calls w ++ [next])).
    assert (extends w w') as Hext by (split; [set_solver|by eexists]).
    split.
    + intros op Hop. cbn in Hop. apply elem_of_app in Hop as [Hop|Hop]; [by apply Hs|].
      apply list_elem_of_singleton in Hop as ->. right.
      exists f, dest, next. split_and!; [|done|by right].
      by apply list_elem_of_lookup_2 in Hf.
    + intros d Hdin. apply (extends_call w w' _ Hext).
      cbn in Hdin. apply elem_of_union in Hdin as [Hdin|Hdin]; [|by apply Hd].
      by apply elem_of_singleton in Hdin as ->.
    + unfold w'. rewrite mkdir_calls_snoc, length_insert.
      destruct (decide (is_mkdir next)) as [Hm|]; [|lia].
      by destruct (plan_not_mkdir f dest next Hp).
    + apply Hins; [exact Hext|]. cbn. exists dest, next. split_and!; [done| |set_solver].
      apply elem_of_app. right. by apply list_elem_of_singleton.
  - (* [fs.mkdir] has failed *)
    split; [exact Hs|exact Hd|by rewrite length_insert|].
    by apply Hins.
  - (* [ensureDirectoryExists] had returned *)
    destruct Hok as (dest & Hp & Hdir).
    set (w' := MkWorld (directoryExists w) (calls w ++ [next])).
    assert (extends w w') as Hext by (split; [done|by eexists]).
    split.
    + intros op Hop. cbn in Hop. apply elem_of_app in Hop as [Hop|Hop]; [by apply Hs|].
      apply list_elem_of_singleton in Hop as ->. right.
      exists f, dest, next. split_and!; [|done|by right].
      by apply list_elem_of_lookup_2 in Hf.
    + intros d Hdin. apply (extends_call w w' _ Hext). by apply Hd.
    + unfold w'. rewrite mkdir_calls_snoc, length_insert.
      destruct (decide (is_mkdir next)) as [Hm|]; [|lia].
      by destruct (plan_not_mkdir f dest next Hp).
    + apply Hins; [exact Hext|]. cbn. exists dest, next. split_and!; [done| |done].
      apply elem_of_app. right. by apply list_elem_of_singleton.
  - (* the file has been written or copied *)
    split; [exact Hs|exact Hd|by rewrite length_insert|].
    by apply Hins.
  - (* the write or the copy has failed *)
    split; [exact Hs|exact Hd|by rewrite length_insert|].
    by apply Hins.
Qed.

Lemma planned_extends f w w' t : planned plan f w = (w', t) -> extends w w'.
Proof.
  unfold planned. destruct (plan f) as [e|[dest next]]; [by intros [= <- <-]|].
  unfold ensure_then, ensureDirectoryExists.
  destruct (decide _); intros [= <- <-]; [done|]. split; [done|by eexists].
Qed.

(** The callbacks are [async] functions: neither throws. *)
Lemma resume_settled k r w w' t : resume k r w = Some (w', t) -> Emit.settle t = t.
Proof.
  destruct k as [bp next|next|], r as [|e]; cbn; try discriminate; by intros [= <- <-].
Qed.

Lemma tasks_threw_free w fs ts : phase_inv w fs ts -> threw_free ts.
Proof.
  intros [_ _ _ Ht] i e Hi.
  destruct (Forall2_lookup_r _ _ _ _ _ Ht Hi) as (f & _ & Hok). exact Hok.
Qed.

Lemma resume_extends k r w w' t : resume k r w = Some (w', t) -> extends w w'.
Proof.
  destruct k as [bp next|next|], r as [|e]; cbn; try discriminate;
    intros [= <- <-]; try done; (split; [set_solver|by eexists]).
Qed.

(** The calls with which [w'] continues [w] create only directories that are
    not recorded in [w]. *)
Definition creates_unrecorded (w w' : world) : Prop :=
  exists new, calls w' = calls w ++ new
    /\ forall p, Mkdir p ∈ new ->
                 exists d, p = join (base options) d /\ d ∉ directoryExists w.

(** Calling the callback does not touch [directoryExists]: the set is the
    same for all the files of a group. *)
Definition same_record (w w' : world) : Prop :=
  directoryExists w' = directoryExists w /\ creates_unrecorded w w'.

#[global] Instance same_record_preorder : PreOrder same_record.
Proof.
  split.
  - intros w. split; [done|]. exists []. split; [by rewrite app_nil_r|].
    intros p Hp. by apply not_elem_of_nil in Hp.
  - intros w1 w2 w3 [Hd1 (n1 & Hc1 & Hn1)] [Hd2 (n2 & Hc2 & Hn2)]. split; [congruence|].
    exists (n1 ++ n2). split; [by rewrite Hc2, Hc1, app_assoc|].
    intros p Hp. apply elem_of_app in Hp as [Hp|Hp]; [by apply Hn1|].
    destruct (Hn2 p Hp) as (d & -> & Hd). exists d. split; [done|]. by rewrite <- Hd1.
Qed.

Lemma planned_same_record f w w' t : planned plan f w = (w', t) -> same_record w w'.
Proof.
  unfold planned. destruct (plan f) as [e|[dest next]]; [by intros [= <- <-]|].
  unfold ensure_then, ensureDirectoryExists.
  destruct (decide _) as [|Hnew]; intros [= <- <-]; [done|].
  split; [done|]. eexists. split; [done|].
  intros p Hp. apply list_elem_of_singleton in Hp as [= ->]. eauto.
Qed.

Lemma resume_creates_nothing w fs ts i f k r w' t :
  phase_inv w fs ts -> fs !! i = Some f -> ts !! i = Some (Emit.Suspended k) ->
  resume k r w = Some (w', t) ->
  creates_unrecorded w w'.
Proof.
  intros [_ _ _ Ht] Hf Hi Hres.
  pose proof (Forall2_lookup_lr _ _ _ _ _ _ Ht Hf Hi) as Hok.
  assert (forall dest next ds, plan f = inr (dest, next) ->
            creates_unrecorded w (MkWorld ds (calls w ++ [next]))) as Hone.
  { intros dest next ds Hp. exists [next]. split; [done|].
    intros p Hin. apply list_elem_of_singleton in Hin as <-.
    by destruct (plan_not_mkdir f dest _ Hp). }
  assert (creates_unrecorded w w) as Hnone by apply same_record_preorder.
  destruct k as [bp next|next|], r as [|e]; cbn in Hres, Hok;
    try discriminate; injection Hres as <- <-; try exact Hnone.
  - destruct Hok as (dest & Hp & _). by apply (Hone dest).
  - destruct Hok as (dest & Hp & _). by apply (Hone dest).
Qed.

(** One turn of [emitFilesToDisk] with a callback that follows [plan]. *)
Variable start : T -> world -> world * task.
Hypothesis start_planned : forall f w, start f w = planned plan f w.
Variable files : list T.

Definition phase_kept (s : Emit.state world cont Error) : Prop :=
  phase_inv (Emit.shared s) (take (Emit.fileIndex s) files) (Emit.tasks s).

Lemma phase_step s ev s' :
  emit_inv files s -> phase_kept s ->
  Emit.step start resume files s ev = Some s' ->
  emit_inv files s' /\ phase_kept s'
  /\ extends (Emit.shared s) (Emit.shared s')
  /\ creates_unrecorded (Emit.shared s) (Emit.shared s').
Proof.
  intros Hinv Hkept Hstep. split_and!.
  - exact (emit_step_inv start resume files s ev s' Hinv Hstep).
  - apply (step_keeps start resume files phase_inv) with (s := s) (ev := ev); try done.
    + intros g fs ts f g' t HP Hlen Hs. rewrite start_planned in Hs.
      by apply (planned_keeps g).
    + intros g fs ts i f k r g' t HP Hf Hi Hres.
      rewrite (resume_settled _ _ _ _ _ Hres). by apply (resume_keeps g fs ts i f k r).
  - apply (step_monotone start resume files extends) with (ev := ev); [| |done].
    + intros f g g' t Hs. rewrite start_planned in Hs. by apply planned_extends in Hs.
    + intros k r g g' t. apply resume_extends.
  - destruct ev as [|i r]; cbn in Hstep.
    + unfold Emit.advance in Hstep. destruct (Emit.outcome s); try discriminate.
      destruct (forallb _ _); [|discriminate]. destruct (_ <? _).
      * destruct (Emit.launch _ _ _) as [g actions] eqn:Hl. injection Hstep as <-. cbn.
        apply (launch_monotone start same_record) in Hl; [by destruct Hl|].
        intros f g0 g' t Hs. rewrite start_planned in Hs.
        by apply planned_same_record in Hs.
      * injection Hstep as <-. apply same_record_preorder.
    + unfold Emit.complete in Hstep.
      destruct (Emit.tasks s !! i) as [[k| | |]|] eqn:Hi; try discriminate.
      destruct (resume k r (Emit.shared s)) as [[g t]|] eqn:Hr; [|discriminate].
      injection Hstep as <-. cbn.
      destruct (lookup_lt_is_Some_2 (take (Emit.fileIndex s) files) i) as [f Hf].
      { rewrite length_take. pose proof (inv_le files s Hinv).
        pose proof (inv_len files s Hinv). apply lookup_lt_Some in Hi. lia. }
      exact (resume_creates_nothing _ _ _ i f k r g t Hkept Hf Hi Hr).
Qed.

(** When the phase has completed, every file has had its call, in a
    directory that is recorded. *)
Lemma phase_resolved s f :
  emit_inv files s -> phase_kept s -> Emit.outcome s = Emit.Resolved -> f ∈ files ->
  exists dest next, plan f = inr (dest, next) /\ next ∈ calls (Emit.shared s)
                    /\ dirname dest ∈ directoryExists (Emit.shared s).
Proof.
  intros Hinv [_ _ _ Ht] Hres Hf.
  destruct (inv_resolved files s Hinv Hres) as [Hn Hall].
  apply list_elem_of_lookup_1 in Hf as [i Hf].
  apply lookup_lt_Some in Hf as Hi.
  rewrite Hn, take_ge in Ht by lia.
  exact (Forall2_lookup_lr _ _ _ _ _ _ Ht Hf (Hall i Hi)).
Qed.

(** *** The calls of [fs.mkdir] that a phase makes *)

(** The directory that the callback makes sure of for a file. *)
Definition plan_key (f : T) : option string :=
  match plan f with
  | inr (dest, _) => Some (dirname dest)
  | inl _ => None
  end.

Definition wave_keys (wave : list nat) : list string :=
  omap (fun i => files !! i ≫= plan_key) wave.

Lemma wave_keys_seq n : forall a,
  a + n <= length files -> wave_keys (seq a n) = omap plan_key (take n (drop a files)).
Proof.
  induction n as [|n IH]; intros a Hle; [by rewrite take_0|].
  destruct (lookup_lt_is_Some_2 files a) as [f Hf]; [lia|].
  rewrite (drop_S _ _ _ Hf). unfold wave_keys in *. cbn. rewrite Hf. cbn.
  by rewrite IH by lia.
Qed.

Lemma planned_count f w w' t :
  planned plan f w = (w', t) ->
  directoryExists w' = directoryExists w
  /\ mkdir_calls w'
     = mkdir_calls w + length (filter (.∉ directoryExists w) (omap plan_key [f]))
  /\ forall e, t <> Emit.Threw e.
Proof.
  unfold planned, plan_key. cbn. destruct (plan f) as [e|[dest next]].
  - intros [= <- <-]. split_and!; [done|cbn; lia|done].
  - unfold ensure_then, ensureDirectoryExists. cbn.
    destruct (decide (dirname dest ∈ directoryExists w)) as [Hin|Hnin];
      intros [= <- <-].
    + rewrite decide_False by (by intros Hn). split_and!; [done|cbn; lia|done].
    + rewrite decide_True by done. split_and!; [done| |done].
      rewrite mkdir_calls_snoc. by rewrite decide_True.
Qed.

Lemma launch_count (group : list T) : forall w w' actions,
  Emit.launch start w group = (w', actions) ->
  length actions = length group
  /\ directoryExists w' = directoryExists w
  /\ mkdir_calls w'
     = mkdir_calls w + length (filter (.∉ directoryExists w) (omap plan_key group)).
Proof.
  induction group as [|f group IH]; intros w w' actions Hl; cbn in Hl.
  - injection Hl as <- <-. split_and!; [done..|cbn; lia].
  - destruct (start f w) as [w1 t] eqn:Hs. rewrite start_planned in Hs.
    destruct (planned_count f w w1 t Hs) as (Hd1 & Hc1 & Ht).
    destruct (Emit.launch start w1 group) as [w2 ts] eqn:Hrest.
    assert (w' = w2 /\ actions = t :: ts) as [-> ->].
    { destruct t as [k| |e|e]; [by injection Hl as <- <-..|by destruct (Ht e)]. }
    destruct (IH w1 w2 ts Hrest) as (Hlen & Hd2 & Hc2).
    split_and!; [cbn; by rewrite Hlen|congruence|].
    rewrite Hc2, Hc1, Hd1. change (f :: group) with ([f] ++ group).
    rewrite omap_app, filter_app, length_app. lia.
Qed.

Lemma resume_count w fs ts i f k r w' t :
  phase_inv w fs ts -> fs !! i = Some f -> ts !! i = Some (Emit.Suspended k) ->
  resume k r w = Some (w', t) ->
  mkdir_calls w' = mkdir_calls w
  /\ directoryExists w ⊆ directoryExists w'
  /\ directoryExists w' ⊆ directoryExists w ∪ list_to_set (omap plan_key fs).
Proof.
  intros [_ _ _ Ht] Hf Hi Hres.
  pose proof (Forall2_lookup_lr _ _ _ _ _ _ Ht Hf Hi) as Hok.
  assert (forall dest next ds, plan f = inr (dest, next) ->
            mkdir_calls (MkWorld ds (calls w ++ [next])) = mkdir_calls w) as Hnext.
  { intros dest next ds Hp. rewrite mkdir_calls_snoc.
    destruct (decide (is_mkdir next)) as [Hm|]; [|lia].
    by destruct (plan_not_mkdir f dest next Hp). }
  destruct k as [bp next|next|], r as [|e]; cbn in Hres, Hok;
    try discriminate; injection Hres as <- <-; cbn [directoryExists];
    try (split_and!; [done|set_solver..]).
  - destruct Hok as (dest & Hp & -> & _). split_and!; [by apply (Hnext dest)|set_solver|].
    assert (dirname dest ∈ omap plan_key fs) as Hin.
    { apply list_elem_of_omap. exists f. split; [by apply list_elem_of_lookup_2 in Hf|].
      unfold plan_key. by rewrite Hp. }
    set_solver.
  - destruct Hok as (dest & Hp & _). split_and!; [by apply (Hnext dest)|set_solver..].
Qed.

(** The calls of [fs.mkdir] counted group by group, and what is recorded. *)
Record count_inv (s : Emit.state world cont Error) : Prop := MkCountInv
  { ci_count : mkdir_calls (Emit.shared s)
               = mkdir_calls w0
                 + creations (directoryExists w0) (map wave_keys (Emit.waves s));
    ci_recorded : directoryExists (Emit.shared s)
                  ⊆ directoryExists w0
                    ∪ list_to_set (omap plan_key (take (Emit.fileIndex s) files));
    ci_base : directoryExists w0 ⊆ directoryExists (Emit.shared s);
    ci_waves : concat (map wave_keys (Emit.waves s))
               = omap plan_key (take (Emit.fileIndex s) files) }.

Lemma count_init : count_inv (Emit.init w0).
Proof. split; cbn; [lia|set_solver|done|by rewrite take_0]. Qed.

(** When every callback so far has finished, the directories of their files
    are all recorded. *)
Lemma finished_recorded s :
  emit_inv files s -> phase_kept s -> count_inv s ->
  (forall i, i < Emit.fileIndex s -> Emit.tasks s !! i = Some Emit.Finished) ->
  directoryExists (Emit.shared s)
  = directoryExists w0 ∪ list_to_set (omap plan_key (take (Emit.fileIndex s) files)).
Proof.
  intros Hinv [_ _ _ Ht] [_ Hrec Hbase _] Hall. apply set_eq. intros d. split.
  - apply Hrec.
  - intros [Hd|Hd]%elem_of_union; [by apply Hbase|].
    apply elem_of_list_to_set, list_elem_of_omap in Hd as (f & Hf & Hkey).
    apply list_elem_of_lookup_1 in Hf as [i Hf].
    assert (i < Emit.fileIndex s) as Hi.
    { apply lookup_lt_Some in Hf. rewrite length_take in Hf. lia. }
    pose proof (Forall2_lookup_lr _ _ _ _ _ _ Ht Hf (Hall i Hi)) as Hok. cbn in Hok.
    destruct Hok as (dest & next & Hp & _ & Hdir).
    unfold plan_key in Hkey. rewrite Hp in Hkey. by injection Hkey as <-.
Qed.

Lemma count_step s ev s' :
  emit_inv files s -> phase_kept s -> count_inv s ->
  Emit.step start resume files s ev = Some s' -> count_inv s'.
Proof.
  intros Hinv Hkept Hcount Hstep. destruct ev as [|i r]; cbn in Hstep.
  - unfold Emit.advance in Hstep.
    destruct (Emit.outcome s); try discriminate.
    destruct (forallb _ _) eqn:Hfin; [|discriminate].
    destruct (Nat.ltb_spec (Emit.fileIndex s) (length files)) as [Hmore|Hend].
    + destruct (Emit.launch _ _ _) as [g actions] eqn:Hl. injection Hstep as <-.
      assert (forall i, i < Emit.fileIndex s -> Emit.tasks s !! i = Some Emit.Finished)
        as Hall.
      { intros i Hi. destruct (decide (i < Emit.group s)) as [Hlt|Hge];
          [by apply (inv_before files s Hinv)|].
        rewrite <- (inv_len files s Hinv) in Hi.
        destruct (lookup_lt_is_Some_2 _ _ Hi) as [t Hti]. rewrite Hti. f_equal.
        apply (all_finished _ Hfin (i - Emit.group s)).
        rewrite lookup_drop, <- Hti. f_equal. lia. }
      pose proof (finished_recorded s Hinv Hkept Hcount Hall) as Hrec.
      destruct Hcount as [Hc Hsub Hbase Hw].
      destruct (launch_count _ _ _ _ Hl) as (Hlen & Hd & Hm).
      rewrite length_take, length_drop in Hlen.
      assert (take (length actions) (drop (Emit.fileIndex s) files)
              = take (Nat.min (Emit.fileIndex s + MAX_CONCURRENT_WRITES) (length files)
                      - Emit.fileIndex s) (drop (Emit.fileIndex s) files)) as Hgroup.
      { rewrite Hlen, <- take_take. f_equal. apply take_ge. by rewrite length_drop. }
      assert (wave_keys (seq (Emit.fileIndex s) (length actions))
              = omap plan_key
                  (take (Nat.min (Emit.fileIndex s + MAX_CONCURRENT_WRITES) (length files)
                         - Emit.fileIndex s) (drop (Emit.fileIndex s) files))) as Hnew.
      { rewrite wave_keys_seq by lia. by rewrite Hgroup. }
      split; cbn [Emit.shared Emit.waves Emit.fileIndex].
      * rewrite map_app, creations_app, Hm, Hc, Hrec, <- Hw. cbn [map creations].
        rewrite Hnew. lia.
      * rewrite Hd, <- take_take_drop, omap_app, list_to_set_app_L. set_solver.
      * by rewrite Hd.
      * rewrite map_app, concat_app, Hw. cbn [map concat]. rewrite app_nil_r, Hnew.
        by rewrite <- omap_app, <- Hgroup, take_take_drop.
    + injection Hstep as <-. by destruct Hcount.
  - unfold Emit.complete in Hstep.
    destruct (Emit.tasks s !! i) as [[k| | |]|] eqn:Hi; try discriminate.
    destruct (resume k r (Emit.shared s)) as [[g t]|] eqn:Hr; [|discriminate].
    injection Hstep as <-.
    destruct (lookup_lt_is_Some_2 (take (Emit.fileIndex s) files) i) as [f Hf].
    { rewrite length_take. pose proof (inv_le files s Hinv).
      pose proof (inv_len files s Hinv). apply lookup_lt_Some in Hi. lia. }
    destruct (resume_count _ _ _ i f k r g t Hkept Hf Hi Hr) as (Hm & Hsub1 & Hsub2).
    destruct Hcount as [Hc Hsub Hbase Hw].
    split; cbn [Emit.shared Emit.waves Emit.fileIndex]; [congruence|set_solver..|done].
Qed.

(** The groups launched by a phase that has completed. *)
Lemma resolved_groups s :
  emit_inv files s -> phase_kept s -> Emit.outcome s = Emit.Resolved ->
  map wave_keys (Emit.waves s) = map (omap plan_key) (groups_of files).
Proof.
  intros Hinv Hkept Hres.
  pose proof (tasks_threw_free _ _ _ Hkept) as Hfree.
  rewrite (waves_partition files s Hinv Hfree).
  destruct (inv_resolved files s Hinv Hres) as [Hn _].
  pose proof (inv_index files s Hinv Hfree) as Hidx.
  pose proof (inv_group_wave files s Hinv) as Hgw.
  pose proof (inv_nonempty files s Hinv) as Hne.
  pose proof (inv_start files s Hinv) as Hstart.
  assert (length (Emit.waves s) = (length files + 63) / MAX_CONCURRENT_WRITES) as ->.
  { unfold MAX_CONCURRENT_WRITES in *.
    pose proof (Nat.div_mod_eq (length files + 63) 64).
    pose proof (Nat.mod_upper_bound (length files + 63) 64).
    destruct (Emit.waves s) as [|w ws]; [rewrite Hstart in Hn by done; cbn in *; lia|].
    cbn [length] in *. specialize (Hne ltac:(done)). lia. }
  unfold groups_of. rewrite !map_map. apply map_ext_in. intros k Hk%in_seq.
  assert (MAX_CONCURRENT_WRITES * S k <= length files + 63) as Hle.
  { unfold MAX_CONCURRENT_WRITES in *.
    pose proof (Nat.div_mod_eq (length files + 63) 64). lia. }
  unfold Emit.wave. rewrite wave_keys_seq by (unfold MAX_CONCURRENT_WRITES in *; lia).
  f_equal. rewrite <- (length_drop files), <- take_take. f_equal.
  by apply take_ge.
Qed.

Lemma count_resolved s :
  emit_inv files s -> phase_kept s -> count_inv s -> Emit.outcome s = Emit.Resolved ->
  mkdir_calls (Emit.shared s)
  = mkdir_calls w0
    + creations (directoryExists w0) (map (omap plan_key) (groups_of files))
  /\ directoryExists (Emit.shared s)
     = directoryExists w0 ∪ list_to_set (omap plan_key files).
Proof.
  intros Hinv Hkept Hcount Hres.
  destruct (inv_resolved files s Hinv Hres) as [Hn Hall]. split.
  - rewrite <- (resolved_groups s Hinv Hkept Hres). apply Hcount.
  - rewrite (finished_recorded s Hinv Hkept Hcount) by (intros i Hi; apply Hall; lia).
    by rewrite Hn, take_ge.
Qed.

End WriterPhase.

Section EmitFinal.

Context {T G K R E : Type}.
Variable start : T -> G -> G * Emit.task K E.
Variable resume : K -> R -> G -> option (G * Emit.task K E).
Variable files : list T.

(** Once [emitFilesToDisk] has returned nothing of it runs any more. *)
Lemma resolved_is_final s ev :
  emit_inv files s -> Emit.outcome s = Emit.Resolved ->
  Emit.step start resume files s ev = None.
Proof.
  intros Hinv Hres. destruct ev as [|i r]; cbn.
  - unfold Emit.advance. by rewrite Hres.
  - unfold Emit.complete. destruct (Emit.tasks s !! i) as [t|] eqn:Hi; [|done].
    destruct (inv_resolved files s Hinv Hres) as [Hn Hall].
    apply lookup_lt_Some in Hi as Hlt. rewrite (inv_len files s Hinv), Hn in Hlt.
    rewrite (Hall i Hlt) in Hi. by injection Hi as <-.
Qed.

End EmitFinal.

Lemma assets_to_copy_Some (assetFiles : option (list BuildOutputAsset)) l :
  Writer.assets_to_copy assetFiles = Some l -> assetFiles = Some l /\ l <> [].
Proof. destruct assetFiles as [[|x r]|]; cbn; intros [= <-]. split; [reflexivity|discriminate]. Qed.

Section WriterFacts.

Import Writer.

Variable join : string -> string -> string.
Variable dirname : string -> string.
Variable options : NormalizedOutputOptions.
Variable outputFiles : list BuildOutputFile.
Variable assetFiles : option (list BuildOutputAsset).

#[local] Abbreviation wstep := (Writer.step join dirname options outputFiles assetFiles).
#[local] Abbreviation wrun := (Writer.run join dirname options outputFiles assetFiles).
#[local] Abbreviation p_out := (plan_output join options).
#[local] Abbreviation p_asset := (plan_asset join options).
#[local] Abbreviation kept_out :=
  (phase_kept join dirname options p_out (MkWorld ∅ []) outputFiles).
#[local] Abbreviation kept_asset := (phase_kept join dirname options p_asset).

Lemma plan_output_not_mkdir f dest next : p_out f = inr (dest, next) -> ~ is_mkdir next.
Proof.
  unfold plan_output. destruct (outputDir options _); [|discriminate].
  intros [= _ <-] [].
Qed.

Lemma plan_asset_not_mkdir a dest next : p_asset a = inr (dest, next) -> ~ is_mkdir next.
Proof. unfold plan_asset. intros [= _ <-] []. Qed.

Record writer_inv (s : state) : Prop := MkWriterInv
  { wi_outputs : emit_inv outputFiles (outputs s);
    wi_outputs_kept : kept_out (outputs s);
    wi_assets : forall a, assets s = Some a ->
      exists l, assets_to_copy assetFiles = Some l
                /\ Emit.outcome (outputs s) = Emit.Resolved
                /\ emit_inv l a
                /\ kept_asset (Emit.shared (outputs s)) l a
                /\ extends (Emit.shared (outputs s)) (Emit.shared a);
    wi_returned : returned s = true ->
      Emit.outcome (outputs s) = Emit.Resolved /\ assets s = None
      /\ assets_to_copy assetFiles = None }.

Lemma writer_init_inv : writer_inv init.
Proof.
  split; cbn; try done.
  - apply emit_init_inv.
  - apply phase_init. cbn. set_solver.
Qed.

Lemma writer_step_inv s ev s' :
  writer_inv s -> wstep s ev = Some s' ->
  writer_inv s'
  /\ extends (current_world s) (current_world s')
  /\ creates_unrecorded join options (current_world s) (current_world s').
Proof.
  intros [Ho Hko Ha Hr] Hstep. destruct ev as [ev| |ev]; cbn in Hstep.
  - (* a turn of the first [emitFilesToDisk] *)
    destruct (Emit.step _ _ _ (outputs s) ev) as [o'|] eqn:Hev; [|discriminate].
    injection Hstep as <-.
    assert (Emit.outcome (outputs s) <> Emit.Resolved) as Hnres.
    { intros Hres.
      by rewrite (resolved_is_final _ _ outputFiles (outputs s) ev Ho Hres) in Hev. }
    assert (assets s = None) as Hnone.
    { destruct (assets s) as [a|] eqn:Has; [|done].
      by destruct (Ha a eq_refl) as (l & _ & Hres & _). }
    destruct (phase_step join dirname options p_out plan_output_not_mkdir (MkWorld ∅ [])
                _ (writeOutputFile_planned join dirname options)
                outputFiles (outputs s) ev o' Ho Hko Hev)
      as (Ho' & Hko' & Hext & Hcr).
    unfold current_world. cbn. rewrite Hnone. split_and!; [|done..].
    split; cbn; [done..| |].
    + discriminate.
    + intros Hret. by destruct (Hr Hret).
  - (* [writeResultFiles] resumes *)
    destruct (Emit.outcome (outputs s)) eqn:Hres; try discriminate.
    destruct (assets s) eqn:Has; [discriminate|].
    destruct (returned s) eqn:Hret; [discriminate|].
    destruct (assets_to_copy assetFiles) as [l|] eqn:Hl; injection Hstep as <-;
      unfold current_world; cbn; rewrite ?Has.
    + split_and!; [|done|apply same_record_preorder].
      split; cbn; [done..| |discriminate].
      intros a [= <-]. exists l. split_and!; [done..|apply emit_init_inv| |done].
      apply phase_init. exact (pi_dirs _ _ _ _ _ _ _ _ Hko).
    + split_and!; [|done|apply same_record_preorder].
      split; cbn; [done..|discriminate|done].
  - (* a turn of the second [emitFilesToDisk] *)
    destruct (assets s) as [a|] eqn:Has; [|discriminate].
    destruct (assets_to_copy assetFiles) as [l|] eqn:Hl; [|discriminate].
    destruct (Emit.step _ _ l a ev) as [a'|] eqn:Hev; [|discriminate].
    injection Hstep as <-.
    destruct (Ha a eq_refl) as (l' & [= <-] & Hres & Hia & Hka & Hext0).
    destruct (phase_step join dirname options p_asset plan_asset_not_mkdir
                (Emit.shared (outputs s))
                _ (copyAssetFile_planned join dirname options)
                l a ev a' Hia Hka Hev)
      as (Hia' & Hka' & Hext & Hcr).
    unfold current_world. cbn. rewrite Has. split_and!; [|done..].
    split; cbn; [done..| |].
    + intros a0 [= <-]. exists l. split_and!; [done..|]. by etrans.
    + intros Hret. destruct (Hr Hret) as (_ & Hn & _). congruence.
Qed.

Lemma writer_run_inv evs : forall s s',
  writer_inv s -> wrun s evs = Some s' ->
  writer_inv s' /\ extends (current_world s) (current_world s').
Proof.
  induction evs as [|ev evs IH]; intros s s' Hinv Hrun; cbn in Hrun.
  - injection Hrun as <-. done.
  - destruct (wstep s ev) as [s1|] eqn:Hstep; [|discriminate].
    destruct (writer_step_inv s ev s1 Hinv Hstep) as (Hinv1 & Hext1 & _).
    destruct (IH s1 s' Hinv1 Hrun) as [Hinv' Hext']. split; [done|by etrans].
Qed.

Lemma writer_reachable_inv evs s : wrun init evs = Some s -> writer_inv s.
Proof. intros Hrun. by destruct (writer_run_inv evs init s writer_init_inv Hrun). Qed.

Lemma justified_take {T} (plan : T -> Error + (string * FsOp)) n fs op :
  justified join dirname options plan (take n fs) op ->
  justified join dirname options plan fs op.
Proof.
  intros (f & dest & next & Hf & Hrest). exists f, dest, next. split; [|done].
  apply list_elem_of_lookup_1 in Hf as [i Hf]. apply lookup_take_Some in Hf as [Hf _].
  by apply list_elem_of_lookup_2 in Hf.
Qed.

(** Every call made is the call of an output file or of an asset. *)
Lemma calls_justified s op :
  writer_inv s -> op ∈ calls (current_world s) ->
  justified join dirname options p_out outputFiles op
  \/ exists l, assets_to_copy assetFiles = Some l
               /\ justified join dirname options p_asset l op.
Proof.
  intros [Ho Hko Ha Hr] Hop.
  assert (forall op, op ∈ calls (Emit.shared (outputs s)) ->
            justified join dirname options p_out outputFiles op) as Hout.
  { intros op' Hop'. destruct (pi_sound _ _ _ _ _ _ _ _ Hko op' Hop') as [Hin|Hj].
    - by apply not_elem_of_nil in Hin.
    - by apply justified_take in Hj. }
  unfold current_world in Hop. destruct (assets s) as [a|]; [|left; by apply Hout].
  destruct (Ha a eq_refl) as (l & Hl & _ & _ & Hka & _).
  destruct (pi_sound _ _ _ _ _ _ _ _ Hka op Hop) as [Hin|Hj].
  - left. by apply Hout.
  - right. exists l. split; [done|]. by apply justified_take in Hj.
Qed.

Lemma fulfilled_inv s :
  writer_inv s -> promise s = Fulfilled ->
  Emit.outcome (outputs s) = Emit.Resolved
  /\ extends (Emit.shared (outputs s)) (current_world s)
  /\ (assets_to_copy assetFiles = None
      \/ exists a l, assets s = Some a /\ assets_to_copy assetFiles = Some l
                     /\ emit_inv l a
                     /\ kept_asset (Emit.shared (outputs s)) l a
                     /\ Emit.outcome a = Emit.Resolved).
Proof.
  intros [Ho Hko Ha Hr]. unfold promise, current_world.
  destruct (Emit.outcome (outputs s)) eqn:Hres; try discriminate.
  destruct (returned s) eqn:Hret.
  - intros _. destruct (Hr eq_refl) as (_ & -> & Hnone). split_and!; [done..|by left].
  - destruct (assets s) as [a|] eqn:Has; [|discriminate].
    destruct (Emit.outcome a) eqn:Hra; try discriminate. intros _.
    destruct (Ha a eq_refl) as (l & Hl & _ & Hia & Hka & Hext).
    split_and!; [done..|]. right. by exists a, l.
Qed.

(** After a successful write every output file has been written. *)
Lemma outputs_written s file :
  writer_inv s -> promise s = Fulfilled -> file ∈ outputFiles ->
  exists dest next, p_out file = inr (dest, next)
    /\ next ∈ calls (current_world s)
    /\ Mkdir (join (base options) (dirname dest)) ∈ calls (current_world s).
Proof.
  intros Hinv Hful Hf. destruct (fulfilled_inv s Hinv Hful) as (Hres & Hext & _).
  destruct Hinv as [Ho Hko _ _].
  destruct (phase_resolved _ _ _ _ _ _ _ file Ho Hko Hres Hf) as (dest & next & Hp & Hn & Hd).
  exists dest, next. split_and!; [done|by apply (extends_call _ _ _ Hext)|].
  apply (extends_call _ _ _ Hext). exact (pi_dirs _ _ _ _ _ _ _ _ Hko _ Hd).
Qed.

(** After a successful write every asset has been copied. *)
Lemma assets_copied s l asset :
  writer_inv s -> promise s = Fulfilled ->
  assets_to_copy assetFiles = Some l -> asset ∈ l ->
  exists dest next, p_asset asset = inr (dest, next)
    /\ next ∈ calls (current_world s)
    /\ Mkdir (join (base options) (dirname dest)) ∈ calls (current_world s).
Proof.
  intros Hinv Hful Hl Ha.
  destruct (fulfilled_inv s Hinv Hful) as (_ & _ & [Hnone|(a & l' & Has & Hl' & Hia & Hka & Hra)]);
    [congruence|].
  assert (l' = l) as -> by congruence.
  destruct (phase_resolved _ _ _ _ _ _ _ asset Hia Hka Hra Ha) as (dest & next & Hp & Hn & Hd).
  unfold current_world. rewrite Has. exists dest, next. split_and!; [done..|].
  exact (pi_dirs _ _ _ _ _ _ _ _ Hka _ Hd).
Qed.

Lemma pending_le_suspended (ts : list task) :
  length (filter has_call_pending ts)
  <= length (filter (fun t => Emit.is_suspended t = true) ts).
Proof.
  induction ts as [|t ts IH]; [done|].
  rewrite !filter_cons. destruct t as [[| |]| | |]; cbn; repeat case_decide; cbn; try done; lia.
Qed.

Lemma calls_in_flight_bound s :
  writer_inv s -> calls_in_flight s <= MAX_CONCURRENT_WRITES.
Proof.
  intros [Ho Hko Ha Hr]. unfold calls_in_flight, all_tasks.
  destruct (assets s) as [a|] eqn:Has; cbn.
  - destruct (Ha a eq_refl) as (l & _ & Hres & Hia & _).
    rewrite filter_app, length_app, filter_none.
    + cbn. etrans; [apply pending_le_suspended|]. exact (in_flight_bound l a Hia).
    + intros t Ht. apply list_elem_of_lookup_1 in Ht as [i Hi].
      destruct (inv_resolved _ _ Ho Hres) as [Hn Hall].
      apply lookup_lt_Some in Hi as Hlt. rewrite (inv_len _ _ Ho), Hn in Hlt.
      rewrite (Hall i Hlt) in Hi. injection Hi as <-. by intros [].
  - rewrite app_nil_r. etrans; [apply pending_le_suspended|].
    exact (in_flight_bound outputFiles (outputs s) Ho).
Qed.

Lemma mkdir_calls_bound s :
  writer_inv s ->
  mkdir_calls (current_world s) <= length (all_tasks s)
  /\ length (all_tasks s) <= length outputFiles + length (default [] assetFiles).
Proof.
  intros [Ho Hko Ha Hr]. unfold all_tasks, current_world. rewrite length_app.
  pose proof (pi_count _ _ _ _ _ _ _ _ Hko) as Hc1. cbn in Hc1.
  pose proof (inv_len _ _ Ho). pose proof (inv_le _ _ Ho).
  destruct (assets s) as [a|] eqn:Has; cbn; [|lia].
  destruct (Ha a eq_refl) as (l & Hl & _ & Hia & Hka & _).
  pose proof (pi_count _ _ _ _ _ _ _ _ Hka) as Hc2.
  pose proof (inv_len _ _ Hia). pose proof (inv_le _ _ Hia).
  assert (assetFiles = Some l) as ->.
  { by apply assets_to_copy_Some in Hl as [? _]. }
  cbn. lia.
Qed.

End WriterFacts.

(** *** A sample layout and sample runs *)

Definition sample_options : NormalizedOutputOptions :=
  MkOptions "dist" "browser" "media" "server".

Definition ok_output (i : nat) : Writer.event := Writer.Outputs (Emit.Complete i Writer.Ok).
Definition ok_asset (i : nat) : Writer.event := Writer.Assets (Emit.Complete i Writer.Ok).

(** Two scripts that go to the same directory. *)
Definition two_scripts : list BuildOutputFile :=
  [ createOutputFileFromText "main.js" (Utf8.js_of_string "a") Browser;
    createOutputFileFromText "polyfills.js" (Utf8.js_of_string "b") Browser ].

(** Both directories are made, both files written, and the function returns. *)
Definition two_scripts_run : list Writer.event :=
  [ Writer.Outputs Emit.Advance; ok_output 0; ok_output 1; ok_output 0; ok_output 1;
    Writer.Outputs Emit.Advance; Writer.Continue ].

(** One file of each kind, and one asset. *)
Definition one_of_each : list BuildOutputFile :=
  [ createOutputFileFromText "main.js" (Utf8.js_of_string "a") Browser;
    createOutputFileFromText "logo.png" [] Media;
    createOutputFileFromText "server.mjs" [] Server;
    createOutputFileFromText "stats.json" [] Root ].

Definition one_asset : option (list BuildOutputAsset) :=
  Some [MkAsset "/src/favicon.ico" "favicon.ico"].

Definition one_of_each_run : list Writer.event :=
  [Writer.Outputs Emit.Advance] ++ map ok_output (seq 0 4) ++ map ok_output (seq 0 4)
    ++ [ Writer.Outputs Emit.Advance; Writer.Continue; Writer.Assets Emit.Advance;
         ok_asset 0; ok_asset 0; Writer.Assets Emit.Advance ].

Definition one_of_each_calls : list Writer.FsOp :=
  [ Writer.Mkdir "dist/browser"; Writer.Mkdir "dist/browser";
    Writer.Mkdir "dist/server"; Writer.Mkdir "dist";
    Writer.WriteFile "dist/browser/main.js" (Fresh [x61]);
    Writer.WriteFile "dist/browser/logo.png" (Fresh []);
    Writer.WriteFile "dist/server/server.mjs" (Fresh []);
    Writer.WriteFile "dist/stats.json" (Fresh []);
    Writer.CopyFile "/src/favicon.ico" "dist/browser/favicon.ico" ].

Example one_of_each_written :
  exists s, Writer.run Path.join Path.dirname sample_options one_of_each one_asset
              Writer.init one_of_each_run = Some s
            /\ Writer.promise s = Writer.Fulfilled
            /\ Writer.calls (Writer.current_world s) = one_of_each_calls.
Proof. eexists. split; [vm_compute; reflexivity|]. split; reflexivity. Qed.

Example unknown_kind_rejects :
  exists s, Writer.run Path.join Path.dirname sample_options
              [createOutputFileFromText "x.bin" [] (OtherType 9)] None
              Writer.init [Writer.Outputs Emit.Advance] = Some s
            /\ Writer.promise s
               = Writer.Rejected
                   ("Unhandled write for file " +:+ double_quote +:+ "x.bin" +:+ double_quote
                    +:+ " with type " +:+ double_quote +:+ "undefined" +:+ double_quote +:+ ".")
            /\ Writer.calls (Writer.current_world s) = [].
Proof. eexists. split; [vm_compute; reflexivity|]. split; reflexivity. Qed.

(** The directories that contain the files to write, as they are created
    (below [base]); a file of a kind that is not handled has none. *)
Definition containing_directories (join : string -> string -> string)
    (dirname : string -> string) (options : NormalizedOutputOptions)
    (outputFiles : list BuildOutputFile) (assetFiles : option (list BuildOutputAsset))
  : list string :=
  omap (fun file =>
          (fun dir => join (base options)
                        (dirname (join dir (BuildOutputFile.path file))))
            <$> Writer.outputDir options (BuildOutputFile.type file))
       outputFiles
  ++ map (fun asset => join (base options)
                         (dirname (join (browser options) (destination asset))))
         (default [] assetFiles).

(** The directory that [ensureDirectoryExists] looks up for an output file
    and for an asset, [path.dirname(destPath)]: the path of the containing
    directory relative to [base]. *)
Definition output_directory (join : string -> string -> string)
    (dirname : string -> string) (options : NormalizedOutputOptions)
    (file : BuildOutputFile) : option string :=
  (fun dir => dirname (join dir (BuildOutputFile.path file)))
    <$> Writer.outputDir options (BuildOutputFile.type file).

Definition asset_directory (join : string -> string -> string)
    (dirname : string -> string) (options : NormalizedOutputOptions)
    (asset : BuildOutputAsset) : string :=
  dirname (join (browser options) (destination asset)).

Definition directory_keys (join : string -> string -> string)
    (dirname : string -> string) (options : NormalizedOutputOptions)
    (outputFiles : list BuildOutputFile) (assetFiles : option (list BuildOutputAsset))
  : list string :=
  omap (output_directory join dirname options) outputFiles
  ++ map (asset_directory join dirname options) (default [] assetFiles).

(** The same directories, group by group: the groups of the output files,
    then those of the assets. *)
Definition directory_groups (join : string -> string -> string)
    (dirname : string -> string) (options : NormalizedOutputOptions)
    (outputFiles : list BuildOutputFile) (assetFiles : option (list BuildOutputAsset))
  : list (list string) :=
  map (omap (output_directory join dirname options)) (groups_of outputFiles)
  ++ map (map (asset_directory join dirname options)) (groups_of (default [] assetFiles)).

Section WriterResults.

Import Writer.

Variable join : string -> string -> string.
Variable dirname : string -> string.
Variable options : NormalizedOutputOptions.
Variable outputFiles : list BuildOutputFile.
Variable assetFiles : option (list BuildOutputAsset).

Lemma wave_length n k : length (Emit.wave n k) <= MAX_CONCURRENT_WRITES.
Proof. unfold Emit.wave. rewrite length_seq. lia. Qed.

Lemma waves_bounded {T G K E} (files : list T) (s : Emit.state G K E) wave :
  emit_inv files s -> wave ∈ Emit.waves s -> length wave <= MAX_CONCURRENT_WRITES.
Proof.
  intros Hinv Hin. rewrite (inv_waves files s Hinv) in Hin.
  apply list_elem_of_fmap in Hin as (k & -> & _). apply wave_length.
Qed.

(** After a successful write every containing directory has been created. *)
Lemma directories_created s d :
  writer_inv join dirname options outputFiles assetFiles s ->
  promise s = Fulfilled ->
  d ∈ containing_directories join dirname options outputFiles assetFiles ->
  Mkdir d ∈ calls (current_world s).
Proof.
  intros Hinv Hful Hd. unfold containing_directories in Hd.
  apply elem_of_app in Hd as [Hd|Hd].
  - apply list_elem_of_omap in Hd as (file & Hfile & Hdir).
    destruct (outputDir options (BuildOutputFile.type file)) as [dir|] eqn:Hout;
      [|discriminate]. injection Hdir as <-.
    destruct (outputs_written join dirname options outputFiles assetFiles s file
                Hinv Hful Hfile) as (dest & next & Hp & _ & Hmk).
    unfold plan_output in Hp. rewrite Hout in Hp. by injection Hp as <- _.
  - apply list_elem_of_fmap in Hd as (asset & -> & Ha).
    destruct assetFiles as [[|x r]|]; cbn in Ha;
      try (by apply not_elem_of_nil in Ha).
    destruct (assets_copied join dirname options outputFiles _ s (x :: r) asset
                Hinv Hful eq_refl Ha) as (dest & next & Hp & _ & Hmk).
    unfold plan_asset in Hp. by injection Hp as <- _.
Qed.

End WriterResults.

(** C9: during one invocation of [writeResultFiles], whatever the order in
    which the file-system calls complete, at most 64 of them are in flight
    at any time, and both uses of [emitFilesToDisk] launch their files in
    consecutive groups of 64 (the last one of each possibly smaller), as
    [Emit.wave] defines them. *)
Theorem write_concurrency_bound
    (join : string -> string -> string) (dirname : string -> string)
    (options : NormalizedOutputOptions)
    (outputFiles : list BuildOutputFile) (assetFiles : option (list BuildOutputAsset))
    (evs : list Writer.event) (s : Writer.state) :
  Writer.run join dirname options outputFiles assetFiles Writer.init evs = Some s ->
  Writer.calls_in_flight s <= 64
  /\ Emit.waves (Writer.outputs s)
     = map (Emit.wave (length outputFiles))
           (seq 0 (length (Emit.waves (Writer.outputs s))))
  /\ (forall a, Writer.assets s = Some a ->
        exists l, assetFiles = Some l
                  /\ Emit.waves a = map (Emit.wave (length l)) (seq 0 (length (Emit.waves a))))
  /\ (forall wave, wave ∈ Writer.all_waves s -> length wave <= 64)
  /\ (forall n k, Emit.wave n k = seq (64 * k) (Nat.min 64 (n - 64 * k))).
Proof.
  intros Hrun.
  pose proof (writer_reachable_inv join dirname options outputFiles assetFiles evs s Hrun)
    as Hinv.
  split_and!.
  - exact (calls_in_flight_bound join dirname options outputFiles assetFiles s Hinv).
  - apply (waves_partition _ _ (wi_outputs _ _ _ _ _ _ Hinv)).
    exact (tasks_threw_free _ _ _ _ _ _ _ _ (wi_outputs_kept _ _ _ _ _ _ Hinv)).
  - intros a Ha. destruct (wi_assets _ _ _ _ _ _ Hinv a Ha) as (l & Hl & _ & Hia & Hka & _).
    exists l. split; [by apply assets_to_copy_Some in Hl as [? _]|].
    apply (waves_partition _ _ Hia).
    exact (tasks_threw_free _ _ _ _ _ _ _ _ Hka).
  - intros wave Hw. unfold Writer.all_waves in Hw. apply elem_of_app in Hw as [Hw|Hw].
    + exact (waves_bounded _ _ _ (wi_outputs _ _ _ _ _ _ Hinv) Hw).
    + destruct (Writer.assets s) as [a|] eqn:Ha; cbn in Hw;
        [|by apply not_elem_of_nil in Hw].
      destruct (wi_assets _ _ _ _ _ _ Hinv a Ha) as (l & _ & _ & Hia & _).
      exact (waves_bounded _ _ _ Hia Hw).
  - reflexivity.
Qed.

Lemma write_concurrency_bound_witness :
  exists s, Writer.run Path.join Path.dirname sample_options one_of_each one_asset
              Writer.init one_of_each_run = Some s
            /\ Writer.calls_in_flight s <= 64.
Proof.
  destruct (Writer.run Path.join Path.dirname sample_options one_of_each one_asset
              Writer.init one_of_each_run) as [s|] eqn:Hrun;
    [|vm_compute in Hrun; discriminate].
  exists s. split; [reflexivity|].
  exact (proj1 (write_concurrency_bound Path.join Path.dirname sample_options
                  one_of_each one_asset one_of_each_run s Hrun)).
Defined.




(** An asset whose destination climbs out of the browser directory, and
    options without a browser directory. *)
Definition stray_asset : option (list BuildOutputAsset) :=
  Some [MkAsset "/src/x.txt" "../server/x.txt"].

Definition flat_options : NormalizedOutputOptions :=
  MkOptions "dist" EmptyString "media" "server".

Definition asset_only_run : list Writer.event :=
  [ Writer.Outputs Emit.Advance; Writer.Continue; Writer.Assets Emit.Advance;
    ok_asset 0; ok_asset 0; Writer.Assets Emit.Advance ].

(** C10, as stated, fails in its second half: the destination is joined to
    the browser directory and nothing more, and [path.join] resolves [..]
    and drops an empty first argument.  An asset with the destination
    [../server/x.txt] is copied into the server directory, and with an empty
    [browser] an asset is copied into the base directory itself. *)
Lemma asset_copied_outside_browser :
  (exists s, Writer.run Path.join Path.dirname sample_options [] stray_asset
               Writer.init asset_only_run = Some s
             /\ Writer.promise s = Writer.Fulfilled
             /\ Writer.calls (Writer.current_world s)
                = [Writer.Mkdir "dist/server";
                   Writer.CopyFile "/src/x.txt" "dist/server/x.txt"]
             /\ under (Path.join (base sample_options) (server sample_options))
                   "dist/server/x.txt")
  /\ (exists s, Writer.run Path.join Path.dirname flat_options [] one_asset
                  Writer.init asset_only_run = Some s
                /\ Writer.promise s = Writer.Fulfilled
                /\ Writer.calls (Writer.current_world s)
                   = [Writer.Mkdir "dist";
                      Writer.CopyFile "/src/favicon.ico" "dist/favicon.ico"]
                /\ directly_in (base flat_options) "dist/favicon.ico").
Proof.
  split.
  - eexists. split; [vm_compute; reflexivity|]. split_and!; [reflexivity..|].
    by exists "x.txt"%string.
  - eexists. split; [vm_compute; reflexivity|]. split_and!; [reflexivity..|].
    by exists "favicon.ico"%string.
Qed.

(** C10, amended: the destination of an asset is the browser directory
    joined with the asset's [destination], below [base], whatever the asset
    holds: every copy made is the copy of an asset to that path, after a
    successful write every asset has been copied there, and the [server]
    and [media] directories play no part in it.  With Node's [path.join],
    a base that is a path without empty, [.] or [..] segments (after a
    leading slash, if any), a browser directory that is one such segment
    and a destination that is such a relative path, the copy goes to
    [base/browser/destination]: below the browser directory, not into the
    base directory itself, and not below any directory of the base with
    another name, the server directory among them. *)
Theorem asset_destination
    (join : string -> string -> string) (dirname : string -> string)
    (options : NormalizedOutputOptions)
    (outputFiles : list BuildOutputFile) (assetFiles : option (list BuildOutputAsset))
    (evs : list Writer.event) (s : Writer.state) :
  Writer.run join dirname options outputFiles assetFiles Writer.init evs = Some s ->
  (forall src dest,
      Writer.CopyFile src dest ∈ Writer.calls (Writer.current_world s) ->
      exists l asset,
        assetFiles = Some l /\ asset ∈ l /\ src = source asset
        /\ dest = join (base options) (join (browser options) (destination asset)))
  /\ (Writer.promise s = Writer.Fulfilled ->
      forall l asset, assetFiles = Some l -> asset ∈ l ->
        Writer.CopyFile (source asset)
          (join (base options) (join (browser options) (destination asset)))
        ∈ Writer.calls (Writer.current_world s))
  /\ (forall options',
        base options' = base options -> browser options' = browser options ->
        forall asset w,
          Writer.copyAssetFile join dirname options' asset w
          = Writer.copyAssetFile join dirname options asset w)
  /\ (join = Path.join ->
      rooted (base options) = true -> plain_name (browser options) = true ->
      forall src dest,
        Writer.CopyFile src dest ∈ Writer.calls (Writer.current_world s) ->
        exists l asset,
          assetFiles = Some l /\ asset ∈ l /\ src = source asset
          /\ (plain (destination asset) = true ->
              dest = base options +:+ "/" +:+ browser options +:+ "/" +:+ destination asset
              /\ under (Path.join (base options) (browser options)) dest
              /\ ~ directly_in (base options) dest
              /\ forall other,
                   plain_name other = true -> other <> browser options ->
                   ~ under (Path.join (base options) other) dest)).
Proof.
  intros Hrun.
  pose proof (writer_reachable_inv join dirname options outputFiles assetFiles evs s Hrun)
    as Hinv.
  assert (forall src dest,
      Writer.CopyFile src dest ∈ Writer.calls (Writer.current_world s) ->
      exists l asset,
        assetFiles = Some l /\ asset ∈ l /\ src = source asset
        /\ dest = join (base options) (join (browser options) (destination asset)))
    as Hcopies.
  { intros src dest Hin.
    destruct (calls_justified join dirname options outputFiles assetFiles s _ Hinv Hin)
      as [(f & d & next & Hf & Hp & Hop)|(l & Hl & (a & d & next & Ha & Hp & Hop))].
    + unfold plan_output in Hp.
      destruct (Writer.outputDir options (BuildOutputFile.type f)); [|discriminate].
      injection Hp as <- <-. destruct Hop as [Hop|Hop]; discriminate.
    + unfold plan_asset in Hp. injection Hp as <- <-.
      destruct Hop as [Hop|Hop]; [discriminate|]. injection Hop as -> ->.
      exists l, a. by apply assets_to_copy_Some in Hl as [-> _]. }
  split_and!.
  - exact Hcopies.
  - intros Hful l asset Hl Ha.
    assert (Writer.assets_to_copy assetFiles = Some l) as Hcopy.
    { rewrite Hl. destruct l; [by apply not_elem_of_nil in Ha|done]. }
    destruct (assets_copied join dirname options outputFiles assetFiles s l asset
                Hinv Hful Hcopy Ha) as (d & next & Hp & Hnext & _).
    unfold plan_asset in Hp. by injection Hp as <- <-.
  - intros options' Hbase Hbrowser asset w.
    unfold Writer.copyAssetFile, Writer.ensure_then, Writer.ensureDirectoryExists.
    by rewrite Hbase, Hbrowser.
  - intros Hjoin Hbase Hbrowser src dest Hin.
    destruct (Hcopies src dest Hin) as (l & asset & Hl & Ha & Hsrc & Hdest).
    exists l, asset. split_and!; [done..|]. intros Hplain. rewrite Hdest, Hjoin.
    destruct (browser_destination (base options) (browser options) (destination asset))
      as (Heq & Hunder & Hdirect); [done..|].
    split_and!; [done..|]. intros other Hother Hne.
    by apply browser_destination_apart.
Qed.

Lemma asset_destination_witness :
  exists s, Writer.run Path.join Path.dirname sample_options one_of_each one_asset
              Writer.init one_of_each_run = Some s
            /\ Writer.CopyFile "/src/favicon.ico" "dist/browser/favicon.ico"
               ∈ Writer.calls (Writer.current_world s)
            /\ ~ under "dist/server" "dist/browser/favicon.ico"
            /\ ~ directly_in "dist" "dist/browser/favicon.ico".
Proof.
  destruct (Writer.run Path.join Path.dirname sample_options one_of_each one_asset
              Writer.init one_of_each_run) as [s|] eqn:Hrun;
    [|vm_compute in Hrun; discriminate].
  exists s. split; [reflexivity|].
  assert (Writer.promise s = Writer.Fulfilled) as Hful.
  { vm_compute in Hrun. injection Hrun as <-. reflexivity. }
  pose proof (asset_destination Path.join Path.dirname sample_options
                one_of_each one_asset one_of_each_run s Hrun) as (_ & Hall & _ & Hwhere).
  pose proof (Hall Hful [MkAsset "/src/favicon.ico" "favicon.ico"]
                (MkAsset "/src/favicon.ico" "favicon.ico") eq_refl
                (list_elem_of_here _ _)) as Hin.
  split; [exact Hin|].
  destruct (Hwhere eq_refl eq_refl eq_refl _ _ Hin) as (l & asset & Hl & Ha & _ & Hplain).
  injection Hl as <-. apply list_elem_of_singleton in Ha as ->.
  destruct (Hplain eq_refl) as (_ & _ & Hdirect & Hother).
  split; [exact (Hother "server"%string eq_refl ltac:(done))|exact Hdirect].
Defined.

Section WriterCount.

Import Writer.

Variable join : string -> string -> string.
Variable dirname : string -> string.
Variable options : NormalizedOutputOptions.
Variable outputFiles : list BuildOutputFile.
Variable assetFiles : option (list BuildOutputAsset).

#[local] Abbreviation c_out := (plan_output join options).
#[local] Abbreviation c_asset := (plan_asset join options).

Definition writer_count (s : state) : Prop :=
  count_inv dirname c_out (MkWorld ∅ []) outputFiles (outputs s)
  /\ forall a, assets s = Some a ->
       exists l, assets_to_copy assetFiles = Some l
                 /\ count_inv dirname c_asset (Emit.shared (outputs s)) l a.

Lemma writer_count_init : writer_count (init : state).
Proof.
  split; [|discriminate].
  exact (count_init join dirname options c_out
           (plan_output_not_mkdir join options) (MkWorld ∅ [])
           _ (writeOutputFile_planned join dirname options) outputFiles).
Qed.

Lemma outputs_step_no_assets s ev o' :
  writer_inv join dirname options outputFiles assetFiles s ->
  Emit.step (writeOutputFile join dirname options) (resume : cont -> result -> _)
    outputFiles (outputs s) ev = Some o' ->
  assets s = None.
Proof.
  intros [Ho Hko Ha Hr] Hev.
  destruct (assets s) as [a|] eqn:Has; [|done].
  destruct (Ha a eq_refl) as (l & _ & Hres & _).
  by rewrite (resolved_is_final _ _ outputFiles (outputs s) ev Ho Hres) in Hev.
Qed.

Lemma writer_count_step s ev s' :
  writer_inv join dirname options outputFiles assetFiles s -> writer_count s ->
  Writer.step join dirname options outputFiles assetFiles s ev = Some s' ->
  writer_count s'.
Proof.
  intros Hinv [Hco Hca] Hstep. pose proof Hinv as [Ho Hko Ha Hr].
  destruct ev as [ev| |ev]; cbn in Hstep.
  - destruct (Emit.step _ _ _ (outputs s) ev) as [o'|] eqn:Hev; [|discriminate].
    injection Hstep as <-.
    rewrite (outputs_step_no_assets s ev o' Hinv Hev). split; cbn; [|discriminate].
    exact (count_step join dirname options c_out (plan_output_not_mkdir join options)
             (MkWorld ∅ []) _ (writeOutputFile_planned join dirname options)
             outputFiles (outputs s) ev o' Ho Hko Hco Hev).
  - destruct (Emit.outcome (outputs s)) eqn:Hres; try discriminate.
    destruct (assets s) eqn:Has; [discriminate|].
    destruct (returned s) eqn:Hret; [discriminate|].
    destruct (assets_to_copy assetFiles) as [l|] eqn:Hl; injection Hstep as <-;
      (split; cbn; [done|]); [|discriminate].
    intros a [= <-]. exists l. split; [done|].
    exact (count_init join dirname options c_asset (plan_asset_not_mkdir join options)
             (Emit.shared (outputs s)) _ (copyAssetFile_planned join dirname options) l).
  - destruct (assets s) as [a|] eqn:Has; [|discriminate].
    destruct (assets_to_copy assetFiles) as [l|] eqn:Hl; [|discriminate].
    destruct (Emit.step _ _ l a ev) as [a'|] eqn:Hev; [|discriminate].
    injection Hstep as <-.
    destruct (Ha a eq_refl) as (l' & [= <-] & Hres & Hia & Hka & Hext0).
    destruct (Hca a eq_refl) as (l' & [= <-] & Hcount).
    split; cbn; [done|]. intros a0 [= <-]. exists l. split; [done|].
    exact (count_step join dirname options c_asset (plan_asset_not_mkdir join options)
             (Emit.shared (outputs s)) _ (copyAssetFile_planned join dirname options)
             l a ev a' Hia Hka Hcount Hev).
Qed.

Lemma writer_count_run evs : forall s s',
  writer_inv join dirname options outputFiles assetFiles s -> writer_count s ->
  Writer.run join dirname options outputFiles assetFiles s evs = Some s' ->
  writer_count s'.
Proof.
  induction evs as [|ev evs IH]; intros s s' Hinv Hcount Hrun; cbn in Hrun.
  - by injection Hrun as <-.
  - destruct (Writer.step join dirname options outputFiles assetFiles s ev)
      as [s1|] eqn:Hstep; [|discriminate].
    apply (IH s1 s'); [|by apply (writer_count_step s ev)|exact Hrun].
    by destruct (writer_step_inv join dirname options outputFiles assetFiles s ev s1
                   Hinv Hstep).
Qed.

Lemma omap_ext {A B} (f g : A -> option B) (l : list A) :
  (forall x, f x = g x) -> omap f l = omap g l.
Proof. intros Hfg. induction l as [|x l IH]; [done|]. cbn. by rewrite Hfg, IH. Qed.

Lemma output_keys (l : list BuildOutputFile) :
  omap (plan_key dirname c_out) l = omap (output_directory join dirname options) l.
Proof.
  apply omap_ext. intros f. unfold plan_key, plan_output, output_directory.
  by destruct (outputDir options (BuildOutputFile.type f)).
Qed.

Lemma asset_keys (l : list BuildOutputAsset) :
  omap (plan_key dirname c_asset) l = map (asset_directory join dirname options) l.
Proof. by rewrite <- omap_Some_map. Qed.

Lemma directory_groups_concat :
  concat (directory_groups join dirname options outputFiles assetFiles)
  = directory_keys join dirname options outputFiles assetFiles.
Proof.
  unfold directory_groups, directory_keys.
  rewrite concat_app, omap_concat, concat_groups_of. f_equal.
  rewrite <- (concat_groups_of (default [] assetFiles)) at 2.
  generalize (groups_of (default [] assetFiles)). intros gs.
  induction gs as [|g gs IH]; [done|]. cbn. by rewrite map_app, IH.
Qed.

Lemma containing_directories_keys :
  containing_directories join dirname options outputFiles assetFiles
  = map (join (base options)) (directory_keys join dirname options outputFiles assetFiles).
Proof.
  unfold containing_directories, directory_keys, output_directory, asset_directory.
  rewrite map_app, map_map. f_equal.
  induction outputFiles as [|f l IH]; [done|]. cbn.
  destruct (outputDir options (BuildOutputFile.type f)); cbn; by rewrite IH.
Qed.

(** After a successful write: what is recorded, and how many calls of
    [fs.mkdir] have been made. *)
Lemma writer_count_fulfilled s :
  writer_inv join dirname options outputFiles assetFiles s -> writer_count s ->
  promise s = Fulfilled ->
  directoryExists (current_world s)
  = list_to_set (directory_keys join dirname options outputFiles assetFiles)
  /\ mkdir_calls (current_world s)
     = creations ∅ (directory_groups join dirname options outputFiles assetFiles).
Proof.
  intros [Ho Hko Ha Hr] [Hco Hca] Hful. unfold promise in Hful.
  destruct (Emit.outcome (outputs s)) eqn:Hres; try discriminate.
  destruct (count_resolved join dirname options c_out (MkWorld ∅ []) outputFiles
              (outputs s) Ho Hko Hco Hres) as [Hm1 Hd1].
  cbn in Hm1, Hd1. rewrite (left_id_L ∅ (∪)) in Hd1.
  rewrite output_keys in Hd1.
  assert (map (omap (plan_key dirname c_out)) (groups_of outputFiles)
          = map (omap (output_directory join dirname options)) (groups_of outputFiles))
    as Hg1 by (apply map_ext; intros g; apply output_keys).
  rewrite Hg1 in Hm1.
  unfold current_world, directory_keys, directory_groups.
  destruct (returned s) eqn:Hret.
  - destruct (Hr eq_refl) as (_ & -> & Hnone).
    assert (default [] assetFiles = []) as ->.
    { by destruct assetFiles as [[|x l]|]. }
    cbn [map]. rewrite !app_nil_r. by split.
  - destruct (assets s) as [a|] eqn:Has; [|discriminate].
    destruct (Emit.outcome a) eqn:Hres2; try discriminate.
    destruct (Ha a eq_refl) as (l & Hl & _ & Hia & Hka & _).
    destruct (Hca a eq_refl) as (l' & Hl' & Hcount).
    assert (l' = l) as -> by congruence.
    apply assets_to_copy_Some in Hl as [-> _]. cbn [default].
    destruct (count_resolved join dirname options c_asset (Emit.shared (outputs s)) l a
                Hia Hka Hcount Hres2) as [Hm2 Hd2].
    rewrite asset_keys in Hd2.
    assert (map (omap (plan_key dirname c_asset)) (groups_of l)
            = map (map (asset_directory join dirname options)) (groups_of l))
      as Hg2 by (apply map_ext; intros g; apply asset_keys).
    rewrite Hg2 in Hm2. split.
    + by rewrite Hd2, Hd1, list_to_set_app_L.
    + rewrite Hm2, Hm1, Hd1, creations_app, omap_concat, concat_groups_of.
      by rewrite (left_id_L ∅ (∪)).
Qed.

End WriterCount.

(** C4, as stated, fails: [directoryExists.add(basePath)] comes after
    [await fs.mkdir], so all the files of a group that share a directory not
    yet recorded find it absent and create it.  Two scripts written to
    "browser" cause two calls [fs.mkdir("dist/browser")], for one directory. *)
Lemma shared_directory_created_twice :
  exists s, Writer.run Path.join Path.dirname sample_options two_scripts None
              Writer.init two_scripts_run = Some s
            /\ Writer.promise s = Writer.Fulfilled
            /\ Writer.calls (Writer.current_world s)
               = [ Writer.Mkdir "dist/browser"; Writer.Mkdir "dist/browser";
                   Writer.WriteFile "dist/browser/main.js" (Fresh [x61]);
                   Writer.WriteFile "dist/browser/polyfills.js" (Fresh [x62]) ]
            /\ Writer.mkdir_calls (Writer.current_world s) = 2
            /\ remove_dups (containing_directories Path.join Path.dirname sample_options
                              two_scripts None) = ["dist/browser"%string]
            /\ Writer.mkdir_calls (Writer.current_world s)
               <> length (remove_dups (containing_directories Path.join Path.dirname
                                         sample_options two_scripts None)).
Proof.
  eexists. split; [vm_compute; reflexivity|].
  split_and!; [reflexivity| reflexivity| reflexivity| vm_compute; reflexivity|].
  vm_compute. discriminate.
Qed.

(** C4, amended: within one invocation of [writeResultFiles] a directory
    that is recorded in [directoryExists] is not created again: every turn
    of the event loop creates only directories that are not recorded when
    the turn begins, and every recorded directory has been created by a call
    of this invocation.  When a call of [fs.mkdir] succeeds the directory is
    recorded, and the file is written or copied.  The files of one group
    that share a directory not yet recorded each create it.  So there is at
    most one creation call per file, and after a successful write at least
    one per distinct containing directory; the directories recorded are then
    those of all the files, and the calls are counted group by group: one
    for every file of a group whose directory is not that of a file of a
    group before.  Directories being told apart as [directoryExists] does,
    by their paths relative to [base], the calls are as many as the distinct
    directories exactly when no group holds two files that share a directory
    not recorded when the group begins; and where joining to [base] keeps
    the directories apart, they are as many as the distinct paths created. *)
Theorem directory_creation
    (join : string -> string -> string) (dirname : string -> string)
    (options : NormalizedOutputOptions)
    (outputFiles : list BuildOutputFile) (assetFiles : option (list BuildOutputAsset))
    (evs : list Writer.event) (s : Writer.state) :
  Writer.run join dirname options outputFiles assetFiles Writer.init evs = Some s ->
  (forall ev s',
      Writer.step join dirname options outputFiles assetFiles s ev = Some s' ->
      Writer.directoryExists (Writer.current_world s)
        ⊆ Writer.directoryExists (Writer.current_world s')
      /\ exists new,
           Writer.calls (Writer.current_world s')
           = Writer.calls (Writer.current_world s) ++ new
           /\ forall p, Writer.Mkdir p ∈ new ->
                exists d, p = join (base options) d
                          /\ d ∉ Writer.directoryExists (Writer.current_world s))
  /\ (forall d, d ∈ Writer.directoryExists (Writer.current_world s) ->
        Writer.Mkdir (join (base options) d) ∈ Writer.calls (Writer.current_world s))
  /\ Writer.mkdir_calls (Writer.current_world s)
     <= length outputFiles + length (default [] assetFiles)
  /\ (Writer.promise s = Writer.Fulfilled ->
      length (remove_dups
                (containing_directories join dirname options outputFiles assetFiles))
      <= Writer.mkdir_calls (Writer.current_world s))
  /\ (forall i d next ev s',
        (ev = Writer.Outputs (Emit.Complete i Writer.Ok)
         /\ Emit.tasks (Writer.outputs s) !! i
            = Some (Emit.Suspended (Writer.AwaitMkdir d next)))
        \/ (ev = Writer.Assets (Emit.Complete i Writer.Ok)
            /\ exists a, Writer.assets s = Some a
                         /\ Emit.tasks a !! i
                            = Some (Emit.Suspended (Writer.AwaitMkdir d next))) ->
        Writer.step join dirname options outputFiles assetFiles s ev = Some s' ->
        Writer.directoryExists (Writer.current_world s')
        = {[d]} ∪ Writer.directoryExists (Writer.current_world s)
        /\ Writer.calls (Writer.current_world s')
           = Writer.calls (Writer.current_world s) ++ [next])
  /\ concat (directory_groups join dirname options outputFiles assetFiles)
     = directory_keys join dirname options outputFiles assetFiles
  /\ containing_directories join dirname options outputFiles assetFiles
     = map (join (base options))
           (directory_keys join dirname options outputFiles assetFiles)
  /\ (Writer.promise s = Writer.Fulfilled ->
      Writer.directoryExists (Writer.current_world s)
      = list_to_set (directory_keys join dirname options outputFiles assetFiles)
      /\ Writer.mkdir_calls (Writer.current_world s)
         = creations ∅ (directory_groups join dirname options outputFiles assetFiles)
      /\ (Writer.mkdir_calls (Writer.current_world s)
          = length (remove_dups
                      (directory_keys join dirname options outputFiles assetFiles))
          <-> clash_free ∅ (directory_groups join dirname options outputFiles assetFiles))
      /\ ((forall d1 d2,
             d1 ∈ directory_keys join dirname options outputFiles assetFiles ->
             d2 ∈ directory_keys join dirname options outputFiles assetFiles ->
             join (base options) d1 = join (base options) d2 -> d1 = d2) ->
          (Writer.mkdir_calls (Writer.current_world s)
           = length (remove_dups
                       (containing_directories join dirname options outputFiles
                          assetFiles))
           <-> clash_free ∅
                 (directory_groups join dirname options outputFiles assetFiles)))).
Proof.
  intros Hrun.
  pose proof (writer_reachable_inv join dirname options outputFiles assetFiles evs s Hrun)
    as Hinv.
  pose proof (writer_count_run join dirname options outputFiles assetFiles evs _ s
                (writer_init_inv join dirname options outputFiles assetFiles)
                (writer_count_init join dirname options outputFiles assetFiles) Hrun)
    as Hcount.
  split_and!.
  - intros ev s' Hstep.
    destruct (writer_step_inv join dirname options outputFiles assetFiles s ev s'
                Hinv Hstep) as (_ & [Hsub _] & Hcr).
    split; [exact Hsub|exact Hcr].
  - intros d Hd. destruct Hinv as [Ho Hko Ha Hr].
    unfold Writer.current_world in *. destruct (Writer.assets s) as [a|].
    + destruct (Ha a eq_refl) as (l & _ & _ & _ & Hka & _).
      exact (pi_dirs _ _ _ _ _ _ _ _ Hka d Hd).
    + exact (pi_dirs _ _ _ _ _ _ _ _ Hko d Hd).
  - pose proof (mkdir_calls_bound join dirname options outputFiles assetFiles s Hinv). lia.
  - intros Hful. unfold Writer.mkdir_calls.
    rewrite <- (length_fmap Writer.Mkdir).
    apply submseteq_length, NoDup_submseteq.
    + apply NoDup_fmap_2; [by intros d1 d2 [= ->]|apply NoDup_remove_dups].
    + intros op Hop. apply list_elem_of_fmap in Hop as (d & -> & Hd).
      rewrite elem_of_remove_dups in Hd. apply list_elem_of_filter. split; [done|].
      exact (directories_created join dirname options outputFiles assetFiles s d
               Hinv Hful Hd).
  - intros i d next ev s' [[-> Hi]|[-> (a & Has & Hi)]] Hstep;
      unfold Writer.step in Hstep.
    + destruct (Emit.step _ _ _ (Writer.outputs s) _) as [o'|] eqn:Hev; [|discriminate].
      cbn in Hstep. injection Hstep as <-.
      pose proof (outputs_step_no_assets join dirname options outputFiles assetFiles
                    s _ o' Hinv Hev) as Hnone.
      cbn in Hev. unfold Emit.complete in Hev. rewrite Hi in Hev. cbn in Hev.
      injection Hev as <-. unfold Writer.current_world. cbn. by rewrite Hnone.
    + rewrite Has in Hstep.
      destruct (Writer.assets_to_copy assetFiles) as [l|]; [|discriminate].
      destruct (Emit.step _ _ l a _) as [a'|] eqn:Hev; [|discriminate].
      cbn in Hstep. injection Hstep as <-.
      cbn in Hev. unfold Emit.complete in Hev. rewrite Hi in Hev. cbn in Hev.
      injection Hev as <-. unfold Writer.current_world. cbn. by rewrite Has.
  - apply directory_groups_concat.
  - apply containing_directories_keys.
  - intros Hful.
    destruct (writer_count_fulfilled join dirname options outputFiles assetFiles s
                Hinv Hcount Hful) as [Hdirs Hcalls].
    pose proof (creations_exact
                  (directory_groups join dirname options outputFiles assetFiles))
      as [_ Hexact].
    rewrite directory_groups_concat in Hexact.
    split_and!; [exact Hdirs|exact Hcalls|by rewrite Hcalls|].
    intros Hinj. rewrite containing_directories_keys, remove_dups_fmap_length by done.
    by rewrite Hcalls.
Qed.

Lemma directory_creation_witness :
  exists s, Writer.run Path.join Path.dirname sample_options two_scripts None
              Writer.init two_scripts_run = Some s
            /\ 1 <= Writer.mkdir_calls (Writer.current_world s) <= 2
            /\ Writer.mkdir_calls (Writer.current_world s) = 2
            /\ Writer.directoryExists (Writer.current_world s) = {["browser"%string]}.
Proof.
  destruct (Writer.run Path.join Path.dirname sample_options two_scripts None
              Writer.init two_scripts_run) as [s|] eqn:Hrun;
    [|vm_compute in Hrun; discriminate].
  exists s. split; [reflexivity|].
  assert (Writer.promise s = Writer.Fulfilled) as Hful.
  { vm_compute in Hrun. injection Hrun as <-. reflexivity. }
  destruct (directory_creation Path.join Path.dirname sample_options two_scripts None
              two_scripts_run s Hrun) as (_ & _ & Hmax & Hmin & _ & _ & _ & Hexact).
  destruct (Hexact Hful) as (Hdirs & Hcalls & _).
  split_and!; [exact (Hmin Hful)|exact Hmax|exact Hcalls|].
  rewrite Hdirs. apply set_eq. intros d. vm_compute directory_keys. set_solver.
Defined.

(** * Further properties of the code *)

(** ** [calculateEstimatedTransferSizes]: settling *)

Section EstimatorSettling.

Import Estimator.

Variable outputFiles : list OutputFile.

(** The entries set by the loop are those of small files. *)
Lemma loop_entries_small rest : forall k s,
  (forall p n, sizes s !! p = Some n ->
     exists f, f ∈ outputFiles /\ of_path f = p /\ qualifies f = true
               /\ n = byteLength (of_contents f) /\ n < 1024) ->
  drop k outputFiles = rest ->
  forall p n, sizes (loop s k rest) !! p = Some n ->
    exists f, f ∈ outputFiles /\ of_path f = p /\ qualifies f = true
              /\ n = byteLength (of_contents f) /\ n < 1024.
Proof.
  induction rest as [|f rest IH]; intros k s Hs Hdrop; cbn [loop]; [exact Hs|].
  assert (outputFiles !! k = Some f) as Hf.
  { rewrite <- (Nat.add_0_r k), <- lookup_drop, Hdrop. reflexivity. }
  apply (IH (S k)).
  - intros p n. unfold visit.
    destruct (not_script_or_style (of_path f)) eqn:Hskip; [apply Hs|].
    destruct (Nat.ltb_spec (byteLength (of_contents f)) 1024) as [Hsmall|Hbig];
      cbn; [|apply Hs].
    intros Hl. apply lookup_insert_Some in Hl as [[<- <-]|[_ Hl]]; [|by apply Hs].
    exists f. split_and!; try done.
    + by apply list_elem_of_lookup_2 in Hf.
    + unfold qualifies. by rewrite Hskip.
  - rewrite (drop_S _ _ _ Hf) in Hdrop. congruence.
Qed.

Lemma start_entries_small p n :
  sizes (start outputFiles) !! p = Some n ->
  exists f, f ∈ outputFiles /\ of_path f = p /\ qualifies f = true
            /\ n = byteLength (of_contents f) /\ n < 1024.
Proof.
  assert (forall s, sizes (resolve s) = sizes s) as Hres.
  { intros s. unfold resolve. by destruct (promise s). }
  unfold start. destruct (_ <=? 0).
  - rewrite Hres. cbn. intros Hl. by rewrite lookup_empty in Hl.
  - assert (forall q m, sizes (loop (MkState ∅ 0 Pending ∅) 0 outputFiles) !! q = Some m ->
              exists f, f ∈ outputFiles /\ of_path f = q /\ qualifies f = true
                        /\ m = byteLength (of_contents f) /\ m < 1024) as Hloop.
    { apply (loop_entries_small outputFiles 0); [|reflexivity].
      intros q m Hl. cbn in Hl. by rewrite lookup_empty in Hl. }
    destruct (_ <=? _); [rewrite Hres|]; apply Hloop.
Qed.

(** An entry of [sizes] was there before the callbacks ran, or is the size
    handed to the callback of a file with that path. *)
Lemma run_entries evs : forall s s' p n,
  run outputFiles s evs = Some s' -> sizes s' !! p = Some n ->
  sizes s !! p = Some n
  \/ exists i f, Done i (inr n) ∈ evs /\ outputFiles !! i = Some f /\ of_path f = p.
Proof.
  assert (forall s, sizes (resolve s) = sizes s) as Hres.
  { intros s. unfold resolve. by destruct (promise s). }
  induction evs as [|[i outcome] evs IH]; intros s s' p n Hrun Hp; cbn in Hrun.
  - injection Hrun as <-. by left.
  - destruct (decide (i ∈ compressing s)); [|discriminate].
    destruct (IH _ _ _ _ Hrun Hp) as [Hhere|(j & f & Hin & Hf & Hpath)].
    + destruct outcome as [error|m]; cbn [callback] in Hhere.
      * left. unfold reject in Hhere. cbn in Hhere. by destruct (promise s).
      * destruct (outputFiles !! i) as [f|] eqn:Hf; [|by left].
        assert (<[of_path f := m]> (sizes s) !! p = Some n) as Hins.
        { destruct (_ <=? _); [rewrite Hres in Hhere|]; exact Hhere. }
        apply lookup_insert_Some in Hins as [[<- <-]|[_ Hold]]; [|by left].
        right. exists i, f. split_and!; [left|done..].
    + right. exists j, f. split_and!; [by right|done..].
Qed.

End EstimatorSettling.



(** X2: the promise of [calculateEstimatedTransferSizes] is fulfilled only
    when every compression has called back, and from then on no callback
    runs: the map handed to the caller is never changed afterwards. *)
Theorem estimate_fulfilled_is_final (outputFiles : list OutputFile)
    (evs : list Estimator.event) (s : Estimator.state) (m : gmap string nat) :
  Estimator.run outputFiles (Estimator.start outputFiles) evs = Some s ->
  Estimator.returned s = Some m ->
  Estimator.compressing s = ∅
  /\ Estimator.completeCount s = length outputFiles
  /\ (forall ev, Estimator.step outputFiles s ev = None)
  /\ forall evs' s', Estimator.run outputFiles s evs' = Some s' -> s' = s.
Proof.
  intros Hrun Hret.
  pose proof (estimate_reachable_inv outputFiles evs s Hrun) as Hinv.
  assert (Estimator.promise s = Estimator.Fulfilled) as Hp.
  { unfold Estimator.returned in Hret. by destruct (Estimator.promise s). }
  pose proof (inv_fulfilled _ _ Hinv Hp) as Hidle.
  assert (forall ev, Estimator.step outputFiles s ev = None) as Hstuck.
  { intros [i outcome]. cbn. destruct (decide _) as [Hi|]; [|done].
    rewrite Hidle in Hi. set_solver. }
  split_and!; [exact Hidle| |exact Hstuck|].
  - pose proof (v_count _ _ _ (inv_visited _ _ Hinv)) as Hc.
    rewrite Hidle, size_empty in Hc. rewrite <- Hc; [lia|].
    intros e. rewrite Hp. discriminate.
  - intros [|ev evs'] s' Hrun'; cbn in Hrun'; [by injection Hrun' as <-|].
    by rewrite Hstuck in Hrun'.
Qed.

Lemma estimate_fulfilled_is_final_witness :
  Estimator.step sample_outputs
    (Estimator.MkState sample_sizes 3 Estimator.Fulfilled ∅)
    (Estimator.Done 0 (inr 7)) = None.
Proof.
  apply (estimate_fulfilled_is_final sample_outputs [Estimator.Done 0 (inr 400)]
           (Estimator.MkState sample_sizes 3 Estimator.Fulfilled ∅) sample_sizes).
  - vm_compute; reflexivity.
  - reflexivity.
Defined.

(** X3: for a [.js] or [.css] file of 1024 bytes or more whose path no other
    file shares, the estimate returned is the byte length of the buffer that
    [brotliCompress] handed to the file's callback. *)
Theorem large_file_estimate (outputFiles : list OutputFile) (i : nat) (f : OutputFile)
    (evs : list Estimator.event) (s : Estimator.state) (m : gmap string nat) :
  outputFiles !! i = Some f ->
  (forall j g, outputFiles !! j = Some g -> of_path g = of_path f -> j = i) ->
  endsWith (of_path f) ".js" = true \/ endsWith (of_path f) ".css" = true ->
  1024 <= byteLength (of_contents f) ->
  Estimator.run outputFiles (Estimator.start outputFiles) evs = Some s ->
  Estimator.returned s = Some m ->
  exists n, Estimator.Done i (inr n) ∈ evs /\ m !! of_path f = Some n.
Proof.
  intros Hf Huniq Hext Hbig Hrun Hret.
  pose proof (estimate_reachable_inv outputFiles evs s Hrun) as Hinv.
  pose proof (returned_keys outputFiles s m Hinv Hret) as Hdom.
  assert (of_path f ∈ dom m) as Hin.
  { rewrite Hdom. unfold Estimator.qualifying_paths.
    rewrite elem_of_list_to_set, list_elem_of_fmap. exists f. split; [done|].
    apply list_elem_of_filter. split; [by apply qualifies_iff|].
    by apply list_elem_of_lookup_2 in Hf. }
  apply elem_of_dom in Hin as [n Hn]. exists n. split; [|exact Hn].
  assert (Estimator.sizes s = m) as Hm.
  { unfold Estimator.returned in Hret. destruct (Estimator.promise s); congruence. }
  rewrite <- Hm in Hn.
  destruct (run_entries outputFiles evs _ _ _ _ Hrun Hn) as [Hstart|(j & g & Hev & Hg & Hpath)].
  - destruct (start_entries_small outputFiles _ _ Hstart) as (g & Hg & Hpath & _ & -> & Hlt).
    apply list_elem_of_lookup_1 in Hg as [j Hg].
    rewrite (Huniq j g Hg Hpath) in Hg. assert (g = f) as -> by congruence. lia.
  - by rewrite (Huniq j g Hg Hpath) in Hev.
Qed.

Lemma large_file_estimate_witness :
  exists n, Estimator.Done 0 (inr n) ∈ [Estimator.Done 0 (inr 400)]
            /\ sample_sizes !! "main.js"%string = Some n.
Proof.
  apply (large_file_estimate sample_outputs 0
           (MkOutputFile "main.js" (MkUint8Array 0 0 2000) "h0")
           [Estimator.Done 0 (inr 400)]
           (Estimator.MkState sample_sizes 3 Estimator.Fulfilled ∅) sample_sizes eq_refl
           ltac:(intros [|[|[|j]]] g; cbn; intros [= <-]; cbn;
                 try reflexivity; discriminate)
           (or_introl eq_refl) ltac:(cbn; lia)).
  - vm_compute; reflexivity.
  - reflexivity.
Defined.

(** ** [emitFilesToDisk]: order, groups and settling *)

Lemma concat_waves (n w : nat) :
  concat (map (Emit.wave n) (seq 0 w)) = seq 0 (Nat.min (MAX_CONCURRENT_WRITES * w) n).
Proof.
  induction w as [|w IH]; [by rewrite Nat.mul_0_r|].
  rewrite seq_S, map_app, concat_app, IH. cbn [map concat Nat.add].
  rewrite app_nil_r. unfold Emit.wave.
  destruct (Nat.le_gt_cases (MAX_CONCURRENT_WRITES * w) n) as [Hle|Hgt].
  - rewrite (Nat.min_l _ n Hle), <- seq_app. f_equal.
    unfold MAX_CONCURRENT_WRITES in *. lia.
  - replace (n - MAX_CONCURRENT_WRITES * w) with 0 by lia.
    rewrite Nat.min_0_r. cbn [seq]. rewrite app_nil_r. f_equal.
    unfold MAX_CONCURRENT_WRITES in *. lia.
Qed.

(** The groups launched, put end to end, are the files called. *)
Lemma waves_cover {T G K E} (files : list T) (s : Emit.state G K E) :
  emit_inv files s -> concat (Emit.waves s) = seq 0 (length (Emit.tasks s)).
Proof.
  intros Hinv. rewrite (inv_waves files s Hinv), concat_waves, (inv_len files s Hinv).
  f_equal. pose proof (inv_group files s Hinv) as [Hg1 Hg2].
  pose proof (inv_group_wave files s Hinv) as Hgw.
  pose proof (inv_start files s Hinv) as Hstart.
  unfold MAX_CONCURRENT_WRITES in *.
  destruct (Emit.waves s) as [|w ws]; [rewrite Hstart by done; cbn; lia|].
  cbn [length] in *. lia.
Qed.

(** *** The callback made to record what it is called with

    To say which file each call receives, the callback is given a log to
    keep: next to what the callbacks share, the list of the files they
    have been called with.  It behaves as before in every other respect. *)

Section EmitLogged.

Context {T G K R E : Type}.
Variable start : T -> G -> G * Emit.task K E.
Variable resume : K -> R -> G -> option (G * Emit.task K E).
Variable files : list T.

Definition logged_start (file : T) (gl : G * list T) : (G * list T) * Emit.task K E :=
  let '(g, t) := start file gl.1 in ((g, gl.2 ++ [file]), t).

Definition logged_resume (k : K) (r : R) (gl : G * list T)
  : option ((G * list T) * Emit.task K E) :=
  match resume k r gl.1 with
  | Some (g, t) => Some ((g, gl.2), t)
  | None => None
  end.

(** A state of the logged run without its log. *)
Definition unlogged (s : Emit.state (G * list T) K E) : Emit.state G K E :=
  Emit.MkState (Emit.shared s).1 (Emit.fileIndex s) (Emit.group s) (Emit.tasks s)
               (Emit.waves s) (Emit.outcome s).

Lemma logged_launch (group : list T) : forall g log g' actions,
  Emit.launch start g group = (g', actions) ->
  Emit.launch logged_start (g, log) group
  = ((g', log ++ take (length actions) group), actions).
Proof.
  induction group as [|f group IH]; intros g log g' actions Hl; cbn in Hl |- *.
  - injection Hl as <- <-. by rewrite app_nil_r.
  - unfold logged_start at 1. cbn [fst snd]. destruct (start f g) as [g1 t].
    destruct (Emit.launch start g1 group) as [g2 ts] eqn:Hrest.
    rewrite (IH g1 (log ++ [f]) g2 ts Hrest).
    destruct t; injection Hl as <- <-; cbn [length take]; by rewrite <- ?app_assoc.
Qed.

(** The logged run does what the plain one does. *)
Lemma logged_step s ev s1 :
  Emit.step start resume files (unlogged s) ev = Some s1 ->
  exists s', Emit.step logged_start logged_resume files s ev = Some s'
             /\ unlogged s' = s1.
Proof.
  destruct s as [[g log] fileIndex group tasks waves outcome].
  destruct ev as [|i r]; cbn [Emit.step].
  - unfold Emit.advance, unlogged.
    cbn [Emit.shared Emit.fileIndex Emit.group Emit.tasks Emit.waves Emit.outcome fst snd].
    destruct outcome; try discriminate.
    destruct (forallb _ _); [|discriminate].
    destruct (fileIndex <? length files).
    + destruct (Emit.launch start g _) as [g' actions] eqn:Hl.
      rewrite (logged_launch _ _ log _ _ Hl). intros [= <-]. eexists. split; reflexivity.
    + intros [= <-]. eexists. split; reflexivity.
  - unfold Emit.complete, unlogged.
    cbn [Emit.shared Emit.fileIndex Emit.group Emit.tasks Emit.waves Emit.outcome fst snd].
    destruct (tasks !! i) as [[k| | |]|]; try discriminate.
    unfold logged_resume. cbn [fst snd].
    destruct (resume k r g) as [[g' t]|]; [|discriminate].
    intros [= <-]. eexists. split; reflexivity.
Qed.

Lemma logged_run evs : forall s s1,
  Emit.run start resume files (unlogged s) evs = Some s1 ->
  exists s', Emit.run logged_start logged_resume files s evs = Some s'
             /\ unlogged s' = s1.
Proof.
  induction evs as [|ev evs IH]; intros s s1 Hrun; cbn in Hrun |- *.
  - injection Hrun as <-. by exists s.
  - destruct (Emit.step start resume files (unlogged s) ev) as [s2|] eqn:Hstep;
      [|discriminate].
    destruct (logged_step s ev s2 Hstep) as (s' & -> & <-). by apply IH.
Qed.

(** The log holds the files called, in the order of the list. *)
Lemma logged_files g evs s :
  Emit.run logged_start logged_resume files (Emit.init (g, [])) evs = Some s ->
  (Emit.shared s).2 = take (length (Emit.tasks s)) files.
Proof.
  intros Hrun.
  pose proof (emit_reachable_inv _ _ files _ evs s Hrun) as Hinv.
  rewrite (inv_len files s Hinv).
  apply (run_keeps logged_start logged_resume files (fun gl fs _ => gl.2 = fs))
    with (evs := evs) (s := Emit.init (g, [])); [| |apply emit_init_inv|done|done].
  - intros [g0 log] fs ts f gl t Hlog _. cbn in Hlog. subst fs.
    unfold logged_start. cbn.
    destruct (start f g0) as [g1 t1]. by intros [= <- _].
  - intros [g0 log] fs ts i f k r gl t Hlog _ _. cbn in Hlog. subst fs.
    unfold logged_resume. cbn.
    destruct (resume k r g0) as [[g1 t1]|]; [|discriminate]. by intros [= <- _].
Qed.

End EmitLogged.

(** A callback that keeps a log of its own, for a sample run. *)
Example logged_sample :
  exists s, Emit.run (logged_start (throw_at 3)) (logged_resume OneStep.resume)
              [10; 11; 12; 3; 14] (Emit.init (tt, [])) [Emit.Advance] = Some s
            /\ (Emit.shared s).2 = [10; 11; 12; 3]
            /\ Emit.outcome s = Emit.Rejected 3 "EINVAL"%string.
Proof. eexists. split; [vm_compute; reflexivity|]. split; reflexivity. Qed.

(** X4: whatever the callback does, [emitFilesToDisk] calls it with the
    files of the list in their order, each at most once and without gaps.
    Had the callback kept a log of the files it is called with, the run
    would have been the same and the log would hold the first [k] files of
    the list, [k] being the number of calls made; the groups launched, put
    end to end, are the indices [0 .. k).  When the operation resolves,
    every file has been passed to the callback, and every callback has
    finished, in [ceil(n / 64)] groups. *)
Theorem files_called_in_order {T G K R E : Type}
    (start : T -> G -> G * Emit.task K E)
    (resume : K -> R -> G -> option (G * Emit.task K E))
    (files : list T) (g : G) (evs : list (Emit.event R)) (s : Emit.state G K E) :
  Emit.run start resume files (Emit.init g) evs = Some s ->
  (exists s', Emit.run (logged_start start) (logged_resume resume) files
                (Emit.init (g, [])) evs = Some s'
              /\ unlogged s' = s
              /\ (Emit.shared s').2 = take (length (Emit.tasks s)) files
              /\ (Emit.outcome s = Emit.Resolved -> (Emit.shared s').2 = files))
  /\ concat (Emit.waves s) = seq 0 (length (Emit.tasks s))
  /\ length (Emit.tasks s) <= length files
  /\ (Emit.outcome s = Emit.Resolved ->
      concat (Emit.waves s) = seq 0 (length files)
      /\ length (Emit.waves s) = (length files + 63) / 64
      /\ Forall (fun t => t = Emit.Finished) (Emit.tasks s)).
Proof.
  intros Hrun.
  pose proof (emit_reachable_inv start resume files g evs s Hrun) as Hinv.
  pose proof (waves_cover files s Hinv) as Hcat.
  pose proof (inv_len files s Hinv) as Hlen.
  split_and!; [|exact Hcat| |].
  - destruct (logged_run start resume files evs (Emit.init (g, [])) s Hrun)
      as (s' & Hrun' & Hs').
    pose proof (logged_files start resume files g evs s' Hrun') as Hlog.
    assert (Emit.tasks s' = Emit.tasks s) as Ht by (by rewrite <- Hs').
    rewrite Ht in Hlog.
    exists s'. split_and!; [done..|].
    intros Hres. destruct (inv_resolved files s Hinv Hres) as [Hn _].
    rewrite Hlog, Hlen, Hn. by rewrite take_ge.
  - rewrite Hlen. exact (inv_le files s Hinv).
  - intros Hres. destruct (inv_resolved files s Hinv Hres) as [Hn Hall].
    assert (threw_free (Emit.tasks s)) as Hfree.
    { intros i e Hi. apply lookup_lt_Some in Hi as Hlt.
      rewrite Hall in Hi by lia. discriminate. }
    split_and!.
    + by rewrite Hcat, Hlen, Hn.
    + pose proof (inv_index files s Hinv Hfree) as Hidx.
      pose proof (inv_group_wave files s Hinv) as Hgw.
      pose proof (inv_nonempty files s Hinv) as Hne.
      pose proof (inv_group files s Hinv) as [Hg1 Hg2].
      unfold MAX_CONCURRENT_WRITES in *.
      destruct (Emit.waves s) as [|w ws] eqn:Hw.
      * cbn in *. assert (length files = 0) as -> by lia. reflexivity.
      * specialize (Hne ltac:(discriminate)). cbn [length] in *.
        apply Nat.div_unique with (r := length files + 63 - 64 * S (length ws)); lia.
    + apply Forall_forall. intros t Ht. apply list_elem_of_lookup_1 in Ht as [i Hi].
      apply lookup_lt_Some in Hi as Hlt. rewrite Hall in Hi by lia. congruence.
Qed.

Lemma files_called_in_order_witness :
  exists s, OneStep.run OneStep.all_succeed = Some s
            /\ concat (Emit.waves s) = seq 0 (length (Emit.tasks s))
            /\ exists s', Emit.run (logged_start OneStep.start) (logged_resume OneStep.resume)
                            (seq 0 130) (Emit.init (tt, [])) OneStep.all_succeed = Some s'
                          /\ unlogged s' = s
                          /\ (Emit.shared s').2 = take (length (Emit.tasks s)) (seq 0 130)
                          /\ (Emit.outcome s = Emit.Resolved ->
                              (Emit.shared s').2 = seq 0 130).
Proof.
  destruct (OneStep.run OneStep.all_succeed) as [s|] eqn:Hrun;
    [|vm_compute in Hrun; discriminate].
  exists s. split; [reflexivity|].
  destruct (files_called_in_order OneStep.start OneStep.resume (seq 0 130) tt
              OneStep.all_succeed s Hrun) as (Hlog & Hcat & _).
  split; [exact Hcat|exact Hlog].
Defined.

(** X5: whatever the callback does, at most 64 calls of it are in flight at
    any time, and groups never overlap: a group is launched only when every
    callback of the earlier groups has finished. *)
Theorem groups_do_not_overlap {T G K R E : Type}
    (start : T -> G -> G * Emit.task K E)
    (resume : K -> R -> G -> option (G * Emit.task K E))
    (files : list T) (g : G) (evs : list (Emit.event R)) (s : Emit.state G K E) :
  Emit.run start resume files (Emit.init g) evs = Some s ->
  Emit.in_flight s <= 64
  /\ forall earlier last, Emit.waves s = earlier ++ [last] ->
       forall w i, w ∈ earlier -> i ∈ w -> Emit.tasks s !! i = Some Emit.Finished.
Proof.
  intros Hrun.
  pose proof (emit_reachable_inv start resume files g evs s Hrun) as Hinv.
  split; [exact (in_flight_bound files s Hinv)|].
  intros earlier last Hw w i Hin Hi.
  apply (inv_before files s Hinv). rewrite (inv_group_wave files s Hinv).
  pose proof (inv_waves files s Hinv) as Hwaves.
  rewrite Hw, length_app in *. cbn [length] in *.
  rewrite Nat.add_1_r, seq_S, map_app in Hwaves. cbn in Hwaves.
  apply app_inj_tail in Hwaves as [Hearlier _].
  rewrite Hearlier in Hin. apply list_elem_of_fmap in Hin as (k & -> & Hk).
  apply elem_of_seq in Hk. unfold Emit.wave in Hi. apply elem_of_seq in Hi.
  unfold MAX_CONCURRENT_WRITES in *. lia.
Qed.

Lemma groups_do_not_overlap_witness :
  exists s, OneStep.run OneStep.item_70_fails_first = Some s
            /\ Emit.in_flight s <= 64.
Proof.
  destruct (OneStep.run OneStep.item_70_fails_first) as [s|] eqn:Hrun;
    [|vm_compute in Hrun; discriminate].
  exists s. split; [reflexivity|].
  exact (proj1 (groups_do_not_overlap OneStep.start OneStep.resume (seq 0 130) tt
                  OneStep.item_70_fails_first s Hrun)).
Defined.

Section EmitSettled.

Context {T G K R E : Type}.
Variable start : T -> G -> G * Emit.task K E.
Variable resume : K -> R -> G -> option (G * Emit.task K E).
Variable files : list T.

Lemma rejected_step s ev s' j e :
  Emit.outcome s = Emit.Rejected j e ->
  Emit.step start resume files s ev = Some s' ->
  Emit.outcome s' = Emit.Rejected j e
  /\ Emit.fileIndex s' = Emit.fileIndex s /\ Emit.waves s' = Emit.waves s
  /\ length (Emit.tasks s') = length (Emit.tasks s).
Proof.
  intros Hout. destruct ev as [|i r]; cbn.
  - unfold Emit.advance. by rewrite Hout.
  - unfold Emit.complete. destruct (Emit.tasks s !! i) as [[k| | |]|]; try discriminate.
    destruct (resume k r (Emit.shared s)) as [[g t]|]; [|discriminate].
    intros [= <-]. cbn. rewrite Hout, length_insert. done.
Qed.

End EmitSettled.

(** X6: a rejection of [emitFilesToDisk] is final.  The callbacks still in
    flight go on and may fail too, but the error reported stays that of the
    first rejection, and no further file is ever called. *)
Theorem rejection_is_final {T G K R E : Type}
    (start : T -> G -> G * Emit.task K E)
    (resume : K -> R -> G -> option (G * Emit.task K E))
    (files : list T) (evs : list (Emit.event R)) (s s' : Emit.state G K E)
    (j : nat) (e : E) :
  Emit.outcome s = Emit.Rejected j e ->
  Emit.run start resume files s evs = Some s' ->
  Emit.outcome s' = Emit.Rejected j e
  /\ Emit.waves s' = Emit.waves s
  /\ length (Emit.tasks s') = length (Emit.tasks s).
Proof.
  revert s. induction evs as [|ev evs IH]; intros s Hout Hrun; cbn in Hrun.
  - by injection Hrun as <-.
  - destruct (Emit.step start resume files s ev) as [s1|] eqn:Hstep; [|discriminate].
    destruct (rejected_step start resume files s ev s1 j e Hout Hstep)
      as (Hout1 & _ & Hw1 & Hl1).
    destruct (IH s1 Hout1 Hrun) as (Hout' & Hw' & Hl').
    split_and!; congruence.
Qed.

Lemma rejection_is_final_witness :
  exists s', Emit.run OneStep.start OneStep.resume (seq 0 2)
               (Emit.MkState tt 2 0 [Emit.Failed "EIO"%string; Emit.Suspended tt] [[0; 1]]
                             (Emit.Rejected 0 "EIO"%string))
               [Emit.Complete 1 (Some "ENOSPC"%string)] = Some s'
             /\ Emit.outcome s' = Emit.Rejected 0 "EIO"%string.
Proof.
  eexists. split; [reflexivity|].
  exact (proj1 (rejection_is_final OneStep.start OneStep.resume (seq 0 2)
                  [Emit.Complete 1 (Some "ENOSPC"%string)]
                  (Emit.MkState tt 2 0 [Emit.Failed "EIO"%string; Emit.Suspended tt] [[0; 1]]
                                (Emit.Rejected 0 "EIO"%string))
                  _ 0 "EIO"%string eq_refl eq_refl)).
Defined.

(** ** [writeResultFiles]: order and number of the calls *)

Section WriterOrder.

Import Writer.

Variable join : string -> string -> string.
Variable dirname : string -> string.
Variable options : NormalizedOutputOptions.

Context {T : Type}.
Variable plan : T -> Error + (string * FsOp).
Hypothesis plan_not_mkdir : forall f dest next, plan f = inr (dest, next) -> ~ is_mkdir next.
Variable w0 : world.

(** The call [op] is that of a file of [fs], made after the creation of the
    file's directory was called for ([before] holds the earlier calls), and
    the directory is recorded in [w]. *)
Definition explained (fs : list T) (w : world) (before : list FsOp) (op : FsOp) : Prop :=
  exists f dest, f ∈ fs /\ plan f = inr (dest, op)
    /\ Mkdir (join (base options) (dirname dest)) ∈ before
    /\ dirname dest ∈ directoryExists w.

(** What explains the calls of an earlier phase. *)
Variable prior : world -> list FsOp -> FsOp -> Prop.
Hypothesis prior_extends : forall w w' l op, extends w w' -> prior w l op -> prior w' l op.

Definition ordered (w : world) (fs : list T) : Prop :=
  forall k op, calls w !! k = Some op -> ~ is_mkdir op ->
    prior w (take k (calls w)) op \/ explained fs w (take k (calls w)) op.

(** Calls that write or copy. *)
Definition file_calls (w : world) : nat :=
  length (filter (fun op => ~ is_mkdir op) (calls w)).

Definition made_call (t : task) : nat :=
  match t with
  | Emit.Suspended AwaitWritten | Emit.Finished => 1
  | _ => 0
  end.

Definition has_failed (t : task) : nat :=
  match t with Emit.Failed _ => 1 | _ => 0 end.

Definition counted (w : world) (ts : list task) : Prop :=
  file_calls w0 + sum_list_with made_call ts <= file_calls w
  /\ file_calls w <= file_calls w0 + sum_list_with made_call ts
                     + sum_list_with has_failed ts.

Definition phase_inv2 (w : world) (fs : list T) (ts : list task) : Prop :=
  phase_inv join dirname options plan w0 w fs ts /\ ordered w fs /\ counted w ts.

Lemma explained_extends fs fs' w w' l op :
  extends w w' -> explained fs w l op -> explained (fs ++ fs') w' l op.
Proof.
  intros [Hd _] (f & dest & Hf & Hp & Hm & Hdir). exists f, dest.
  split_and!; [|done..|by apply Hd]. apply elem_of_app. by left.
Qed.

Lemma ordered_snoc w w' fs fs' op :
  extends w w' -> calls w' = calls w ++ [op] ->
  (~ is_mkdir op -> explained (fs ++ fs') w' (calls w) op) ->
  ordered w fs -> ordered w' (fs ++ fs').
Proof.
  intros Hext Hcalls Hop Hord k op' Hk Hnm. rewrite Hcalls in *.
  destruct (decide (k < length (calls w))) as [Hlt|Hge].
  - rewrite lookup_app_l in Hk by done. rewrite take_app_le by lia.
    destruct (Hord k op' Hk Hnm) as [Hprior|Hexp].
    + left. by apply (prior_extends w).
    + right. by apply (explained_extends _ _ w).
  - apply lookup_lt_Some in Hk as Hlen. rewrite length_app in Hlen. cbn in Hlen.
    assert (k = length (calls w)) as -> by lia.
    rewrite list_lookup_middle in Hk by done. injection Hk as <-.
    rewrite take_app_length. right. by apply Hop.
Qed.

Lemma ordered_same w w' fs fs' :
  extends w w' -> calls w' = calls w -> ordered w fs -> ordered w' (fs ++ fs').
Proof.
  intros Hext Hcalls Hord k op Hk Hnm. rewrite Hcalls in *.
  destruct (Hord k op Hk Hnm) as [Hprior|Hexp].
  - left. by apply (prior_extends w).
  - right. by apply (explained_extends _ _ w).
Qed.

Lemma file_calls_snoc w ds op :
  file_calls (MkWorld ds (calls w ++ [op]))
  = file_calls w + (if decide (is_mkdir op) then 0 else 1).
Proof.
  unfold file_calls. cbn. rewrite filter_app, length_app. f_equal.
  rewrite filter_cons, filter_nil. destruct (decide (is_mkdir op)); by case_decide.
Qed.

Lemma sum_list_insert (f : task -> nat) (ts : list task) : forall i t t',
  ts !! i = Some t ->
  sum_list_with f (<[i := t']> ts) + f t = sum_list_with f ts + f t'.
Proof.
  induction ts as [|x ts IH]; intros [|i] t t' Hi; try discriminate.
  - injection Hi as ->. simpl. lia.
  - pose proof (IH i t t' Hi) as IH'. simpl. lia.
Qed.

Lemma sum_list_snoc (f : task -> nat) (ts : list task) t :
  sum_list_with f (ts ++ [t]) = sum_list_with f ts + f t.
Proof. rewrite sum_list_with_app. cbn. lia. Qed.

Lemma planned_keeps2 w fs ts f w' t :
  phase_inv2 w fs ts -> length fs = length ts ->
  planned join dirname options plan f w = (w', t) ->
  phase_inv2 w' (fs ++ [f]) (ts ++ [t]).
Proof.
  intros (Hinv & Hord & Hlow & Hhigh) Hlen Hstart.
  pose proof (planned_extends join dirname options plan f w w' t Hstart) as Hext.
  split; [by apply (planned_keeps join dirname options plan w0 w)|].
  unfold planned in Hstart. destruct (plan f) as [e|[dest next]] eqn:Hplan.
  - injection Hstart as <- <-. split; [by apply (ordered_same w)|].
    unfold counted. rewrite !sum_list_snoc. cbn. lia.
  - unfold ensure_then, ensureDirectoryExists in Hstart.
    destruct (decide (dirname dest ∈ directoryExists w)); injection Hstart as <- <-.
    + split; [by apply (ordered_same w)|].
      unfold counted. rewrite !sum_list_snoc. cbn. lia.
    + split.
      * apply (ordered_snoc w _ fs [f] (Mkdir (join (base options) (dirname dest))));
          [done..| |done].
        intros Hnm. by destruct Hnm.
      * unfold counted. rewrite !sum_list_snoc, file_calls_snoc. cbn.
        rewrite decide_True by done. lia.
Qed.

Lemma resume_keeps2 w fs ts i f k r w' t :
  phase_inv2 w fs ts -> fs !! i = Some f -> ts !! i = Some (Emit.Suspended k) ->
  resume k r w = Some (w', t) ->
  phase_inv2 w' fs (<[i := t]> ts).
Proof.
  intros (Hinv & Hord & Hlow & Hhigh) Hf Hi Hres.
  pose proof (resume_extends join dirname plan plan_not_mkdir k r w w' t Hres) as Hext.
  pose proof (Forall2_lookup_lr _ _ _ _ _ _ (pi_tasks _ _ _ _ _ _ _ _ Hinv) Hf Hi) as Hok.
  pose proof (sum_list_insert made_call ts i _ t Hi) as Hmade.
  pose proof (sum_list_insert has_failed ts i _ t Hi) as Hfail.
  split; [by apply (resume_keeps join dirname options plan plan_not_mkdir w0 w fs ts i f k r)|].
  assert (f ∈ fs) as Hfin by (by apply list_elem_of_lookup_2 in Hf).
  assert (forall w1, extends w w1 -> calls w1 = calls w -> ordered w1 fs) as Hsame.
  { intros w1 Hext1 Hc1. rewrite <- (app_nil_r fs). by apply (ordered_same w). }
  assert (forall w1 next dest, extends w w1 -> calls w1 = calls w ++ [next] ->
            plan f = inr (dest, next) ->
            Mkdir (join (base options) (dirname dest)) ∈ calls w ->
            dirname dest ∈ directoryExists w1 -> ordered w1 fs) as Hsnoc.
  { intros w1 next dest Hext1 Hc1 Hp Hm Hd. rewrite <- (app_nil_r fs).
    apply (ordered_snoc w w1 fs [] next); [done..| |done].
    intros _. exists f, dest. split_and!; [|done..]. by rewrite app_nil_r. }
  destruct k as [bp next|next|], r as [|e]; cbn in Hres, Hok, Hmade, Hfail;
    try discriminate; injection Hres as <- <-; cbn in Hmade, Hfail.
  - destruct Hok as (dest & Hp & -> & Hmk). split.
    + apply (Hsnoc _ next dest); [done..|set_solver].
    + unfold counted. rewrite file_calls_snoc.
      destruct (decide (is_mkdir next)) as [Hm|]; [by destruct (plan_not_mkdir f dest next Hp)|].
      unfold file_calls in *. lia.
  - split; [by apply Hsame|]. unfold counted, file_calls in *. lia.
  - destruct Hok as (dest & Hp & Hdir). split.
    + apply (Hsnoc _ next dest); [done..| |done].
      exact (pi_dirs _ _ _ _ _ _ _ _ Hinv _ Hdir).
    + unfold counted. rewrite file_calls_snoc.
      destruct (decide (is_mkdir next)) as [Hm|]; [by destruct (plan_not_mkdir f dest next Hp)|].
      unfold file_calls in *. lia.
  - split; [by apply Hsame|]. unfold counted, file_calls in *. lia.
  - split; [by apply Hsame|]. unfold counted, file_calls in *. lia.
Qed.

Variable start : T -> world -> world * task.
Hypothesis start_planned : forall f w, start f w = planned join dirname options plan f w.
Variable files : list T.

Definition phase_kept2 (s : Emit.state world cont Error) : Prop :=
  phase_inv2 (Emit.shared s) (take (Emit.fileIndex s) files) (Emit.tasks s).

Lemma phase_step2 s ev s' :
  emit_inv files s -> phase_kept2 s ->
  Emit.step start resume files s ev = Some s' -> phase_kept2 s'.
Proof.
  intros Hinv Hkept Hstep.
  apply (step_keeps start resume files phase_inv2) with (s := s) (ev := ev); try done.
  - intros g fs ts f g' t HP Hlen Hs. rewrite start_planned in Hs.
    by apply (planned_keeps2 g).
  - intros g fs ts i f k r g' t HP Hf Hi Hres.
    rewrite (resume_settled _ _ _ _ _ Hres). by apply (resume_keeps2 g fs ts i f k r).
Qed.

End WriterOrder.

Section WriterOrderFacts.

Import Writer.

Variable join : string -> string -> string.
Variable dirname : string -> string.
Variable options : NormalizedOutputOptions.
Variable outputFiles : list BuildOutputFile.
Variable assetFiles : option (list BuildOutputAsset).

#[local] Abbreviation p_out := (plan_output join options).
#[local] Abbreviation p_asset := (plan_asset join options).

Definition no_prior (w : world) (l : list FsOp) (op : FsOp) : Prop := False.

Definition output_prior : world -> list FsOp -> FsOp -> Prop :=
  explained join dirname options p_out outputFiles.

Lemma output_prior_extends w w' l op :
  extends w w' -> output_prior w l op -> output_prior w' l op.
Proof.
  intros Hext Hp. unfold output_prior. rewrite <- (app_nil_r outputFiles).
  by apply (explained_extends join dirname options p_out outputFiles [] w).
Qed.

Record writer_inv2 (s : state) : Prop := MkWriterInv2
  { wi2_base : writer_inv join dirname options outputFiles assetFiles s;
    wi2_outputs :
      phase_kept2 join dirname options p_out (MkWorld ∅ []) no_prior outputFiles (outputs s);
    wi2_assets : forall a l,
      assets s = Some a -> assets_to_copy assetFiles = Some l ->
      phase_kept2 join dirname options p_asset (Emit.shared (outputs s)) output_prior l a }.

Lemma explained_take {T} (plan : T -> Error + (string * FsOp)) n fs w l op :
  explained join dirname options plan (take n fs) w l op ->
  explained join dirname options plan fs w l op.
Proof.
  intros (f & dest & Hf & Hrest). exists f, dest. split; [|done].
  apply list_elem_of_lookup_1 in Hf as [i Hf]. apply lookup_take_Some in Hf as [Hf _].
  by apply list_elem_of_lookup_2 in Hf.
Qed.

Lemma writer_init_inv2 : writer_inv2 init.
Proof.
  split; [apply writer_init_inv| |discriminate].
  split_and!.
  - apply phase_init. cbn. set_solver.
  - intros k op Hk. cbn in Hk. by rewrite lookup_nil in Hk.
  - unfold counted. cbn. lia.
Qed.

Lemma writer_step_inv2 s ev s' :
  writer_inv2 s ->
  Writer.step join dirname options outputFiles assetFiles s ev = Some s' ->
  writer_inv2 s'.
Proof.
  intros [Hbase Hout Hassets] Hstep.
  destruct (writer_step_inv join dirname options outputFiles assetFiles s ev s' Hbase Hstep)
    as (Hbase' & _ & _).
  split; [exact Hbase'|..]; destruct ev as [ev| |ev]; cbn in Hstep.
  - destruct (Emit.step _ _ _ (outputs s) ev) as [o'|] eqn:Hev; [|discriminate].
    injection Hstep as <-. cbn.
    apply (phase_step2 join dirname options p_out
             (plan_output_not_mkdir join options) (MkWorld ∅ []) no_prior
             ltac:(by intros ? ? ? ? ? [])
             _ (writeOutputFile_planned join dirname options)
             outputFiles (outputs s) ev o'); [apply Hbase|done..].
  - destruct (Emit.outcome (outputs s)); try discriminate.
    destruct (assets s); [discriminate|]. destruct (returned s); [discriminate|].
    by destruct (assets_to_copy assetFiles); injection Hstep as <-.
  - destruct (assets s) as [a|]; [|discriminate].
    destruct (assets_to_copy assetFiles) as [l|]; [|discriminate].
    destruct (Emit.step _ _ l a ev) as [a'|]; [|discriminate].
    by injection Hstep as <-.
  - destruct (Emit.step _ _ _ (outputs s) ev) as [o'|] eqn:Hev; [|discriminate].
    injection Hstep as <-. cbn. intros a l Ha.
    assert (Emit.outcome (outputs s) <> Emit.Resolved) as Hnres.
    { intros Hres.
      by rewrite (resolved_is_final _ _ outputFiles (outputs s) ev
                    (wi_outputs _ _ _ _ _ _ Hbase) Hres) in Hev. }
    by destruct (wi_assets _ _ _ _ _ _ Hbase a Ha) as (_ & _ & Hres & _).
  - destruct (Emit.outcome (outputs s)) eqn:Hres; try discriminate.
    destruct (assets s) eqn:Has; [discriminate|].
    destruct (returned s); [discriminate|].
    destruct (assets_to_copy assetFiles) as [l|] eqn:Hl; injection Hstep as <-; cbn;
      [|discriminate].
    intros a l' [= <-] [= <-]. destruct Hout as (Hinv & Hord & Hcount).
    split_and!.
    + apply phase_init. exact (pi_dirs _ _ _ _ _ _ _ _ Hinv).
    + intros k op Hk Hnm. left. cbn in Hk |- *.
      destruct (Hord k op Hk Hnm) as [[]|Hexp]. by apply explained_take in Hexp.
    + unfold counted. cbn. lia.
  - destruct (assets s) as [a|] eqn:Has; [|discriminate].
    destruct (assets_to_copy assetFiles) as [l|] eqn:Hl; [|discriminate].
    destruct (Emit.step _ _ l a ev) as [a'|] eqn:Hev; [|discriminate].
    injection Hstep as <-. cbn. intros a0 l0 [= <-] [= <-].
    destruct (wi_assets _ _ _ _ _ _ Hbase a Has) as (l' & Hl' & _ & Hia & _).
    assert (l' = l) as -> by congruence.
    apply (phase_step2 join dirname options p_asset
             (plan_asset_not_mkdir join options) (Emit.shared (outputs s)) output_prior
             output_prior_extends
             _ (copyAssetFile_planned join dirname options)
             l a ev a'); [done| |done].
    by apply Hassets.
Qed.

Lemma writer_run_inv2 evs : forall s s',
  writer_inv2 s ->
  Writer.run join dirname options outputFiles assetFiles s evs = Some s' ->
  writer_inv2 s'.
Proof.
  induction evs as [|ev evs IH]; intros s s' Hinv Hrun; cbn in Hrun.
  - by injection Hrun as <-.
  - destruct (Writer.step join dirname options outputFiles assetFiles s ev) as [s1|] eqn:Hstep;
      [|discriminate].
    exact (IH s1 s' (writer_step_inv2 s ev s1 Hinv Hstep) Hrun).
Qed.

Lemma writer_reachable_inv2 evs s :
  Writer.run join dirname options outputFiles assetFiles init evs = Some s ->
  writer_inv2 s.
Proof. apply writer_run_inv2, writer_init_inv2. Qed.

(** Every write or copy in the sequence of calls is explained. *)
Lemma calls_explained s k op :
  writer_inv2 s -> calls (current_world s) !! k = Some op -> ~ is_mkdir op ->
  explained join dirname options p_out outputFiles (current_world s)
    (take k (calls (current_world s))) op
  \/ exists l, assetFiles = Some l
               /\ explained join dirname options p_asset l (current_world s)
                    (take k (calls (current_world s))) op.
Proof.
  intros [Hbase Hout Hassets] Hk Hnm. unfold current_world in *.
  destruct (assets s) as [a|] eqn:Has.
  - destruct (wi_assets _ _ _ _ _ _ Hbase a Has) as (l & Hl & _).
    destruct (Hassets a l eq_refl Hl) as (_ & Hord & _).
    destruct (Hord k op Hk Hnm) as [Hprior|Hexp]; [by left|].
    right. exists l. split; [by apply assets_to_copy_Some in Hl as [? _]|].
    by apply explained_take in Hexp.
  - destruct Hout as (_ & Hord & _).
    destruct (Hord k op Hk Hnm) as [[]|Hexp]. left. by apply explained_take in Hexp.
Qed.

Lemma made_or_failed (ts : list task) :
  sum_list_with made_call ts + sum_list_with has_failed ts <= length ts.
Proof.
  induction ts as [|[[| |]| | |] ts IH]; cbn in *; lia.
Qed.

Lemma all_finished_made (ts : list task) :
  Forall (fun t => t = Emit.Finished) ts ->
  sum_list_with made_call ts = length ts /\ sum_list_with has_failed ts = 0.
Proof.
  induction 1 as [|t ts -> _ IH]; cbn in *; lia.
Qed.

Lemma resolved_all_finished {T} (files : list T) (s : Emit.state world cont Error) :
  emit_inv files s -> Emit.outcome s = Emit.Resolved ->
  Forall (fun t => t = Emit.Finished) (Emit.tasks s) /\ length (Emit.tasks s) = length files.
Proof.
  intros Hinv Hres. destruct (inv_resolved files s Hinv Hres) as [Hn Hall].
  pose proof (inv_len files s Hinv) as Hlen. split; [|lia].
  apply Forall_forall. intros t Ht. apply list_elem_of_lookup_1 in Ht as [i Hi].
  apply lookup_lt_Some in Hi as Hlt. rewrite Hall in Hi by lia. congruence.
Qed.

End WriterOrderFacts.

(** X7: [writeResultFiles] never writes or copies a file before the
    directory that is to contain it is there: in the sequence of calls, each
    [fs.writeFile] and each [fs.copyFile] comes after an [fs.mkdir] of the
    file's directory, and that directory is recorded in [directoryExists],
    which happens only once an [fs.mkdir] for it has succeeded. *)
Theorem directory_before_file
    (join : string -> string -> string) (dirname : string -> string)
    (options : NormalizedOutputOptions)
    (outputFiles : list BuildOutputFile) (assetFiles : option (list BuildOutputAsset))
    (evs : list Writer.event) (s : Writer.state) :
  Writer.run join dirname options outputFiles assetFiles Writer.init evs = Some s ->
  (forall k p data,
      Writer.calls (Writer.current_world s) !! k = Some (Writer.WriteFile p data) ->
      exists file dir,
        file ∈ outputFiles
        /\ Writer.outputDir options (BuildOutputFile.type file) = Some dir
        /\ p = join (base options) (join dir (BuildOutputFile.path file))
        /\ Writer.Mkdir (join (base options)
                           (dirname (join dir (BuildOutputFile.path file))))
           ∈ take k (Writer.calls (Writer.current_world s))
        /\ dirname (join dir (BuildOutputFile.path file))
           ∈ Writer.directoryExists (Writer.current_world s))
  /\ (forall k src dest,
        Writer.calls (Writer.current_world s) !! k = Some (Writer.CopyFile src dest) ->
        exists l asset,
          assetFiles = Some l /\ asset ∈ l /\ src = source asset
          /\ dest = join (base options) (join (browser options) (destination asset))
          /\ Writer.Mkdir (join (base options)
                             (dirname (join (browser options) (destination asset))))
             ∈ take k (Writer.calls (Writer.current_world s))
          /\ dirname (join (browser options) (destination asset))
             ∈ Writer.directoryExists (Writer.current_world s)).
Proof.
  intros Hrun.
  pose proof (writer_reachable_inv2 join dirname options outputFiles assetFiles evs s Hrun)
    as Hinv.
  split.
  - intros k p data Hk.
    destruct (calls_explained join dirname options outputFiles assetFiles s k _ Hinv Hk)
      as [(f & d & Hf & Hp & Hm & Hd)|(l & _ & (a & d & _ & Hp & _))]; [by intros []| |].
    + unfold plan_output in Hp.
      destruct (Writer.outputDir options (BuildOutputFile.type f)) as [dir|] eqn:Hdir;
        [|discriminate].
      injection Hp as <- <- _. by exists f, dir.
    + unfold plan_asset in Hp. discriminate.
  - intros k src dest Hk.
    destruct (calls_explained join dirname options outputFiles assetFiles s k _ Hinv Hk)
      as [(f & d & Hf & Hp & Hm & Hd)|(l & Hl & (a & d & Ha & Hp & Hm & Hd))]; [by intros []| |].
    + unfold plan_output in Hp.
      destruct (Writer.outputDir options (BuildOutputFile.type f)); discriminate.
    + unfold plan_asset in Hp. injection Hp as <- <- <-. by exists l, a.
Qed.

Lemma directory_before_file_witness :
  exists s, Writer.run Path.join Path.dirname sample_options one_of_each one_asset
              Writer.init one_of_each_run = Some s
            /\ exists l asset,
                 one_asset = Some l /\ asset ∈ l /\ "/src/favicon.ico"%string = source asset
                 /\ "dist/browser/favicon.ico"%string
                    = Path.join "dist" (Path.join "browser" (destination asset))
                 /\ Writer.Mkdir (Path.join "dist"
                                    (Path.dirname (Path.join "browser" (destination asset))))
                    ∈ take 8 (Writer.calls (Writer.current_world s))
                 /\ Path.dirname (Path.join "browser" (destination asset))
                    ∈ Writer.directoryExists (Writer.current_world s).
Proof.
  destruct (Writer.run Path.join Path.dirname sample_options one_of_each one_asset
              Writer.init one_of_each_run) as [s|] eqn:Hrun;
    [|vm_compute in Hrun; discriminate].
  exists s. split; [reflexivity|].
  apply (proj2 (directory_before_file Path.join Path.dirname sample_options
                  one_of_each one_asset one_of_each_run s Hrun) 8).
  vm_compute in Hrun. injection Hrun as <-. reflexivity.
Defined.

(** X8: [writeResultFiles] makes at most one write or copy call per file,
    and after a successful write exactly as many as there are output files
    and assets. *)
Theorem one_call_per_file
    (join : string -> string -> string) (dirname : string -> string)
    (options : NormalizedOutputOptions)
    (outputFiles : list BuildOutputFile) (assetFiles : option (list BuildOutputAsset))
    (evs : list Writer.event) (s : Writer.state) :
  Writer.run join dirname options outputFiles assetFiles Writer.init evs = Some s ->
  file_calls (Writer.current_world s) <= length (Writer.all_tasks s)
  /\ length (Writer.all_tasks s) <= length outputFiles + length (default [] assetFiles)
  /\ (Writer.promise s = Writer.Fulfilled ->
      file_calls (Writer.current_world s)
      = length outputFiles + length (default [] assetFiles)).
Proof.
  intros Hrun.
  pose proof (writer_reachable_inv2 join dirname options outputFiles assetFiles evs s Hrun)
    as [Hbase Hout Hassets].
  destruct Hout as (_ & _ & Hlow1 & Hhigh1).
  change (file_calls (Writer.MkWorld ∅ [])) with 0 in Hlow1, Hhigh1.
  pose proof (made_or_failed (Emit.tasks (Writer.outputs s))) as Hmf1.
  split_and!.
  - unfold Writer.all_tasks, Writer.current_world. rewrite length_app.
    destruct (Writer.assets s) as [a|] eqn:Has; cbn; [|lia].
    destruct (wi_assets _ _ _ _ _ _ Hbase a Has) as (l & Hl & _).
    destruct (Hassets a l eq_refl Hl) as (_ & _ & Hlow2 & Hhigh2).
    pose proof (made_or_failed (Emit.tasks a)). lia.
  - exact (proj2 (mkdir_calls_bound join dirname options outputFiles assetFiles s Hbase)).
  - intros Hful.
    destruct (fulfilled_inv join dirname options outputFiles assetFiles s Hbase Hful)
      as (Hres & _ & Hcase).
    destruct (resolved_all_finished outputFiles _ (wi_outputs _ _ _ _ _ _ Hbase) Hres)
      as [Hfin1 Hlen1].
    destruct (all_finished_made _ Hfin1) as [Hm1 Hf1].
    destruct Hcase as [Hnone|(a & l & Has & Hl & Hia & _ & Hra)].
    + assert (Writer.assets s = None) as Has.
      { destruct (Writer.assets s) as [a|] eqn:Has; [|done].
        destruct (wi_assets _ _ _ _ _ _ Hbase a Has) as (l & Hl & _). congruence. }
      unfold Writer.current_world. rewrite Has.
      assert (length (default [] assetFiles) = 0) as ->; [|lia].
      unfold Writer.assets_to_copy in Hnone. by destruct assetFiles as [[|x r]|].
    + destruct (Hassets a l Has Hl) as (_ & _ & Hlow2 & Hhigh2).
      destruct (resolved_all_finished l a Hia Hra) as [Hfin2 Hlen2].
      destruct (all_finished_made _ Hfin2) as [Hm2 Hf2].
      unfold Writer.current_world. rewrite Has.
      apply assets_to_copy_Some in Hl as [-> _]. cbn. lia.
Qed.

Lemma one_call_per_file_witness :
  exists s, Writer.run Path.join Path.dirname sample_options one_of_each one_asset
              Writer.init one_of_each_run = Some s
            /\ file_calls (Writer.current_world s) = 5.
Proof.
  destruct (Writer.run Path.join Path.dirname sample_options one_of_each one_asset
              Writer.init one_of_each_run) as [s|] eqn:Hrun;
    [|vm_compute in Hrun; discriminate].
  exists s. split; [reflexivity|].
  apply (one_call_per_file Path.join Path.dirname sample_options
           one_of_each one_asset one_of_each_run s Hrun).
  vm_compute in Hrun. injection Hrun as <-. reflexivity.
Defined.

Lemma copy_needs_outputs
    (join : string -> string -> string) (dirname : string -> string)
    (options : NormalizedOutputOptions)
    (outputFiles : list BuildOutputFile) (assetFiles : option (list BuildOutputAsset))
    (s : Writer.state) (src dest : string) :
  writer_inv join dirname options outputFiles assetFiles s ->
  Writer.CopyFile src dest ∈ Writer.calls (Writer.current_world s) ->
  Emit.outcome (Writer.outputs s) = Emit.Resolved
  /\ forall file, file ∈ outputFiles ->
       exists dir,
         Writer.outputDir options (BuildOutputFile.type file) = Some dir
         /\ Writer.WriteFile (join (base options) (join dir (BuildOutputFile.path file)))
              (BuildOutputFile.contents file)
            ∈ Writer.calls (Writer.current_world s).
Proof.
  intros Hinv Hcopy.
  destruct Hinv as [Ho Hko Ha Hr].
  assert (exists a, Writer.assets s = Some a) as [a Has].
  { destruct (Writer.assets s) as [a|] eqn:Has; [by exists a|].
    unfold Writer.current_world in Hcopy. rewrite Has in Hcopy.
    destruct (pi_sound _ _ _ _ _ _ _ _ Hko _ Hcopy) as [Hin|(f & d & next & _ & Hp & Hop)].
    - by apply not_elem_of_nil in Hin.
    - unfold plan_output in Hp.
      destruct (Writer.outputDir options (BuildOutputFile.type f)); [|discriminate].
      injection Hp as <- <-. destruct Hop; discriminate. }
  destruct (Ha a Has) as (l & _ & Hres & _ & _ & Hext).
  split; [exact Hres|]. intros file Hfile.
  destruct (phase_resolved _ _ _ _ _ _ _ file Ho Hko Hres Hfile) as (d & next & Hp & Hn & _).
  unfold plan_output in Hp.
  destruct (Writer.outputDir options (BuildOutputFile.type file)) as [dir|]; [|discriminate].
  injection Hp as <- <-. exists dir. split; [done|].
  unfold Writer.current_world. rewrite Has. exact (extends_call _ _ _ Hext Hn).
Qed.

(** X9: assets are copied only after every output file has been written: if
    a copy has been called for, the first [emitFilesToDisk] has resolved and
    each output file has been written to its place.  So when writing an
    output file fails, no asset is copied. *)
Theorem assets_after_outputs
    (join : string -> string -> string) (dirname : string -> string)
    (options : NormalizedOutputOptions)
    (outputFiles : list BuildOutputFile) (assetFiles : option (list BuildOutputAsset))
    (evs : list Writer.event) (s : Writer.state) (src dest : string) :
  Writer.run join dirname options outputFiles assetFiles Writer.init evs = Some s ->
  Writer.CopyFile src dest ∈ Writer.calls (Writer.current_world s) ->
  Emit.outcome (Writer.outputs s) = Emit.Resolved
  /\ forall file, file ∈ outputFiles ->
       exists dir,
         Writer.outputDir options (BuildOutputFile.type file) = Some dir
         /\ Writer.WriteFile (join (base options) (join dir (BuildOutputFile.path file)))
              (BuildOutputFile.contents file)
            ∈ Writer.calls (Writer.current_world s).
Proof.
  intros Hrun.
  apply (copy_needs_outputs join dirname options outputFiles assetFiles s src dest).
  exact (writer_reachable_inv join dirname options outputFiles assetFiles evs s Hrun).
Qed.

Lemma assets_after_outputs_witness :
  exists s, Writer.run Path.join Path.dirname sample_options one_of_each one_asset
              Writer.init one_of_each_run = Some s
            /\ Emit.outcome (Writer.outputs s) = Emit.Resolved.
Proof.
  destruct (Writer.run Path.join Path.dirname sample_options one_of_each one_asset
              Writer.init one_of_each_run) as [s|] eqn:Hrun;
    [|vm_compute in Hrun; discriminate].
  exists s. split; [reflexivity|].
  apply (assets_after_outputs Path.join Path.dirname sample_options
           one_of_each one_asset one_of_each_run s
           "/src/favicon.ico" "dist/browser/favicon.ico" Hrun).
  vm_compute in Hrun. injection Hrun as <-. vm_compute. set_solver.
Defined.

(** X10: an output file of a kind that the [switch] does not handle makes
    the whole write fail: the promise of [writeResultFiles] is never
    fulfilled and no asset is copied, and once the file's group has been
    launched the promise is rejected. *)
Theorem unhandled_kind_fails
    (join : string -> string -> string) (dirname : string -> string)
    (options : NormalizedOutputOptions)
    (outputFiles : list BuildOutputFile) (assetFiles : option (list BuildOutputAsset))
    (evs : list Writer.event) (s : Writer.state)
    (i : nat) (file : BuildOutputFile) (tag : Z) :
  Writer.run join dirname options outputFiles assetFiles Writer.init evs = Some s ->
  outputFiles !! i = Some file ->
  BuildOutputFile.type file = OtherType tag ->
  Writer.promise s <> Writer.Fulfilled
  /\ (forall src dest, Writer.CopyFile src dest ∉ Writer.calls (Writer.current_world s))
  /\ (i < length (Emit.tasks (Writer.outputs s)) ->
      exists e, Writer.promise s = Writer.Rejected e).
Proof.
  intros Hrun Hfile Htype.
  pose proof (writer_reachable_inv join dirname options outputFiles assetFiles evs s Hrun)
    as Hinv.
  assert (plan_output join options file = inl (Writer.unhandled file)) as Hplan.
  { unfold plan_output. by rewrite Htype. }
  assert (Emit.outcome (Writer.outputs s) <> Emit.Resolved) as Hnres.
  { intros Hres. destruct Hinv as [Ho Hko _ _].
    apply list_elem_of_lookup_2 in Hfile.
    destruct (phase_resolved _ _ _ _ _ _ _ file Ho Hko Hres Hfile) as (d & next & Hp & _).
    congruence. }
  split_and!.
  - intros Hful.
    by destruct (fulfilled_inv join dirname options outputFiles assetFiles s Hinv Hful)
      as (Hres & _).
  - intros src dest Hcopy.
    by destruct (copy_needs_outputs join dirname options outputFiles assetFiles s
                   src dest Hinv Hcopy) as [Hres _].
  - intros Hlaunched. destruct Hinv as [Ho [_ _ _ Htasks] _ _].
    destruct (lookup_lt_is_Some_2 _ _ Hlaunched) as [t Ht].
    assert (take (Emit.fileIndex (Writer.outputs s)) outputFiles !! i = Some file) as Hf.
    { apply lookup_take_Some. split; [done|]. by rewrite <- (inv_len _ _ Ho). }
    pose proof (Forall2_lookup_lr _ _ _ _ _ _ Htasks Hf Ht) as Hok.
    assert (exists e, t = Emit.Failed e) as [e ->].
    { destruct t as [[bp next|next|]| |e|e]; cbn in Hok; [..|by exists e|done].
      - destruct Hok as (d & Hp & _). congruence.
      - destruct Hok as (d & Hp & _). congruence.
      - destruct Hok as (d & n & Hp & _). congruence.
      - destruct Hok as (d & n & Hp & _). congruence. }
    destruct (failed_rejects outputFiles _ i e Ho Ht) as (_ & j & e' & Hout & _).
    exists e'. unfold Writer.promise. by rewrite Hout.
Qed.

Lemma unhandled_kind_fails_witness :
  exists s, Writer.run Path.join Path.dirname sample_options
              [createOutputFileFromText "x.bin" [] (OtherType 9)] one_asset
              Writer.init [Writer.Outputs Emit.Advance] = Some s
            /\ exists e, Writer.promise s = Writer.Rejected e.
Proof.
  destruct (Writer.run Path.join Path.dirname sample_options
              [createOutputFileFromText "x.bin" [] (OtherType 9)] one_asset
              Writer.init [Writer.Outputs Emit.Advance]) as [s|] eqn:Hrun;
    [|vm_compute in Hrun; discriminate].
  exists s. split; [reflexivity|].
  apply (unhandled_kind_fails Path.join Path.dirname sample_options
           [createOutputFileFromText "x.bin" [] (OtherType 9)] one_asset
           [Writer.Outputs Emit.Advance] s 0
           (createOutputFileFromText "x.bin" [] (OtherType 9)) 9 Hrun eq_refl eq_refl).
  vm_compute in Hrun. injection Hrun as <-. cbn. lia.
Defined.

(** ** Build targets: [transformSupportedBrowsersToTargets] and [getFeatureSupport] *)

Module Js.

(** [String.prototype.toLowerCase] on the code units below 256: the letters
    [A]-[Z] and the Latin-1 capitals, all but the multiplication sign. *)
Definition lower (c : ascii) : ascii :=
  let n := nat_of_ascii c in
  if ((65 <=? n) && (n <=? 90)) || ((192 <=? n) && (n <=? 222) && negb (n =? 215))
  then ascii_of_nat (n + 32) else c.

Fixpoint toLowerCase (s : string) : string :=
  match s with
  | EmptyString => EmptyString
  | String c rest => String (lower c) (toLowerCase rest)
  end.

(** [s.split(sep)] for a separator of one code unit: the pieces between the
    separators, so one piece more than there are separators. *)
Fixpoint split (sep : ascii) (s : string) : list string :=
  match s with
  | EmptyString => [EmptyString]
  | String c rest =>
      if Ascii.eqb c sep then EmptyString :: split sep rest
      else
        match split sep rest with
        | piece :: pieces => String c piece :: pieces
        | [] => [String c EmptyString]
        end
  end.

Fixpoint includes (s : string) (c : ascii) : bool :=
  match s with
  | EmptyString => false
  | String d rest => Ascii.eqb d c || includes rest c
  end.

Definition startsWith (s searchString : string) : bool := String.prefix searchString s.

(** [s.slice(start, end)] for [0 <= start <= end]. *)
Definition slice (start end_ : nat) (s : string) : string :=
  substring start (end_ - start) s.

(** A number that has a finite decimal expansion, [mantissa / 10 ^ scale],
    or [NaN]. *)
Inductive number :=
  | NaN
  | Decimal (mantissa : Z) (scale : nat).

(** [x === n] for an integer [n]. *)
Definition strictly_equals (x : number) (n : Z) : bool :=
  match x with
  | NaN => false
  | Decimal mantissa scale => (mantissa =? n * 10 ^ Z.of_nat scale)%Z
  end.

Definition is_white_space (c : ascii) : bool :=
  let n := nat_of_ascii c in
  ((9 <=? n) && (n <=? 13)) || (n =? 32) || (n =? 160).

Fixpoint trimStart (s : string) : string :=
  match s with
  | String c rest => if is_white_space c then trimStart rest else s
  | EmptyString => s
  end.

Definition trim (s : string) : string := String.rev (trimStart (String.rev (trimStart s))).

Definition digit (c : ascii) : option Z :=
  let n := nat_of_ascii c in
  if (48 <=? n) && (n <=? 57) then Some (Z.of_nat (n - 48)) else None.

(** Reads decimal digits: their number, their value after [value], and what
    follows them. *)
Fixpoint digits (count : nat) (value : Z) (s : string) : nat * Z * string :=
  match s with
  | String c rest =>
      match digit c with
      | Some d => digits (S count) (10 * value + d) rest
      | None => (count, value, s)
      end
  | EmptyString => (count, value, s)
  end.

(** [StrUnsignedDecimalLiteral] without exponent: [ddd], [ddd.], [ddd.ddd]
    and [.ddd]. *)
Definition unsigned_decimal (s : string) : number :=
  let '(n, whole, rest) := digits 0 0 s in
  match rest with
  | EmptyString => if n =? 0 then NaN else Decimal whole 0
  | String "." fraction =>
      let '(m, both, rest') := digits 0 whole fraction in
      match rest' with
      | EmptyString => if (n =? 0) && (m =? 0) then NaN else Decimal both m
      | _ => NaN
      end
  | _ => NaN
  end.

Definition negate (x : number) : number :=
  match x with
  | NaN => NaN
  | Decimal mantissa scale => Decimal (- mantissa) scale
  end.

(** [Number(s)] for a string of at most two code units, which is what
    [slice(3, 5)] and [slice(6, 8)] give: white space is trimmed, the empty
    string is [0], and the rest is a signed decimal literal.  (An exponent, a
    radix prefix and [Infinity] all take three units or more.) *)
Definition Number (s : string) : number :=
  match trim s with
  | EmptyString => Decimal 0 0
  | String "+" rest => unsigned_decimal rest
  | String "-" rest => negate (unsigned_decimal rest)
  | literal => unsigned_decimal literal
  end.

End Js.

Inductive Thrown := TypeError.

Definition esBuildSupportedBrowsers : gset string :=
  {[ "chrome"; "edge"; "firefox"; "ie"; "ios"; "node"; "opera"; "safari" ]}%string.

(** One iteration of [for (const browser of supportedBrowsers)];
    [version.split] throws when the entry has no second part. *)
Definition transform_browser (transformed : list string) (browser : string)
  : Thrown + list string :=
  match Js.split " " (Js.toLowerCase browser) with
  | browserName :: version :: _ =>
      let browserName :=
        if String.eqb browserName "ios_saf" then "ios"%string else browserName in
      match Js.split "-" version with
      | version :: _ =>
          if bool_decide (browserName ∈ esBuildSupportedBrowsers) then
            let version :=
              if String.eqb browserName "safari" && String.eqb version "tp"
              then "999"%string
              else if negb (Js.includes version ".") then (version +:+ ".0")%string
              else version in
            inr (transformed ++ [(browserName +:+ version)%string])
          else inr transformed
      | [] => inl TypeError
      end
  | _ => inl TypeError
  end.

Fixpoint transform_from (transformed : list string) (supportedBrowsers : list string)
  : Thrown + list string :=
  match supportedBrowsers with
  | [] => inr transformed
  | browser :: rest =>
      match transform_browser transformed browser with
      | inl thrown => inl thrown
      | inr transformed' => transform_from transformed' rest
      end
  end.

Definition transformSupportedBrowsersToTargets (supportedBrowsers : list string)
  : Thrown + list string :=
  transform_from [] supportedBrowsers.

(** The loop of [getFeatureSupport]: [continue] on a target of another
    engine, [break] with [true] on the first Safari of version 14 or 15. *)
Fixpoint safariClassFieldScopeBug (target : list string) : bool :=
  match target with
  | [] => false
  | browser :: rest =>
      let majorVersion :=
        if Js.startsWith browser "ios" then Some (Js.Number (Js.slice 3 5 browser))
        else if Js.startsWith browser "safari" then Some (Js.Number (Js.slice 6 8 browser))
        else None in
      match majorVersion with
      | None => safariClassFieldScopeBug rest
      | Some majorVersion =>
          if Js.strictly_equals majorVersion 14 || Js.strictly_equals majorVersion 15
          then true
          else safariClassFieldScopeBug rest
      end
  end.

Definition getFeatureSupport (target : list string) : gmap string bool :=
  let supported : gmap string bool :=
    <["object-rest-spread"%string := false]> (<["async-await"%string := false]> ∅) in
  if safariClassFieldScopeBug target then
    <["class-static-field"%string := false]> (<["class-field"%string := false]> supported)
  else supported.


(** A target that [getFeatureSupport] takes for a Safari of version 14 or 15. *)
Definition safari_14_or_15 (target : string) : bool :=
  Js.startsWith target "ios14" || Js.startsWith target "ios15"
  || Js.startsWith target "safari14" || Js.startsWith target "safari15".

(** The same for an entry of the browser list: the name is that of Safari
    and the version begins with 14 or 15. *)
Definition lists_safari_14_or_15 (browser : string) : bool :=
  match Js.split " " (Js.toLowerCase browser) with
  | browserName :: version :: _ =>
      bool_decide (browserName ∈ ["safari"; "ios"; "ios_saf"]%string)
      && (Js.startsWith version "14" || Js.startsWith version "15")
  | _ => false
  end.

Definition all_units : list ascii := ascii_of_nat <$> seq 0 256.

Section JsFacts.

Lemma all_units_complete (c : ascii) : c ∈ all_units.
Proof.
  unfold all_units. apply list_elem_of_fmap. exists (nat_of_ascii c). split.
  - by rewrite ascii_nat_embedding.
  - apply elem_of_seq. pose proof (nat_ascii_bounded c). lia.
Qed.

Lemma for_all_units (P : ascii -> bool) :
  forallb P all_units = true -> forall c, P c = true.
Proof.
  intros H c. rewrite forallb_forall in H. apply H.
  apply list_elem_of_In, all_units_complete.
Qed.

Lemma lower_space (c : ascii) : Ascii.eqb (Js.lower c) " " = Ascii.eqb c " ".
Proof.
  pose proof (for_all_units
    (fun c => Bool.eqb (Ascii.eqb (Js.lower c) " ") (Ascii.eqb c " "))) as H.
  apply Bool.eqb_prop, H. by vm_compute.
Qed.

Lemma includes_toLowerCase_space (s : string) :
  Js.includes (Js.toLowerCase s) " " = Js.includes s " ".
Proof. induction s as [|c s IH]; [done|]. cbn. by rewrite lower_space, IH. Qed.

Lemma includes_app (a b : string) (c : ascii) :
  Js.includes (a +:+ b) c = Js.includes a c || Js.includes b c.
Proof.
  induction a as [|d a IH]; [done|]. rewrite append_cons. cbn.
  rewrite IH. by rewrite orb_assoc.
Qed.

Lemma split_nonempty (sep : ascii) (s : string) : Js.split sep s <> [].
Proof.
  destruct s as [|c s]; [done|]. cbn.
  destruct (Ascii.eqb c sep); [done|]. by destruct (Js.split sep s).
Qed.

(** A string without the separator is its own single piece; one with it has
    at least two pieces. *)
Lemma split_includes (sep : ascii) (s : string) :
  match Js.split sep s with
  | [piece] => Js.includes s sep = false /\ piece = s
  | _ => Js.includes s sep = true
  end.
Proof.
  induction s as [|c s IH]; [done|]. cbn.
  pose proof (split_nonempty sep s).
  destruct (Ascii.eqb c sep) eqn:Hc.
  - by destruct (Js.split sep s).
  - destruct (Js.split sep s) as [|p [|q r]]; cbn; [done| |done].
    destruct IH as [-> ->]. done.
Qed.

(** No piece contains a unit that the string does not contain, and none
    contains the separator. *)
Lemma split_pieces (sep c : ascii) (s : string) :
  Forall (fun piece => Js.includes piece sep = false
                       /\ (Js.includes s c = false -> Js.includes piece c = false))
         (Js.split sep s).
Proof.
  induction s as [|d s IH]; cbn.
  - by repeat constructor.
  - destruct (Ascii.eqb d sep) eqn:Hd.
    + constructor; [done|]. eapply Forall_impl; [exact IH|].
      intros p [H1 H2]. split; [done|]. intros [_ H]%orb_false_elim. auto.
    + pose proof (split_nonempty sep s) as Hne.
      destruct (Js.split sep s) as [|p r]; [done|].
      inversion IH as [|? ? [H1 H2] Hr]; subst.
      constructor.
      * cbn. rewrite Hd, H1. split; [done|].
        intros [-> H]%orb_false_elim. by rewrite H2.
      * eapply Forall_impl; [exact Hr|].
        intros q [H3 H4]. split; [done|]. intros [_ H]%orb_false_elim. auto.
Qed.

Lemma startsWith_cons (a c : ascii) (d s : string) :
  Js.startsWith (String c s) (String a d) = Ascii.eqb a c && Js.startsWith s d.
Proof.
  unfold Js.startsWith. cbn. destruct (ascii_dec a c) as [->|Hne].
  - by rewrite Ascii.eqb_refl.
  - by apply Ascii.eqb_neq in Hne as ->.
Qed.

Lemma startsWith_nil_r (a : ascii) (d : string) :
  Js.startsWith EmptyString (String a d) = false.
Proof. reflexivity. Qed.

Lemma startsWith_nil (s : string) : Js.startsWith s EmptyString = true.
Proof. by destruct s. Qed.

(** The first piece begins as the string does, up to the separator. *)
Lemma split_head_startsWith (sep : ascii) (d s piece : string) (pieces : list string) :
  Js.includes d sep = false ->
  Js.split sep s = piece :: pieces ->
  Js.startsWith piece d = Js.startsWith s d.
Proof.
  revert d piece pieces.
  induction s as [|c s IH]; intros d piece pieces Hd Hs; cbn in Hs; revert Hs.
  - by intros [= <- <-].
  - destruct (Ascii.eqb c sep) eqn:Hc.
    + intros [= <- <-]. destruct d as [|a d]; [by rewrite !startsWith_nil|].
      rewrite startsWith_nil_r, startsWith_cons.
      cbn in Hd. apply orb_false_elim in Hd as [Ha _].
      apply Ascii.eqb_eq in Hc as ->. by rewrite Ha.
    + pose proof (split_nonempty sep s).
      destruct (Js.split sep s) as [|p r] eqn:Hs; [done|].
      intros [= <- <-]. destruct d as [|a d]; [by rewrite !startsWith_nil|].
      rewrite !startsWith_cons. cbn in Hd. apply orb_false_elim in Hd as [_ Hd].
      by rewrite (IH d p r Hd eq_refl).
Qed.

Lemma startsWith_app_no (c : ascii) (d s tail : string) :
  Js.includes d c = false ->
  Js.startsWith (s +:+ String c tail) d = Js.startsWith s d.
Proof.
  revert d. induction s as [|x s IH]; intros d Hd.
  - destruct d as [|a d]; [by rewrite !startsWith_nil|].
    change (EmptyString +:+ String c tail) with (String c tail).
    rewrite startsWith_cons, startsWith_nil_r.
    cbn in Hd. apply orb_false_elim in Hd as [Ha _]. by rewrite Ha.
  - destruct d as [|a d]; [by rewrite !startsWith_nil|].
    rewrite append_cons, !startsWith_cons. cbn in Hd. apply orb_false_elim in Hd as [_ Hd].
    by rewrite IH.
Qed.

Lemma startsWith_app (p s d : string) :
  Js.startsWith (p +:+ s) (p +:+ d) = Js.startsWith s d.
Proof.
  induction p as [|c p IH]; [done|].
  by rewrite !append_cons, startsWith_cons, Ascii.eqb_refl, IH.
Qed.

Lemma slice_after (p s : string) (n : nat) :
  Js.slice (String.length p) (String.length p + n) (p +:+ s) = substring 0 n s.
Proof.
  unfold Js.slice. replace (String.length p + n - String.length p) with n by lia.
  induction p as [|c p IH]; [done|]. exact IH.
Qed.

Lemma startsWith_inv (s p : string) :
  Js.startsWith s p = true -> exists rest, s = p +:+ rest.
Proof.
  revert s. induction p as [|a p IH]; intros s.
  - by exists s.
  - destruct s as [|c s]; [done|]. rewrite startsWith_cons.
    intros [->%Ascii.eqb_eq [rest ->]%IH]%andb_prop. by exists rest.
Qed.

(** On the strings that [slice] returns here, [Number] is 14 or 15 only for
    these two digits. *)
Definition two_digits (z : Z) (d : string) : Prop :=
  (z = 14%Z /\ d = "14"%string) \/ (z = 15%Z /\ d = "15"%string).

Lemma Number_major (s : string) (z : Z) (d : string) :
  two_digits z d ->
  Js.strictly_equals (Js.Number (substring 0 2 s)) z = Js.startsWith s d.
Proof.
  pose (check := fun (z : Z) (d : string) (u : string) =>
    Bool.eqb (Js.strictly_equals (Js.Number u) z) (Js.startsWith u d)).
  assert (forall a b,
    check 14%Z "14"%string (String a (String b EmptyString))
    && check 15%Z "15"%string (String a (String b EmptyString)) = true) as Htwo.
  { intros a.
    pose proof (for_all_units (fun a => forallb (fun b =>
      check 14%Z "14"%string (String a (String b EmptyString))
      && check 15%Z "15"%string (String a (String b EmptyString))) all_units)) as H.
    intros b. specialize (H ltac:(by vm_compute) a). cbv beta in H.
    exact (for_all_units _ H b). }
  assert (forall a,
    check 14%Z "14"%string (String a EmptyString)
    && check 15%Z "15"%string (String a EmptyString) = true) as Hone.
  { apply for_all_units. by vm_compute. }
  intros Hzd.
  destruct s as [|a [|b r]].
  - by destruct Hzd as [[-> ->]|[-> ->]].
  - specialize (Hone a). apply andb_prop in Hone as [H14 H15].
    apply Bool.eqb_prop in H14, H15. by destruct Hzd as [[-> ->]|[-> ->]].
  - specialize (Htwo a b). apply andb_prop in Htwo as [H14 H15].
    apply Bool.eqb_prop in H14, H15.
    assert (substring 0 2 (String a (String b r)) = String a (String b EmptyString))
      as -> by by destruct r.
    destruct Hzd as [[-> ->]|[-> ->]].
    + rewrite H14. by rewrite !startsWith_cons, !startsWith_nil.
    + rewrite H15. by rewrite !startsWith_cons, !startsWith_nil.
Qed.

End JsFacts.

Section TargetFacts.

Lemma startsWith_longer (s p q : string) :
  Js.startsWith s (p +:+ q) = true -> Js.startsWith s p = true.
Proof.
  revert s. induction p as [|a p IH]; intros s; [by rewrite startsWith_nil|].
  rewrite append_cons. destruct s as [|c s]; [done|]. rewrite !startsWith_cons.
  intros [-> ?%IH]%andb_prop. done.
Qed.

Lemma startsWith_not (s p q : string) :
  Js.startsWith s p = false -> Js.startsWith s (p +:+ q) = false.
Proof.
  intros H. destruct (Js.startsWith s (p +:+ q)) eqn:E; [|done].
  apply startsWith_longer in E. congruence.
Qed.

Lemma supported_names (name : string) :
  name ∈ esBuildSupportedBrowsers <->
  name ∈ ["chrome"; "edge"; "firefox"; "ie"; "ios"; "node"; "opera"; "safari"]%string.
Proof. unfold esBuildSupportedBrowsers. set_solver. Qed.

(** What [getFeatureSupport] makes of a target that
    [transformSupportedBrowsersToTargets] has put together. *)
Lemma safari_14_or_15_target (name version : string) :
  name ∈ esBuildSupportedBrowsers ->
  safari_14_or_15 (name +:+ version)
  = bool_decide (name ∈ ["safari"; "ios"]%string)
    && (Js.startsWith version "14" || Js.startsWith version "15").
Proof.
  intros Hname%supported_names.
  unfold safari_14_or_15.
  repeat (apply elem_of_cons in Hname as [->|Hname]);
    [..|by apply not_elem_of_nil in Hname];
    rewrite ?append_cons, ?append_nil_l, ?startsWith_cons, ?startsWith_nil;
    cbn; rewrite ?andb_true_r, ?orb_false_r; done.
Qed.

Lemma target_is_safari_14_or_15 (browser : string) :
  (if Js.startsWith browser "ios"
   then Js.strictly_equals (Js.Number (Js.slice 3 5 browser)) 14
        || Js.strictly_equals (Js.Number (Js.slice 3 5 browser)) 15
   else if Js.startsWith browser "safari"
   then Js.strictly_equals (Js.Number (Js.slice 6 8 browser)) 14
        || Js.strictly_equals (Js.Number (Js.slice 6 8 browser)) 15
   else false)
  = safari_14_or_15 browser.
Proof.
  unfold safari_14_or_15.
  destruct (Js.startsWith browser "ios") eqn:Hios.
  - apply startsWith_inv in Hios as [rest ->].
    pose proof (slice_after "ios" rest 2) as Hslice.
    change (Js.slice 3 5 ("ios" +:+ rest) = substring 0 2 rest) in Hslice.
    rewrite Hslice.
    rewrite (Number_major rest 14 "14"), (Number_major rest 15 "15")
      by (unfold two_digits; tauto).
    rewrite (startsWith_app "ios" rest "14"
               : Js.startsWith ("ios" +:+ rest) "ios14" = _),
            (startsWith_app "ios" rest "15"
               : Js.startsWith ("ios" +:+ rest) "ios15" = _).
    change (Js.startsWith ("ios" +:+ rest) "safari14") with false.
    change (Js.startsWith ("ios" +:+ rest) "safari15") with false.
    by rewrite !orb_false_r.
  - rewrite (startsWith_not browser "ios" "14" Hios
               : Js.startsWith browser "ios14" = false),
            (startsWith_not browser "ios" "15" Hios
               : Js.startsWith browser "ios15" = false).
    destruct (Js.startsWith browser "safari") eqn:Hsafari.
    + apply startsWith_inv in Hsafari as [rest ->].
      pose proof (slice_after "safari" rest 2) as Hslice.
      change (Js.slice 6 8 ("safari" +:+ rest) = substring 0 2 rest) in Hslice.
      rewrite Hslice.
      rewrite (Number_major rest 14 "14"), (Number_major rest 15 "15")
        by (unfold two_digits; tauto).
      by rewrite (startsWith_app "safari" rest "14"
                    : Js.startsWith ("safari" +:+ rest) "safari14" = _),
                 (startsWith_app "safari" rest "15"
                    : Js.startsWith ("safari" +:+ rest) "safari15" = _).
    + by rewrite (startsWith_not browser "safari" "14" Hsafari
                    : Js.startsWith browser "safari14" = false),
                 (startsWith_not browser "safari" "15" Hsafari
                    : Js.startsWith browser "safari15" = false).
Qed.

Lemma bug_is_exists (target : list string) :
  safariClassFieldScopeBug target = existsb safari_14_or_15 target.
Proof.
  induction target as [|browser rest IH]; [done|].
  cbn [safariClassFieldScopeBug existsb].
  rewrite <- (target_is_safari_14_or_15 browser), <- IH.
  destruct (Js.startsWith browser "ios"); [by destruct (_ || _)|].
  destruct (Js.startsWith browser "safari"); [by destruct (_ || _)|done].
Qed.

(** The version that is appended to the name. *)
Definition final_version (browserName version : string) : string :=
  if String.eqb browserName "safari" && String.eqb version "tp"
  then "999"%string
  else if negb (Js.includes version ".") then (version +:+ ".0")%string
  else version.

Lemma final_version_startsWith (browserName version d : string) :
  d = "14"%string \/ d = "15"%string ->
  Js.startsWith (final_version browserName version) d = Js.startsWith version d.
Proof.
  intros Hd. unfold final_version.
  destruct (String.eqb browserName "safari" && String.eqb version "tp") eqn:Htp.
  - apply andb_prop in Htp as [_ ->%String.eqb_eq]. by destruct Hd as [->| ->].
  - destruct (Js.includes version "."); cbn; [done|].
    apply startsWith_app_no. by destruct Hd as [->| ->].
Qed.

Lemma final_version_shape (browserName version : string) :
  Js.includes version "-" = false ->
  Js.includes version " " = false ->
  (final_version browserName version = "999"%string
   \/ Js.includes (final_version browserName version) "." = true)
  /\ Js.includes (final_version browserName version) "-" = false
  /\ Js.includes (final_version browserName version) " " = false.
Proof.
  intros Hdash Hspace. unfold final_version.
  destruct (String.eqb browserName "safari" && String.eqb version "tp"); [by auto|].
  destruct (Js.includes version ".") eqn:Hdot; cbn; [by auto|].
  rewrite !includes_app, Hdot, Hdash, Hspace. by auto.
Qed.

(** An iteration that does not throw: the entry has a space, and either its
    engine is not one of esbuild's and nothing is pushed, or one target is
    pushed. *)
Lemma transform_browser_inr (transformed transformed' : list string) (browser : string) :
  transform_browser transformed browser = inr transformed' ->
  Js.includes browser " " = true
  /\ ((transformed' = transformed /\ lists_safari_14_or_15 browser = false)
      \/ exists name version,
           transformed' = transformed ++ [(name +:+ version)%string]
           /\ name ∈ esBuildSupportedBrowsers
           /\ (version = "999"%string \/ Js.includes version "." = true)
           /\ Js.includes version "-" = false
           /\ Js.includes (name +:+ version) " " = false
           /\ safari_14_or_15 (name +:+ version) = lists_safari_14_or_15 browser).
Proof.
  unfold transform_browser, lists_safari_14_or_15.
  pose proof (split_includes " " (Js.toLowerCase browser)) as Hsp.
  pose proof (split_pieces " " " " (Js.toLowerCase browser)) as Hpieces.
  rewrite includes_toLowerCase_space in Hsp.
  destruct (Js.split " " (Js.toLowerCase browser)) as [|name [|version more]];
    [done..|].
  apply Forall_cons in Hpieces as [[Hname _] Hpieces].
  apply Forall_cons in Hpieces as [[Hversion _] _].
  pose proof (split_nonempty "-" version) as Hne.
  pose proof (split_pieces "-" " " version) as Hv.
  pose proof (split_head_startsWith "-" "14" version) as H14.
  pose proof (split_head_startsWith "-" "15" version) as H15.
  destruct (Js.split "-" version) as [|v vs]; [done|].
  apply Forall_cons in Hv as [[Hdash Hspace] _]. specialize (Hspace Hversion).
  specialize (H14 v vs eq_refl eq_refl). specialize (H15 v vs eq_refl eq_refl).
  fold (final_version (if String.eqb name "ios_saf" then "ios"%string else name) v).
  set (name' := if String.eqb name "ios_saf" then "ios"%string else name).
  assert (Js.includes name' " " = false) as Hname'.
  { unfold name'. by destruct (String.eqb name "ios_saf"). }
  assert (bool_decide (name ∈ ["safari"; "ios"; "ios_saf"]%string)
          = bool_decide (name' ∈ ["safari"; "ios"]%string)) as ->.
  { unfold name'. destruct (String.eqb name "ios_saf") eqn:Heq.
    - by apply String.eqb_eq in Heq as ->.
    - apply String.eqb_neq in Heq. apply bool_decide_ext. set_solver. }
  case_bool_decide as Hsup; intros [= <-]; (split; [done|]).
  - right. exists name', (final_version name' v).
    destruct (final_version_shape name' v Hdash Hspace) as (Hshape & Hd & Hs).
    split_and!; try done.
    + by rewrite includes_app, Hname', Hs.
    + rewrite (safari_14_or_15_target _ _ Hsup).
      rewrite !final_version_startsWith by tauto. by rewrite H14, H15.
  - left. split; [done|].
    rewrite bool_decide_eq_false_2; [done|].
    intros Hin. apply Hsup, supported_names. set_solver.
Qed.

Lemma transform_browser_inl (transformed : list string) (browser : string) :
  (exists thrown, transform_browser transformed browser = inl thrown)
  <-> Js.includes browser " " = false.
Proof.
  unfold transform_browser.
  pose proof (split_includes " " (Js.toLowerCase browser)) as Hsp.
  rewrite includes_toLowerCase_space in Hsp.
  pose proof (split_nonempty " " (Js.toLowerCase browser)) as Hparts.
  destruct (Js.split " " (Js.toLowerCase browser)) as [|name [|version more]]; [done|..].
  - destruct Hsp as [-> _]. split; [done|]. intros _. by exists TypeError.
  - rewrite Hsp. pose proof (split_nonempty "-" version) as Hne.
    destruct (Js.split "-" version) as [|v vs]; [done|].
    split; [|done]. intros [thrown H]. by case_bool_decide.
Qed.

Lemma transform_from_inr (supportedBrowsers transformed result : list string) :
  transform_from transformed supportedBrowsers = inr result ->
  exists targets,
    result = transformed ++ targets
    /\ length targets <= length supportedBrowsers
    /\ Forall (fun browser => Js.includes browser " " = true) supportedBrowsers
    /\ Forall (fun target =>
                 exists name version,
                   target = (name +:+ version)%string
                   /\ name ∈ esBuildSupportedBrowsers
                   /\ (version = "999"%string \/ Js.includes version "." = true)
                   /\ Js.includes version "-" = false
                   /\ Js.includes target " " = false) targets
    /\ existsb safari_14_or_15 targets = existsb lists_safari_14_or_15 supportedBrowsers.
Proof.
  revert transformed.
  induction supportedBrowsers as [|browser rest IH]; intros transformed; cbn.
  - intros [= <-]. exists []. rewrite app_nil_r. by split_and!.
  - destruct (transform_browser transformed browser) as [|transformed'] eqn:Hb; [done|].
    intros (targets & -> & Hlen & Hsp & Hshape & Hbug)%IH.
    apply transform_browser_inr in Hb as [Hspace [[-> Hno]|Hpush]].
    + exists targets. rewrite Hno. split_and!; auto with lia.
    + destruct Hpush as (name & version & -> & Hname & Hv & Hd & Hs & Hsame).
      exists ((name +:+ version)%string :: targets).
      rewrite <- app_assoc. cbn. rewrite Hsame, Hbug.
      split_and!; auto with lia.
      constructor; [|done]. by exists name, version.
Qed.

Lemma transform_from_inl (supportedBrowsers transformed : list string) :
  (exists thrown, transform_from transformed supportedBrowsers = inl thrown)
  <-> exists browser, browser ∈ supportedBrowsers /\ Js.includes browser " " = false.
Proof.
  revert transformed.
  induction supportedBrowsers as [|browser rest IH]; intros transformed; cbn.
  - split; [by intros [? ?]|]. intros (b & Hb%not_elem_of_nil & _). done.
  - pose proof (transform_browser_inl transformed browser) as Hinl.
    destruct (transform_browser transformed browser) as [thrown|transformed'] eqn:Hb.
    + split; [|by exists thrown]. intros _. exists browser. split; [left|].
      apply Hinl. by exists thrown.
    + rewrite IH. apply transform_browser_inr in Hb as [Hspace _].
      split.
      * intros (b & Hin & Hno). exists b. split; [by right|done].
      * intros (b & Hin & Hno). apply elem_of_cons in Hin as [->|Hin]; [congruence|].
        by exists b.
Qed.

End TargetFacts.

Example Number_samples :
  (Js.Number " 5", Js.Number ".5", Js.Number "5.", Js.Number EmptyString, Js.Number "-",
   Js.Number "-3", Js.Number "1e", Js.Number "14", Js.Number ".", Js.Number "1.")
  = (Js.Decimal 5 0, Js.Decimal 5 1, Js.Decimal 5 0, Js.Decimal 0 0, Js.NaN,
     Js.Decimal (-3) 0, Js.NaN, Js.Decimal 14 0, Js.NaN, Js.Decimal 1 0).
Proof. reflexivity. Qed.

Example browserslist_sample :
  transformSupportedBrowsersToTargets
    ["Chrome 110"; "ios_saf 15.2-15.3"; "safari TP"; "Safari 15"; "and_chr 111";
     "safari 16.0"; "ie 11"; "op_mini all"; "chrome  110"]%string
  = inr ["chrome110.0"; "ios15.2"; "safari999"; "safari15.0"; "safari16.0"; "ie11.0";
         "chrome.0"]%string.
Proof. reflexivity. Qed.

(** X11: [transformSupportedBrowsersToTargets] throws a [TypeError] exactly
    when some entry of the list has no space, whether or not its engine is
    one that esbuild knows: [version] is then [undefined] and
    [version.split] is called on it. *)
Theorem targets_throw_without_version (supportedBrowsers : list string) :
  transformSupportedBrowsersToTargets supportedBrowsers = inl TypeError
  <-> exists browser, browser ∈ supportedBrowsers /\ Js.includes browser " " = false.
Proof.
  rewrite <- (transform_from_inl supportedBrowsers []).
  unfold transformSupportedBrowsersToTargets. split; [by exists TypeError|].
  by intros [[] ->].
Qed.

(** X12: every target that [transformSupportedBrowsersToTargets] returns is
    the name of one of esbuild's eight engines followed by a version that is
    [999] or has a dot, and that has no dash; a target has no space.  There
    are at most as many targets as entries. *)
Theorem targets_are_well_formed (supportedBrowsers targets : list string) :
  transformSupportedBrowsersToTargets supportedBrowsers = inr targets ->
  length targets <= length supportedBrowsers
  /\ forall target, target ∈ targets ->
       exists name version,
         target = (name +:+ version)%string
         /\ name ∈ ["chrome"; "edge"; "firefox"; "ie"; "ios"; "node"; "opera";
                    "safari"]%string
         /\ (version = "999"%string \/ Js.includes version "." = true)
         /\ Js.includes version "-" = false
         /\ Js.includes target " " = false.
Proof.
  intros (ts & -> & Hlen & _ & Hshape & _)%transform_from_inr.
  split; [done|]. intros target Hin.
  rewrite Forall_forall in Hshape.
  destruct (Hshape target Hin) as (name & version & ? & ?%supported_names & ?).
  by exists name, version.
Qed.

Lemma targets_are_well_formed_witness :
  length ["chrome110.0"; "ios15.2"; "safari999"]%string
  <= length ["Chrome 110"; "ios_saf 15.2-15.3"; "safari TP"; "op_mini all"]%string.
Proof.
  exact (proj1 (targets_are_well_formed
    ["Chrome 110"; "ios_saf 15.2-15.3"; "safari TP"; "op_mini all"]%string
    ["chrome110.0"; "ios15.2"; "safari999"]%string eq_refl)).
Defined.

Lemma existsb_elem_of {A : Type} (f : A -> bool) (l : list A) :
  existsb f l = true <-> exists x, x ∈ l /\ f x = true.
Proof.
  rewrite existsb_exists. split; intros (x & Hin & Hf); exists x; split; try done;
    by apply list_elem_of_In.
Qed.

(** X13: [getFeatureSupport] enables nothing.  [async-await] and
    [object-rest-spread] are always [false]; [class-field] and
    [class-static-field] are [false] together or absent together, and they
    are [false] exactly when some target begins with [ios14], [ios15],
    [safari14] or [safari15]. *)
Theorem feature_support (target : list string) :
  getFeatureSupport target !! "async-await"%string = Some false
  /\ getFeatureSupport target !! "object-rest-spread"%string = Some false
  /\ (forall feature enabled,
        getFeatureSupport target !! feature = Some enabled ->
        enabled = false
        /\ feature ∈ ["async-await"; "object-rest-spread"; "class-field";
                      "class-static-field"]%string)
  /\ getFeatureSupport target !! "class-field"%string
     = getFeatureSupport target !! "class-static-field"%string
  /\ (getFeatureSupport target !! "class-field"%string = Some false
      <-> exists browser,
            browser ∈ target
            /\ (Js.startsWith browser "ios14" = true
                \/ Js.startsWith browser "ios15" = true
                \/ Js.startsWith browser "safari14" = true
                \/ Js.startsWith browser "safari15" = true)).
Proof.
  assert ((exists browser,
            browser ∈ target
            /\ (Js.startsWith browser "ios14" = true
                \/ Js.startsWith browser "ios15" = true
                \/ Js.startsWith browser "safari14" = true
                \/ Js.startsWith browser "safari15" = true))
          <-> safariClassFieldScopeBug target = true) as ->.
  { rewrite bug_is_exists, existsb_elem_of. unfold safari_14_or_15.
    split; intros (b & Hin & H); exists b; (split; [done|]).
    - rewrite !orb_true_iff. tauto.
    - rewrite !orb_true_iff in H. tauto. }
  unfold getFeatureSupport.
  destruct (safariClassFieldScopeBug target); split_and!; try done.
  - intros feature enabled.
    rewrite !lookup_insert_Some, lookup_empty. set_solver.
  - intros feature enabled.
    rewrite !lookup_insert_Some, lookup_empty. set_solver.
Qed.

(** X14: the two functions together.  For the targets made from a browser
    list, class fields are turned off exactly when the list has an entry
    whose name is [safari], [ios] or [ios_saf], in any case of letters, and
    whose version begins with [14] or [15]. *)
Theorem class_fields_off_for_safari (supportedBrowsers targets : list string) :
  transformSupportedBrowsersToTargets supportedBrowsers = inr targets ->
  (getFeatureSupport targets !! "class-field"%string = Some false
   /\ getFeatureSupport targets !! "class-static-field"%string = Some false)
  <-> exists browser name version more,
        browser ∈ supportedBrowsers
        /\ Js.split " " (Js.toLowerCase browser) = name :: version :: more
        /\ name ∈ ["safari"; "ios"; "ios_saf"]%string
        /\ (Js.startsWith version "14" = true \/ Js.startsWith version "15" = true).
Proof.
  intros (ts & Hts & _ & _ & _ & Hbug)%transform_from_inr. cbn in Hts. subst ts.
  assert ((exists browser name version more,
            browser ∈ supportedBrowsers
            /\ Js.split " " (Js.toLowerCase browser) = name :: version :: more
            /\ name ∈ ["safari"; "ios"; "ios_saf"]%string
            /\ (Js.startsWith version "14" = true \/ Js.startsWith version "15" = true))
          <-> safariClassFieldScopeBug targets = true) as ->.
  { rewrite bug_is_exists, Hbug, existsb_elem_of. unfold lists_safari_14_or_15.
    split.
    - intros (b & name & version & more & Hin & Hsplit & Hname & Hv). exists b.
      split; [done|]. rewrite Hsplit, bool_decide_eq_true_2 by done.
      cbn. apply orb_true_iff. tauto.
    - intros (b & Hin & H).
      destruct (Js.split " " (Js.toLowerCase b)) as [|name [|version more]] eqn:Hsplit;
        [done..|].
      apply andb_prop in H as [Hname%bool_decide_eq_true Hv%orb_true_iff].
      by exists b, name, version, more. }
  unfold getFeatureSupport.
  destruct (safariClassFieldScopeBug targets); [done|].
  split; [|done]. by intros [? _].
Qed.

Lemma class_fields_off_for_safari_witness :
  getFeatureSupport ["chrome110.0"; "ios15.2"]%string !! "class-field"%string = Some false
  /\ getFeatureSupport ["chrome110.0"; "ios15.2"]%string !! "class-static-field"%string
     = Some false.
Proof.
  apply (class_fields_off_for_safari
           ["Chrome 110"; "iOS_saf 15.2-15.3"]%string
           ["chrome110.0"; "ios15.2"]%string eq_refl).
  exists "iOS_saf 15.2-15.3"%string, "ios_saf"%string, "15.2-15.3"%string, [].
  split_and!; [set_solver|reflexivity|set_solver|by right].
Defined.

(** ** Build statistics: [logBuildStats] *)

(** [path.basename(path)] of Node's posix implementation: the scan from the
    end of the path, over its code units in reverse.  [matchedSlash] holds
    until a unit other than a slash is met; [name] is what has been read of
    the base name. *)
Fixpoint basename_scan (matchedSlash : bool) (name : string) (reversed : string) : string :=
  match reversed with
  | EmptyString => name
  | String c rest =>
      if Ascii.eqb c "/" then
        if matchedSlash then basename_scan true name rest else name
      else basename_scan false (String c name) rest
  end.

Definition basename (path : string) : string :=
  basename_scan true EmptyString (String.rev path).

Definition drop_end (n : nat) (s : string) : string :=
  substring 0 (String.length s - n) s.

(** [s.replace(/\.[cm]?[jt]s$/, '')]: a match is a whole suffix, and the
    pattern has one of two lengths. *)
Definition strip_script_extension (s : string) : string :=
  if endsWith s ".js" || endsWith s ".ts" then drop_end 3 s
  else if endsWith s ".cjs" || endsWith s ".mjs" || endsWith s ".cts" || endsWith s ".mts"
  then drop_end 4 s
  else s.

(** [s.replace(/[\\/.]/g, '-')]. *)
Fixpoint dash_separators (s : string) : string :=
  match s with
  | EmptyString => EmptyString
  | String c rest =>
      String (if Ascii.eqb c "\" || Ascii.eqb c "/" || Ascii.eqb c "." then "-"%char else c)
             (dash_separators rest)
  end.

(** An entry of [metafile.outputs], as far as [logBuildStats] reads it;
    [ng_component] is the truth value of the property [ng-component]. *)
Record MetafileOutput := MkMetafileOutput
  { bytes : nat;
    entryPoint : option string;
    ng_component : bool }.

(** The object pushed to [stats]: the row is file, name, size and
    estimated transfer size, the last one a number or a dash. *)
Record BundleStats := MkBundleStats
  { bs_initial : bool;
    bs_stats : string * string * nat * (nat + string) }.

Definition line_feed : string := String "010" EmptyString.

Definition decimal (n : nat) : string := NilEmpty.string_of_uint (Nat.to_uint n).

Section LogBuildStats.

(** [InitialFileRecord] is read only through its optional [name]; the table
    is laid out by [generateBuildStatsTable], to which the budget failures
    are passed on. *)
Context {InitialFileRecord BudgetFailures : Type}.
Variable record_name : InitialFileRecord -> option string.
Variable generateBuildStatsTable :
  list BundleStats -> bool -> bool -> bool -> BudgetFailures -> string.

Variable initial : gmap string InitialFileRecord.
Variable budgetFailures : BudgetFailures.
Variable changedFiles : option (gset string).
Variable estimatedTransferSizes : option (gmap string nat).

Record tally := MkTally
  { stats : list BundleStats;
    unchangedCount : nat }.

(** The three tests that make the loop [continue]. *)
Definition not_displayed_kind (file : string) : bool :=
  negb (endsWith file ".js") && negb (endsWith file ".css").

Definition unchanged (file : string) : bool :=
  match changedFiles with
  | Some changed => negb (bool_decide (file ∈ changed))
  | None => false
  end.

(** The name derived from a truthy [entryPoint]. *)
Definition entry_name (entryPoint : string) : string :=
  dash_separators (strip_script_extension (basename entryPoint)).

Definition display_name (file : string) (output : MetafileOutput) : option string :=
  match initial !! file ≫= record_name, entryPoint output with
  | None, Some (String c rest) => Some (entry_name (String c rest))
  | name, _ => name
  end.

Definition row (file : string) (output : MetafileOutput) : BundleStats :=
  MkBundleStats
    (bool_decide (is_Some (initial !! file)))
    (file, default "-"%string (display_name file output), bytes output,
     match estimatedTransferSizes ≫= (fun sizes => sizes !! file) with
     | Some size => inl size
     | None => inr "-"%string
     end).

(** One iteration of [for (const [file, output] of Object.entries(...))]. *)
Definition visit_output (t : tally) (entry : string * MetafileOutput) : tally :=
  let '(file, output) := entry in
  if not_displayed_kind file then t
  else if ng_component output then t
  else if unchanged file then MkTally (stats t) (S (unchangedCount t))
  else MkTally (stats t ++ [row file output]) (unchangedCount t).

(** [logBuildStats]: [outputs] are the entries of [metafile.outputs] in the
    order of [Object.entries]; the result is what is passed to
    [logger.info], call after call. *)
Definition logBuildStats (outputs : list (string * MetafileOutput)) : list string :=
  let t := fold_left visit_output outputs (MkTally [] 0) in
  (if 0 <? length (stats t) then
     [line_feed
      +:+ generateBuildStatsTable (stats t) true (unchangedCount t =? 0)
            (bool_decide (is_Some estimatedTransferSizes)) budgetFailures
      +:+ line_feed]
   else if bool_decide (is_Some changedFiles) then
     [line_feed +:+ "No output file changes." +:+ line_feed]
   else [])
  ++ (if 0 <? unchangedCount t then
        ["Unchanged output files: " +:+ decimal (unchangedCount t)]
      else []).

(** The entries that get a row, and those counted as unchanged. *)
Definition displayed (entry : string * MetafileOutput) : bool :=
  negb (not_displayed_kind entry.1) && negb (ng_component entry.2)
  && negb (unchanged entry.1).

Definition held_back (entry : string * MetafileOutput) : bool :=
  negb (not_displayed_kind entry.1) && negb (ng_component entry.2) && unchanged entry.1.

Lemma visit_outputs (outputs : list (string * MetafileOutput)) (t : tally) :
  stats (fold_left visit_output outputs t)
  = stats t ++ map (fun entry => row entry.1 entry.2) (List.filter displayed outputs)
  /\ unchangedCount (fold_left visit_output outputs t)
     = unchangedCount t + length (List.filter held_back outputs).
Proof.
  revert t. induction outputs as [|[file output] rest IH]; intros t.
  - cbn. by rewrite app_nil_r, Nat.add_0_r.
  - change (fold_left visit_output ((file, output) :: rest) t)
      with (fold_left visit_output rest (visit_output t (file, output))).
    destruct (IH (visit_output t (file, output))) as [-> ->].
    unfold visit_output. cbn [List.filter]. unfold displayed at 2, held_back at 2. cbn.
    destruct (not_displayed_kind file); [done|].
    destruct (ng_component output); [done|].
    destruct (unchanged file); cbn.
    + split; [done|lia].
    + by rewrite <- app_assoc.
Qed.

End LogBuildStats.

Section BuildStatsFacts.

Context {InitialFileRecord BudgetFailures : Type}.
Variable record_name : InitialFileRecord -> option string.
Variable generateBuildStatsTable :
  list BundleStats -> bool -> bool -> bool -> BudgetFailures -> string.
Variable initial : gmap string InitialFileRecord.
Variable budgetFailures : BudgetFailures.


Lemma unchanged_None (file : string) : unchanged None file = false.
Proof. done. Qed.

Lemma held_back_None (outputs : list (string * MetafileOutput)) :
  List.filter (held_back None) outputs = [].
Proof.
  induction outputs as [|entry rest IH]; [done|]. cbn.
  unfold held_back at 1. by rewrite unchanged_None, andb_false_r.
Qed.

End BuildStatsFacts.

Definition sample_metafile : list (string * MetafileOutput) :=
  [("main-ABC.js", MkMetafileOutput 2048 (Some "src/main.ts") false);
   ("main-ABC.js.map", MkMetafileOutput 4000 None false);
   ("styles-DEF.css", MkMetafileOutput 300 None false);
   ("app.component-GHI.css", MkMetafileOutput 100 None true);
   ("chunk-JKL.js", MkMetafileOutput 500 (Some "src/app/lazy.routes.ts") false)]%string.

Definition sample_initial : gmap string (option string) :=
  {[ "main-ABC.js"%string := Some "main"%string;
     "styles-DEF.css"%string := None ]}.

Definition sample_table (rows : list BundleStats) (_ showTotal _ : bool) (_ : unit)
  : string :=
  String.concat ","
    (map (fun r => (r.(bs_stats).1.1.1 +:+ "=" +:+ r.(bs_stats).1.1.2)%string) rows)
  +:+ (if showTotal then ";total" else EmptyString)%string.

Example first_build_log :
  logBuildStats id sample_table sample_initial tt None None sample_metafile
  = [(line_feed +:+ "main-ABC.js=main,styles-DEF.css=-,chunk-JKL.js=lazy-routes;total"
      +:+ line_feed)%string].
Proof. reflexivity. Qed.

Example rebuild_log :
  logBuildStats id sample_table sample_initial tt (Some {["chunk-JKL.js"%string]}) None
    sample_metafile
  = [(line_feed +:+ "chunk-JKL.js=lazy-routes" +:+ line_feed)%string;
     "Unchanged output files: 2"%string].
Proof. reflexivity. Qed.

Example rebuild_without_changes_log :
  logBuildStats id sample_table sample_initial tt (Some ∅) None sample_metafile
  = [(line_feed +:+ "No output file changes." +:+ line_feed)%string;
     "Unchanged output files: 3"%string].
Proof. reflexivity. Qed.

(** X15: the table that [logBuildStats] logs has one row for each entry of
    the metafile that ends in [.js] or [.css], is not a component resource
    and, when [changedFiles] is given, is in it: in the order of the
    metafile, none left out, none twice.  The other [.js] and [.css] files
    that are not component resources are counted, and the count is logged
    when it is not zero; the total is asked for only when it is zero. *)
Theorem build_stats_logged {InitialFileRecord BudgetFailures : Type}
    (record_name : InitialFileRecord -> option string)
    (generateBuildStatsTable :
       list BundleStats -> bool -> bool -> bool -> BudgetFailures -> string)
    (initial : gmap string InitialFileRecord) (budgetFailures : BudgetFailures)
    (changedFiles : option (gset string))
    (estimatedTransferSizes : option (gmap string nat))
    (outputs : list (string * MetafileOutput)) :
  let candidate := fun entry : string * MetafileOutput =>
    (endsWith entry.1 ".js" || endsWith entry.1 ".css") && negb (ng_component entry.2) in
  let changed := fun entry : string * MetafileOutput =>
    match changedFiles with
    | Some files => bool_decide (entry.1 ∈ files)
    | None => true
    end in
  let rows :=
    map (fun entry => row record_name initial estimatedTransferSizes entry.1 entry.2)
        (List.filter (fun entry => candidate entry && changed entry) outputs) in
  let count :=
    length (List.filter (fun entry => candidate entry && negb (changed entry)) outputs) in
  logBuildStats record_name generateBuildStatsTable initial budgetFailures changedFiles
    estimatedTransferSizes outputs
  = match rows, changedFiles with
    | _ :: _, _ =>
        [(line_feed
          +:+ generateBuildStatsTable rows true (count =? 0)%nat
                (bool_decide (is_Some estimatedTransferSizes)) budgetFailures
          +:+ line_feed)%string]
    | [], Some _ => [(line_feed +:+ "No output file changes." +:+ line_feed)%string]
    | [], None => []
    end
    ++ match count with
       | 0 => []
       | S _ => [("Unchanged output files: " +:+ decimal count)%string]
       end.
Proof.
  intros candidate changed rows count. unfold logBuildStats.
  destruct (visit_outputs record_name initial changedFiles estimatedTransferSizes outputs
              (MkTally [] 0)) as [Hstats Hcount].
  cbn in Hstats, Hcount.
  assert (List.filter (displayed changedFiles) outputs
          = List.filter (fun entry => candidate entry && changed entry) outputs) as Hd.
  { apply filter_ext. intros [file output].
    unfold displayed, candidate, changed, not_displayed_kind, unchanged. cbn.
    destruct changedFiles; cbn; rewrite ?negb_involutive;
      by destruct (endsWith file ".js"), (endsWith file ".css"). }
  assert (List.filter (held_back changedFiles) outputs
          = List.filter (fun entry => candidate entry && negb (changed entry)) outputs) as Hh.
  { apply filter_ext. intros [file output].
    unfold held_back, candidate, changed, not_displayed_kind, unchanged. cbn.
    destruct changedFiles; cbn;
      by destruct (endsWith file ".js"), (endsWith file ".css"). }
  rewrite Hd in Hstats. rewrite Hh in Hcount. fold rows in Hstats. fold count in Hcount.
  rewrite Hstats, Hcount. f_equal.
  - destruct rows; [|done]. cbn. by destruct changedFiles.
  - by destruct count.
Qed.

(** X16: without [changedFiles], [logBuildStats] logs nothing or one table,
    always with the total; with [changedFiles] it always logs something,
    a table or the line that nothing changed first.  It never logs more
    than two messages. *)
Theorem build_stats_messages {InitialFileRecord BudgetFailures : Type}
    (record_name : InitialFileRecord -> option string)
    (generateBuildStatsTable :
       list BundleStats -> bool -> bool -> bool -> BudgetFailures -> string)
    (initial : gmap string InitialFileRecord) (budgetFailures : BudgetFailures)
    (changedFiles : option (gset string))
    (estimatedTransferSizes : option (gmap string nat))
    (outputs : list (string * MetafileOutput)) :
  let messages :=
    logBuildStats record_name generateBuildStatsTable initial budgetFailures changedFiles
      estimatedTransferSizes outputs in
  length messages <= 2
  /\ (changedFiles = None ->
      messages = []
      \/ exists rows,
           rows <> []
           /\ messages
              = [(line_feed
                  +:+ generateBuildStatsTable rows true true
                        (bool_decide (is_Some estimatedTransferSizes)) budgetFailures
                  +:+ line_feed)%string])
  /\ (is_Some changedFiles ->
      exists first rest,
        messages = first :: rest
        /\ (first = (line_feed +:+ "No output file changes." +:+ line_feed)%string
            \/ exists rows showTotal,
                 rows <> []
                 /\ first
                    = (line_feed
                       +:+ generateBuildStatsTable rows true showTotal
                             (bool_decide (is_Some estimatedTransferSizes)) budgetFailures
                       +:+ line_feed)%string)).
Proof.
  intros messages. subst messages. unfold logBuildStats.
  destruct (visit_outputs record_name initial changedFiles estimatedTransferSizes outputs
              (MkTally [] 0)) as [Hstats Hcount].
  set (t := fold_left _ outputs _) in *. cbn in Hstats, Hcount.
  split_and!.
  - rewrite length_app.
    destruct (0 <? length (stats t)), (bool_decide (is_Some changedFiles)),
      (0 <? unchangedCount t); cbn; lia.
  - intros ->. rewrite held_back_None in Hcount. rewrite Hcount. cbn.
    destruct (stats t) as [|r rows] eqn:Hrows; cbn; [by left|].
    right. by exists (r :: rows).
  - intros [files ->]. cbn.
    destruct (stats t) as [|r rows] eqn:Hrows; cbn.
    + eexists _, _. split; [done|]. by left.
    + eexists _, _. split; [done|]. right. by exists (r :: rows), (unchangedCount t =? 0).
Qed.
















Lemma endsWith_same_length (s a b : string) :
  String.length a = String.length b -> endsWith s a = true -> endsWith s b = true -> a = b.
Proof.
  unfold endsWith. intros Hlen [_ Ha%String.eqb_eq]%andb_true_iff [_ Hb%String.eqb_eq]%andb_true_iff.
  rewrite <- Hlen in Hb. congruence.
Qed.







(** X18: the two functions together.  When the map that
    [calculateEstimatedTransferSizes] returned for the output files is
    passed to [logBuildStats], every [.js] or [.css] entry of the metafile
    that is the path of an output file gets a number in the last column,
    and every other entry a dash. *)
Theorem build_stats_estimates {InitialFileRecord : Type}
    (record_name : InitialFileRecord -> option string)
    (initial : gmap string InitialFileRecord)
    (outputFiles : list OutputFile) (evs : list Estimator.event)
    (s : Estimator.state) (sizes : gmap string nat)
    (file : string) (output : MetafileOutput) :
  Estimator.run outputFiles (Estimator.start outputFiles) evs = Some s ->
  Estimator.returned s = Some sizes ->
  endsWith file ".js" = true \/ endsWith file ".css" = true ->
  let estimate := (bs_stats (row record_name initial (Some sizes) file output)).2 in
  ((exists f, f ∈ outputFiles /\ of_path f = file) ->
   exists size, estimate = inl size /\ sizes !! file = Some size)
  /\ ((forall f, f ∈ outputFiles -> of_path f <> file) -> estimate = inr "-"%string).
Proof.
  intros Hrun Hret Hkind. cbn.
  pose proof (returned_keys outputFiles s sizes
                (estimate_reachable_inv outputFiles evs s Hrun) Hret) as Hdom.
  assert (file ∈ dom sizes <-> exists f, f ∈ outputFiles /\ of_path f = file) as Hkey.
  { rewrite Hdom. unfold Estimator.qualifying_paths.
    rewrite elem_of_list_to_set, list_elem_of_fmap. split.
    - intros (f & -> & Hf). apply list_elem_of_filter in Hf as [_ Hf]. by exists f.
    - intros (f & Hf & <-). exists f. split; [done|].
      apply list_elem_of_filter. split; [|done]. by apply qualifies_iff. }
  split.
  - intros Hf. apply Hkey, elem_of_dom in Hf as [size Hsize].
    exists size. by rewrite Hsize.
  - intros Hno. destruct (sizes !! file) as [size|] eqn:Hsize; [|done].
    assert (file ∈ dom sizes) as Hin by (apply elem_of_dom; by exists size).
    apply Hkey in Hin as (f & Hf & Hpath). by destruct (Hno f Hf).
Qed.

Lemma build_stats_estimates_witness :
  exists size,
    (bs_stats (row id sample_initial (Some sample_sizes) "main.js"
                 (MkMetafileOutput 2000 None false))).2 = inl size
    /\ sample_sizes !! "main.js"%string = Some size.
Proof.
  apply (proj1 (build_stats_estimates id sample_initial sample_outputs
                  [Estimator.Done 0 (inr 400)]
                  (Estimator.MkState sample_sizes 3 Estimator.Fulfilled ∅) sample_sizes
                  "main.js" (MkMetafileOutput 2000 None false)
                  ltac:(vm_compute; reflexivity) eq_refl (or_introl eq_refl))).
  exists (MkOutputFile "main.js" (MkUint8Array 0 0 2000) "h0").
  split; [|reflexivity]. unfold sample_outputs. set_solver.
Defined.

Example basename_samples :
  (basename "src/main.ts", basename "/a/b//", basename "///", basename EmptyString, basename "x")
  = ("main.ts", "b", EmptyString, EmptyString, "x")%string.
Proof. reflexivity. Qed.

Example entry_name_samples :
  (entry_name "src/main.server.mts", entry_name "a/b.c/polyfills.js",
   entry_name "x\y.tsx", entry_name ".ts", entry_name "a.js.map")
  = ("main-server", "polyfills", "x-y-tsx", EmptyString, "a-js-map")%string.
Proof. reflexivity. Qed.

(** ** Text and bytes: [createOutputFileFromText] and [createOutputFileFromData] *)

Module Utf8Facts.
Import Utf8.
#[local] Open Scope Z_scope.

(** [String.prototype.toWellFormed]: every surrogate that is not part of a
    pair becomes U+FFFD. *)
Fixpoint toWellFormed (s : jsstring) : jsstring :=
  match s with
  | [] => []
  | c :: rest =>
      if is_high c then
        match rest with
        | d :: rest' =>
            if is_low d then c :: d :: toWellFormed rest'
            else 0xFFFD :: toWellFormed rest
        | [] => [0xFFFD]
        end
      else if is_low c then 0xFFFD :: toWellFormed rest
      else c :: toWellFormed rest
  end.

(** The decoder run over some bytes: the state reached and the units put out. *)
Fixpoint feed (st : dstate) (bs : list byte) : dstate * list Z :=
  match bs with
  | [] => (st, [])
  | b :: rest =>
      let '(st', out) := step st (Z_of_byte b) in
      let '(st'', out') := feed st' rest in
      (st'', out ++ out')
  end.

Definition at_rest (st : dstate) : bool :=
  (code_point st =? 0) && (bytes_needed st =? 0) && (bytes_seen st =? 0)
  && (lower st =? 0x80) && (upper st =? 0xBF).

Fixpoint same_units (s t : list Z) : bool :=
  match s, t with
  | [], [] => true
  | c :: s', d :: t' => (c =? d) && same_units s' t'
  | _, _ => false
  end.

(** Decoding the UTF-8 form of [cp] from rest gives [units] and comes to rest. *)
Definition decodes_to (cp : Z) (units : list Z) : bool :=
  let '(st, out) := feed dinit (encode_cp cp) in
  at_rest st && same_units out units.

Definition below (n : nat) : list Z := Z.of_nat <$> seq 0 n.

(** [test i j] for all [i] and [j] from 0 up to [n]. *)
Definition holds_below (n : nat) (test : Z -> Z -> bool) : bool :=
  let range := below n in
  forallb (fun i => forallb (test i) range) range.

Definition unit_decoded (hi lo : Z) : bool :=
  let c := 256 * hi + lo in
  is_high c || is_low c || decodes_to c [c].

Definition pair_decoded (i j : Z) : bool :=
  decodes_to (0x10000 + Z.shiftl i 10 + j) [0xD800 + i; 0xDC00 + j].

End Utf8Facts.

Section Utf8RoundTrip.
Import Utf8 Utf8Facts.
#[local] Open Scope Z_scope.

Lemma units_decoded : holds_below 256 unit_decoded = true.
Proof. vm_compute. reflexivity. Qed.

Lemma pairs_decoded : holds_below 1024 pair_decoded = true.
Proof. vm_compute. reflexivity. Qed.

Lemma below_complete (n : nat) (z : Z) : 0 <= z < Z.of_nat n -> In z (below n).
Proof.
  intros Hz. unfold below. apply list_elem_of_In, list_elem_of_fmap.
  exists (Z.to_nat z). split; [lia|]. apply elem_of_seq. lia.
Qed.

Lemma holds_below_spec (n : nat) (test : Z -> Z -> bool) (i j : Z) :
  holds_below n test = true ->
  0 <= i < Z.of_nat n -> 0 <= j < Z.of_nat n -> test i j = true.
Proof.
  unfold holds_below. cbv zeta. intros Hall Hi Hj.
  rewrite forallb_forall in Hall. specialize (Hall i (below_complete n i Hi)).
  rewrite forallb_forall in Hall. exact (Hall j (below_complete n j Hj)).
Qed.

Lemma at_rest_dinit (st : dstate) : at_rest st = true -> st = dinit.
Proof.
  destruct st as [cp needed seen lo hi]. unfold at_rest. cbn.
  intros H. repeat (apply andb_prop in H as [H ?]).
  unfold dinit. f_equal; lia.
Qed.

Lemma same_units_eq (s t : list Z) : same_units s t = true -> s = t.
Proof.
  revert t. induction s as [|c s IH]; intros [|d t]; cbn; try done.
  intros [Hc Hs]%andb_prop. f_equal; [lia|by apply IH].
Qed.

Lemma decodes_to_feed (cp : Z) (units : list Z) :
  decodes_to cp units = true -> feed dinit (encode_cp cp) = (dinit, units).
Proof.
  unfold decodes_to. destruct (feed dinit (encode_cp cp)) as [st out].
  intros [Hst Hout]%andb_prop.
  by rewrite (at_rest_dinit st Hst), (same_units_eq out units Hout).
Qed.

(** A unit that is not a surrogate is decoded from its UTF-8 form. *)
Lemma feed_unit (c : Z) :
  0 <= c < 0x10000 -> is_high c = false -> is_low c = false ->
  feed dinit (encode_cp c) = (dinit, [c]).
Proof.
  intros Hc Hhigh Hlow. apply decodes_to_feed.
  assert (0 <= c / 256 < Z.of_nat 256) as Hhi.
  { split; [apply Z.div_pos; lia|apply Z.div_lt_upper_bound; lia]. }
  assert (0 <= c mod 256 < Z.of_nat 256) as Hlo.
  { pose proof (Z.mod_pos_bound c 256). lia. }
  pose proof (holds_below_spec 256 unit_decoded _ _ units_decoded Hhi Hlo) as Hall.
  unfold unit_decoded in Hall. cbv zeta in Hall.
  replace (256 * (c / 256) + c mod 256) with c in Hall by (apply Z.div_mod; lia).
  by rewrite Hhigh, Hlow in Hall.
Qed.

(** So is a surrogate pair. *)
Lemma feed_pair (c d : Z) :
  is_high c = true -> is_low d = true ->
  feed dinit (encode_cp (0x10000 + Z.shiftl (c - 0xD800) 10 + (d - 0xDC00)))
  = (dinit, [c; d]).
Proof.
  unfold is_high, is_low. intros Hc Hd.
  assert (0 <= c - 0xD800 < Z.of_nat 1024) as Hi by lia.
  assert (0 <= d - 0xDC00 < Z.of_nat 1024) as Hj by lia.
  pose proof (holds_below_spec 1024 pair_decoded _ _ pairs_decoded Hi Hj) as Hall.
  unfold pair_decoded in Hall.
  apply decodes_to_feed in Hall.
  replace (0xD800 + (c - 0xD800)) with c in Hall by lia.
  replace (0xDC00 + (d - 0xDC00)) with d in Hall by lia.
  exact Hall.
Qed.

Lemma decode_from_app (st : dstate) (bs rest : list byte) :
  decode_from st (bs ++ rest) = (feed st bs).2 ++ decode_from (feed st bs).1 rest.
Proof.
  revert st. induction bs as [|b bs IH]; intros st; [done|].
  cbn [app decode_from feed].
  destruct (step st (Z_of_byte b)) as [st' out].
  rewrite IH. destruct (feed st' bs) as [st'' out']. cbn. by rewrite app_assoc.
Qed.

Lemma decode_encode_cp (cp : Z) (units : list Z) (rest : list byte) :
  feed dinit (encode_cp cp) = (dinit, units) ->
  decode (encode_cp cp ++ rest) = units ++ decode rest.
Proof. intros H. unfold decode. by rewrite decode_from_app, H. Qed.

Lemma decode_replacement (rest : list byte) :
  decode (encode_cp 0xFFFD ++ rest) = 0xFFFD :: decode rest.
Proof. apply (decode_encode_cp 0xFFFD [0xFFFD]). vm_compute. reflexivity. Qed.

(** Decoding what was encoded gives the text back, with U+FFFD in the place
    of each surrogate that stood alone. *)
Lemma decode_encode (s : jsstring) :
  Forall (fun c => 0 <= c < 0x10000) s ->
  decode (encode s) = toWellFormed s.
Proof.
  assert (forall n s, (length s <= n)%nat -> Forall (fun c => 0 <= c < 0x10000) s ->
                      decode (encode s) = toWellFormed s) as Hn;
    [|by apply (Hn (length s))].
  clear s. induction n as [|n IH]; intros [|c rest] Hlen Hs; try done; cbn in Hlen; [lia|].
  apply Forall_cons in Hs as [Hc Hs].
  cbn [encode toWellFormed].
  destruct (is_high c) eqn:Hhigh.
  - destruct rest as [|d rest'].
    + rewrite <- (app_nil_r (encode_cp 0xFFFD)). by rewrite decode_replacement.
    + destruct (is_low d) eqn:Hlow.
      * apply Forall_cons in Hs as [_ Hs].
        rewrite (decode_encode_cp _ [c; d]) by by apply feed_pair.
        cbn in Hlen. cbn. rewrite IH; [done|lia|done].
      * rewrite decode_replacement. rewrite IH; [done|lia|done].
  - destruct (is_low c) eqn:Hlow.
    + rewrite decode_replacement. rewrite IH; [done|lia|done].
    + rewrite (decode_encode_cp _ [c]) by by apply feed_unit.
      cbn. rewrite IH; [done|lia|done].
Qed.

(** Encoding does to a lone surrogate what [toWellFormed] does. *)
Lemma encode_toWellFormed (s : jsstring) : encode (toWellFormed s) = encode s.
Proof.
  assert (forall n s, (length s <= n)%nat -> encode (toWellFormed s) = encode s) as Hn;
    [|by apply (Hn (length s))].
  clear s. induction n as [|n IH]; intros [|c rest] Hlen; try done; cbn in Hlen; [lia|].
  cbn [toWellFormed].
  destruct (is_high c) eqn:Hhigh.
  - destruct rest as [|d rest'].
    + cbn [encode]. by rewrite Hhigh.
    + destruct (is_low d) eqn:Hlow.
      * cbn [encode]. rewrite Hhigh, Hlow. cbn in Hlen. rewrite IH; [done|lia].
      * change (encode (0xFFFD :: toWellFormed (d :: rest')))
          with (encode_cp 0xFFFD ++ encode (toWellFormed (d :: rest'))).
        rewrite IH by lia.
        change (encode (c :: d :: rest'))
          with (if is_high c then
                  if is_low d
                  then encode_cp (0x10000 + Z.shiftl (c - 0xD800) 10 + (d - 0xDC00))
                       ++ encode rest'
                  else encode_cp 0xFFFD ++ encode (d :: rest')
                else if is_low c then encode_cp 0xFFFD ++ encode (d :: rest')
                else encode_cp c ++ encode (d :: rest')).
        by rewrite Hhigh, Hlow.
  - destruct (is_low c) eqn:Hlow.
    + change (encode (0xFFFD :: toWellFormed rest))
        with (encode_cp 0xFFFD ++ encode (toWellFormed rest)).
      rewrite IH by lia. cbn [encode]. by rewrite Hhigh, Hlow.
    + cbn [encode]. rewrite Hhigh, Hlow. rewrite IH; [done|lia].
Qed.

End Utf8RoundTrip.

Definition smiley_text : Utf8.jsstring := [0x68; 0xE9; 0xD83D; 0xDE00]%Z.

Definition smiley_store : store := {[ 7 := Utf8.encode smiley_text ]}.

Example smiley_bytes :
  Utf8.encode smiley_text = [x68; xc3; xa9; xf0; x9f; x98; x80].
Proof. reflexivity. Qed.

Example lone_surrogate_replaced :
  Utf8.decode (Utf8.encode [0x61; 0xD83D; 0x62]%Z) = [0x61; 0xFFFD; 0x62]%Z.
Proof. reflexivity. Qed.

(** X19: a text file and the data file made of its bytes.  When the bytes
    of a file made by [createOutputFileFromText] are given to
    [createOutputFileFromData], the new file has the same hash, which is the
    SHA-256 of those bytes, and its text is the old text with U+FFFD in the
    place of each surrogate that stood alone: the same text exactly when the
    old one was well formed. *)
Theorem text_file_as_data (h : store) (p : string) (text : Utf8.jsstring)
    (ty : BuildOutputFileType) (data : Uint8Array) :
  Forall (fun c => (0 <= c < 0x10000)%Z) text ->
  view h data
  = contents_bytes h (BuildOutputFile.contents (createOutputFileFromText p text ty)) ->
  let of_text := createOutputFileFromText p text ty in
  let of_data := createOutputFileFromData p data ty in
  BuildOutputFile.text h of_data = Utf8Facts.toWellFormed text
  /\ BuildOutputFile.hash h of_data = BuildOutputFile.hash h of_text
  /\ BuildOutputFile.hash h of_data = Sha256.sha256_hex (view h data)
  /\ (BuildOutputFile.text h of_data = BuildOutputFile.text h of_text
      <-> Utf8Facts.toWellFormed text = text).
Proof.
  intros Hunits Hview. cbn in Hview. cbn.
  rewrite Hview, (decode_encode text Hunits), encode_toWellFormed. done.
Qed.

Lemma text_file_as_data_witness :
  BuildOutputFile.text smiley_store (createOutputFileFromData "a.js" (MkUint8Array 7 0 7) Browser)
  = Utf8Facts.toWellFormed smiley_text.
Proof.
  refine (proj1 (text_file_as_data smiley_store "a.js" smiley_text Browser
                   (MkUint8Array 7 0 7) _ eq_refl)).
  unfold smiley_text. repeat constructor; lia.
Defined.
